(** * spark_sql_runner: a Spark SQL query over preloaded temporary views

    Shallow embedding of [perfkitbenchmarker/scripts/spark_sql_runner.py].

    - Python strings are [string], one character of the string for each
      character of the Python string: the strings of the model are those
      whose characters have a code point below 256 (among them only [0] to
      [9] are decimal digits, and the length in characters is the length
      that Python and Java count). Python lists are [list].
    - The staging dictionary [temp_dfs] is a dictionary with the order of
      insertion, which is the order of [dict.items()] from Python 3.7 on.
    - The Spark session is an explicit state: the temporary views, the trace
      of the calls that the script makes on the engine and on the file
      system, and the rows printed. What the engine and the file system
      answer is a parameter, [World].
    - Python exceptions are the [Raise] results of a state-and-error monad;
      the script catches none.
    - [parse_args] follows [argparse.ArgumentParser.parse_args] of CPython
      3.11 for the parser that the script builds.
    - The PySpark calls are modelled by what they do to that state:
      [DataFrameReader.option] updates the reader in place, [load] reads a
      source, [createTempView] raises for a name that the engine does not
      accept as a view name and for a name whose view is bound (the engine
      compares the names as it stores them, without case by default),
      [show(n)] prints the first rows, at most [n] and at most 2^31 - 17,
      with every cell of more than 20 characters cut. *)

From Stdlib Require Import ZArith Ascii String.
From stdpp Require Import gmap strings list.

#[local] Set Warnings "-clear-no-such-hyp".

Local Open Scope string_scope.
Local Open Scope list_scope.

(** ** Python strings *)

Module PyStr.

(** [s.split(sep)] for a separator of one character: the pieces between the
    occurrences of [sep], in order; an empty string gives one empty piece. *)
Fixpoint split (sep : ascii) (s : string) : list string :=
  match s with
  | EmptyString => [EmptyString]
  | String c s' =>
      if Ascii.eqb c sep then EmptyString :: split sep s'
      else match split sep s' with
           | [] => [String c EmptyString]
           | w :: ws => String c w :: ws
           end
  end.

(** [c in s] *)
Fixpoint contains (c : ascii) (s : string) : bool :=
  match s with
  | EmptyString => false
  | String c' s' => Ascii.eqb c' c || contains c s'
  end.

(** [s.split(sep, 1)] when [sep in s]: the text before the first [sep] and
    the text after it. *)
Fixpoint split_once (sep : ascii) (s : string) : string * string :=
  match s with
  | EmptyString => (EmptyString, EmptyString)
  | String c s' =>
      if Ascii.eqb c sep then (EmptyString, s')
      else let '(a, b) := split_once sep s' in (String c a, b)
  end.

(** [s.startswith(p)] *)
Definition startswith (s p : string) : bool := String.prefix p s.

(** [l[-1]] on a list of strings that is never empty here ([split_nonempty]):
    the default is not reachable. *)
Definition last_item (l : list string) : string := List.last l EmptyString.

(** Python truthiness of a value that is [None] or a string. *)
Definition truthy (o : option string) : bool :=
  match o with
  | None => false
  | Some EmptyString => false
  | Some (String _ _) => true
  end.

End PyStr.

(** ** View names *)

(** [name = table.split('.')[-1]] *)
Definition table_view_name (table : string) : string :=
  PyStr.last_item (PyStr.split "." table).

(** [name = hcfs_dir.split('/')[-1]] *)
Definition dir_view_name (hcfs_dir : string) : string :=
  PyStr.last_item (PyStr.split "/" hcfs_dir).

(** The final [sep]-separated component of [s], in the words of the
    specification: it holds no separator, and it is either the whole of [s] or
    what follows the last separator of [s]. *)
Definition final_component (sep : ascii) (s name : string) : Prop :=
  PyStr.contains sep name = false ∧
  (s = name ∨ ∃ front, s = front +:+ String sep name).


(** ** Python dictionaries

    A [dict] keyed by strings, with the order of [items()]: a new key goes to
    the end, and storing under a key that is present replaces its value where
    it stands. *)

Module PyDict.
Section dict.
Context {V : Type}.

Fixpoint set (k : string) (v : V) (d : list (string * V)) : list (string * V) :=
  match d with
  | [] => [(k, v)]
  | (k', v') :: d' =>
      if String.eqb k' k then (k, v) :: d' else (k', v') :: set k v d'
  end.

Fixpoint get (k : string) (d : list (string * V)) : option V :=
  match d with
  | [] => None
  | (k', v') :: d' => if String.eqb k' k then Some v' else get k d'
  end.

End dict.
End PyDict.

(** ** The engine: readers, data frames, the session *)

(** A row of a result set, as [show] displays it: for each cell, the text
    that stands for its value, before it is cut to the width of the
    display. *)
Definition Row : Type := list string.

(** [spark.read.format(f).option(k, v)...]: the source format and the options
    set so far, in the order of the calls. *)
Record DataFrameReader := {
  source_format : string;
  reader_options : list (string * string) }.

(** A loaded data frame is known by the reader that loaded it and the path
    given to [load]. *)
Record DataFrame := {
  df_reader : DataFrameReader;
  df_path : option string }.

(** The result of [spark.sql(text)]: the rows of the query, or [None] when
    its evaluation fails. *)
Record ResultSet := {
  rs_sql : string;
  rs_rows : option (list Row) }.

(** What lies outside the script: the files, the data sources the engine can
    reach, the engine's reading of a view name, and the engine's answer to a
    query text over the views bound.

    [view_key name] is the name under which the session stores the view
    [name]: the engine parses [name] as a table identifier and stores the
    view under the identifier as the session writes it (in lower case unless
    the session is case sensitive); it is [None] for a name that the engine
    refuses (the empty name, a name with a dash or a dot, ...). The views of
    the session are kept under these stored names. *)
Record World := {
  file_contents : string → option string;
  source_available : DataFrameReader → option string → bool;
  view_key : string → option string;
  query_result : gmap string DataFrame → string → option ResultSet }.

Inductive Exn :=
| IOError (path : string)
| LoadError (reader : DataFrameReader) (path : option string)
| InvalidViewName (name : string)
| TempViewAlreadyExists (name : string)
| SqlAnalysisError (sql : string)
| SqlExecutionError (sql : string).

(** The calls the script makes on the engine and on the file system. *)
Inductive Event :=
| GetOrCreate (app_name : string)
| Load (reader : DataFrameReader) (path : option string)
| CreateTempView (name : string) (df : DataFrame)
| OpenFile (path : string)
| Sql (text : string)
| Show (num_rows : Z).

Record State := {
  temp_views : gmap string DataFrame;
  trace : list Event;
  shown : list Row }.

Definition initial_state : State :=
  {| temp_views := ∅; trace := []; shown := [] |}.

Definition log (e : Event) (st : State) : State :=
  {| temp_views := temp_views st; trace := trace st ++ [e]; shown := shown st |}.

(** ** Exceptions and state *)

Inductive Result (A : Type) :=
| Ok (a : A)
| Raise (e : Exn).
Arguments Ok {A} a.
Arguments Raise {A} e.

Definition M (A : Type) : Type := World → State → Result A * State.

Definition ret {A} (a : A) : M A := λ _ st, (Ok a, st).

Definition bind {A B} (m : M A) (k : A → M B) : M B :=
  λ w st,
    match m w st with
    | (Ok a, st') => k a w st'
    | (Raise e, st') => (Raise e, st')
    end.

Notation "'let*' x ':=' m 'in' k" := (bind m (λ x, k))
  (at level 10, x name, m at level 100, k at level 200, only parsing).
Notation "'do' m 'then' k" := (bind m (λ _, k))
  (at level 10, m at level 100, k at level 200, only parsing).

(** [for x in xs: acc = body(x, acc)] *)
Fixpoint for_fold {A S} (xs : list A) (body : A → S → M S) (acc : S) : M S :=
  match xs with
  | [] => ret acc
  | x :: xs' => let* acc' := body x acc in for_fold xs' body acc'
  end.

(** [for x in xs: body(x)] *)
Fixpoint for_each {A} (xs : list A) (body : A → M unit) : M unit :=
  match xs with
  | [] => ret tt
  | x :: xs' => do body x then for_each xs' body
  end.

(** [logging.info(...)]: nothing configures logging, so the root logger stays
    at WARNING and the record is dropped. *)
Definition logging_info (msg : string) : M unit := ret tt.

(** ** The session API *)

Inductive SparkSession := Session.

(** [SparkSession.builder.appName(name).getOrCreate()] *)
Definition getOrCreate (app_name : string) : M SparkSession :=
  λ _ st, (Ok Session, log (GetOrCreate app_name) st).

(** [spark.read.format(fmt)]: a new reader on each access of [spark.read]. *)
Definition read_format (spark : SparkSession) (fmt : string) : DataFrameReader :=
  {| source_format := fmt; reader_options := [] |}.

(** [reader.option(key, value)]: PySpark's reader records the option in place
    and returns itself, so the call changes [reader] whether or not its
    result is used. *)
Definition reader_option (key value : string) (reader : DataFrameReader)
  : DataFrameReader :=
  {| source_format := source_format reader;
     reader_options := reader_options reader ++ [(key, value)] |}.

(** [reader.load()] and [reader.load(path)] *)
Definition reader_load (reader : DataFrameReader) (path : option string)
  : M DataFrame :=
  λ w st,
    let st' := log (Load reader path) st in
    if source_available w reader path
    then (Ok {| df_reader := reader; df_path := path |}, st')
    else (Raise (LoadError reader path), st').

(** [df.createTempView(name)]: raises when the engine refuses [name] as a
    view name, and when the session holds a temporary view under the name
    as it is stored. *)
Definition createTempView (df : DataFrame) (name : string) : M unit :=
  λ w st,
    let st' := log (CreateTempView name df) st in
    match view_key w name with
    | None => (Raise (InvalidViewName name), st')
    | Some key =>
        match temp_views st !! key with
        | Some _ => (Raise (TempViewAlreadyExists name), st')
        | None =>
            (Ok tt, {| temp_views := <[key := df]> (temp_views st');
                       trace := trace st'; shown := shown st' |})
        end
    end.

(** [open(path)] followed by [f.read()] *)
Definition open_read (path : string) : M string :=
  λ w st,
    let st' := log (OpenFile path) st in
    match file_contents w path with
    | Some text => (Ok text, st')
    | None => (Raise (IOError path), st')
    end.

(** [spark.sql(text)] *)
Definition spark_sql (spark : SparkSession) (text : string) : M ResultSet :=
  λ w st,
    let st' := log (Sql text) st in
    match query_result w (temp_views st) text with
    | Some rs => (Ok rs, st')
    | None => (Raise (SqlAnalysisError text), st')
    end.

(** The first [n] rows of [rows]; none when [n] is not positive. *)
Fixpoint take_rows (n : Z) (rows : list Row) : list Row :=
  match rows with
  | [] => []
  | r :: rows' => if (n <=? 0)%Z then [] else r :: take_rows (n - 1) rows'
  end.

(** One cell of the display: a text of more than [truncate] characters is
    cut to its first [truncate - 3] characters followed by three dots (to
    its first [truncate] characters when [truncate] is less than 4); a
    [truncate] of 0 cuts nothing. *)
Definition show_cell (truncate : nat) (str : string) : string :=
  if (0 <? truncate)%nat && (truncate <? String.length str)%nat then
    if (truncate <? 4)%nat then String.substring 0 truncate str
    else String.substring 0 (truncate - 3) str +:+ "..."
  else str.

(** [ByteArrayMethods.MAX_ROUNDED_ARRAY_LENGTH]: [Integer.MAX_VALUE - 15]. *)
Definition MAX_ROUNDED_ARRAY_LENGTH : Z := 2147483632.

(** The rows of [showString(numRows, truncate)]: the number of rows is
    brought between 0 and [MAX_ROUNDED_ARRAY_LENGTH - 1], and every cell of
    the rows taken is cut. *)
Definition show_rows (numRows : Z) (truncate : nat) (rows : list Row)
  : list Row :=
  let numRows := Z.min (Z.max numRows 0) (MAX_ROUNDED_ARRAY_LENGTH - 1) in
  map (map (show_cell truncate)) (take_rows numRows rows).

(** [df.show(n)], with the defaults [truncate=True], which is the width 20,
    and [vertical=False]: prints the rows of [showString(n, 20)]. *)
Definition show (rs : ResultSet) (n : Z) : M unit :=
  λ _ st,
    let st' := log (Show n) st in
    match rs_rows rs with
    | Some rows =>
        (Ok tt, {| temp_views := temp_views st'; trace := trace st';
                   shown := shown st' ++ show_rows n 20 rows |})
    | None => (Raise (SqlExecutionError (rs_sql rs)), st')
    end.

(** [spark._jvm.java.lang.Integer.MAX_VALUE] *)
Definition Integer_MAX_VALUE : Z := 2147483647.

(** ** The script *)

Record Args := {
  sql_script : string;
  bigquery_tables : list string;
  bigquery_record_format : option string;
  hcfs_dirs : list string }.

(** [register_views(spark, bigquery_tables, hcfs_dirs,
    bigquery_record_format=None)] *)
Definition register_views (spark : SparkSession)
    (bigquery_tables hcfs_dirs : list string)
    (bigquery_record_format : option string) : M unit :=
  let temp_dfs : list (string * DataFrame) := [] in
  let* temp_dfs := for_fold bigquery_tables (λ table temp_dfs,
      let name := table_view_name table in
      do logging_info ("Loading " +:+ table) then
      let reader := reader_option "table" table (read_format spark "bigquery") in
      let reader :=
        match bigquery_record_format with
        | Some fmt =>
            if PyStr.truthy bigquery_record_format
            then reader_option "readDataFormat" fmt reader
            else reader
        | None => reader
        end in
      let* df := reader_load reader None in
      ret (PyDict.set name df temp_dfs)) temp_dfs in
  let* temp_dfs := for_fold hcfs_dirs (λ hcfs_dir temp_dfs,
      let name := dir_view_name hcfs_dir in
      do logging_info ("Loading " +:+ hcfs_dir) then
      let* df := reader_load (read_format spark "parquet") (Some hcfs_dir) in
      ret (PyDict.set name df temp_dfs)) temp_dfs in
  for_each temp_dfs (λ '(name, df), createTempView df name).

(** [main(args)] *)
Definition main (args : Args) : M unit :=
  let* spark := getOrCreate "Spark SQL Query" in
  do register_views spark (bigquery_tables args) (hcfs_dirs args)
       (bigquery_record_format args) then
  do logging_info ("Running " +:+ sql_script args) then
  let* sql := open_read (sql_script args) in
  let* df := spark_sql spark sql in
  show df Integer_MAX_VALUE.

(** ** The argument parser

    [parse_args] builds an [argparse.ArgumentParser] with the help option
    that [argparse] adds, the positional [sql_script], the options
    [--bigquery-tables] and [--hcfs-dirs] in one mutually exclusive group, and
    [--bigquery-record-format] outside it.  The definitions below follow
    [ArgumentParser.parse_args] for that parser: every argument string is
    first classified as an option or a plain argument, then options and
    positionals are consumed from left to right. *)

Inductive Action :=
| Help
| SqlScript
| BigqueryTables
| BigqueryRecordFormat
| HcfsDirs.

Global Instance Action_eq_dec : EqDecision Action.
Proof. solve_decision. Defined.

(** [parser._option_string_actions], in the order of registration. *)
Definition option_string_actions : list (string * Action) :=
  [ ("-h", Help); ("--help", Help);
    ("--bigquery-tables", BigqueryTables);
    ("--bigquery-record-format", BigqueryRecordFormat);
    ("--hcfs-dirs", HcfsDirs) ].

Definition lookup_option (option_string : string) : option Action :=
  PyDict.get option_string option_string_actions.

(** [_get_action_name] *)
Definition action_name (a : Action) : string :=
  match a with
  | Help => "-h/--help"
  | SqlScript => "sql_script"
  | BigqueryTables => "--bigquery-tables"
  | BigqueryRecordFormat => "--bigquery-record-format"
  | HcfsDirs => "--hcfs-dirs"
  end.

(** The number of argument strings an action takes: [nargs=0] for help, one
    for the others. *)
Definition arg_count (a : Action) : nat :=
  match a with
  | Help => 0
  | _ => 1
  end.

(** The members of the mutually exclusive group exclude each other. *)
Definition action_conflicts (a : Action) : list Action :=
  match a with
  | BigqueryTables => [HcfsDirs]
  | HcfsDirs => [BigqueryTables]
  | _ => []
  end.

(** [type=comma_separated_list] *)
Definition comma_separated_list (s : string) : list string :=
  PyStr.split "," s.

(** [prefix_chars='-'] *)
Definition is_prefix_char (c : ascii) : bool := Ascii.eqb c "-".

(** [\d] of a regular expression on strings: a decimal digit; among the
    characters below 256 these are [0] to [9]. *)
Definition is_digit (c : ascii) : bool :=
  (48 <=? nat_of_ascii c)%nat && (nat_of_ascii c <=? 57)%nat.

(** [$] of a regular expression: the end, or a final newline. *)
Definition at_end (s : string) : bool :=
  match s with
  | EmptyString => true
  | String c EmptyString => Ascii.eqb c "010"
  | _ => false
  end.

(** [\d+$] *)
Fixpoint digits_to_end (s : string) : bool :=
  match s with
  | EmptyString => false
  | String c s' => is_digit c && (at_end s' || digits_to_end s')
  end.

(** [\d*\.\d+$] *)
Fixpoint fraction_to_end (s : string) : bool :=
  match s with
  | EmptyString => false
  | String c s' =>
      (Ascii.eqb c "." && digits_to_end s') || (is_digit c && fraction_to_end s')
  end.

(** [_negative_number_matcher]: [^-\d+$|^-\d*\.\d+$] *)
Definition negative_number (arg : string) : bool :=
  match arg with
  | String c s => Ascii.eqb c "-" && (digits_to_end s || fraction_to_end s)
  | EmptyString => false
  end.

(** [_get_option_tuples], for an argument string of two characters or more
    that starts with a prefix character. *)
Definition get_option_tuples (arg : string)
  : list (Action * string * option string) :=
  match arg with
  | String c0 (String c1 tail) =>
      if is_prefix_char c0 && is_prefix_char c1 then
        let '(option_prefix, explicit_arg) :=
          if PyStr.contains "=" arg
          then let '(a, b) := PyStr.split_once "=" arg in (a, Some b)
          else (arg, None) in
        flat_map (λ '(option_string, action),
            if PyStr.startswith option_string option_prefix
            then [(action, option_string, explicit_arg)] else [])
          option_string_actions
      else if is_prefix_char c0 then
        let short_option_prefix := String c0 (String c1 EmptyString) in
        let short_explicit_arg := tail in
        flat_map (λ '(option_string, action),
            if String.eqb option_string short_option_prefix
            then [(action, option_string, Some short_explicit_arg)]
            else if PyStr.startswith option_string arg
            then [(action, option_string, None)] else [])
          option_string_actions
      else []
  | _ => []
  end.

Inductive ArgClass :=
| IsPositional
| IsOptional (action : option Action) (option_string : string)
    (explicit_arg : option string)
| IsAmbiguous.

(** [_parse_optional]: [IsPositional] is its [None]. *)
Definition parse_optional (arg : string) : ArgClass :=
  match arg with
  | EmptyString => IsPositional
  | String c0 _ =>
      if negb (is_prefix_char c0) then IsPositional
      else
        match lookup_option arg with
        | Some action => IsOptional (Some action) arg None
        | None =>
            if (String.length arg =? 1)%nat then IsPositional
            else
              let before_eq :=
                if PyStr.contains "=" arg
                then let '(option_string, explicit_arg) :=
                       PyStr.split_once "=" arg in
                     match lookup_option option_string with
                     | Some action => Some (action, option_string, explicit_arg)
                     | None => None
                     end
                else None in
              match before_eq with
              | Some (action, option_string, explicit_arg) =>
                  IsOptional (Some action) option_string (Some explicit_arg)
              | None =>
                  match get_option_tuples arg with
                  | _ :: _ :: _ => IsAmbiguous
                  | [(action, option_string, explicit_arg)] =>
                      IsOptional (Some action) option_string explicit_arg
                  | [] =>
                      if negative_number arg then IsPositional
                      else if PyStr.contains " " arg then IsPositional
                      else IsOptional None arg None
                  end
              end
        end
  end.

(** One argument string with its letter in [arg_strings_pattern]: ['A'],
    ['O'] with its option tuple, or ['-'] for the first [--]. *)
Inductive Tok :=
| TokA (arg : string)
| TokO (arg : string) (action : option Action) (option_string : string)
    (explicit_arg : option string)
| TokDash.

(** The classification of all argument strings; an ambiguous option is an
    error at once. Everything after the first [--] is a plain argument. *)
Fixpoint classify (args : list string) : list Tok + string :=
  match args with
  | [] => inl []
  | arg :: rest =>
      if String.eqb arg "--" then inl (TokDash :: (TokA <$> rest))
      else
        match parse_optional arg with
        | IsAmbiguous =>
            inr ("ambiguous option: " +:+ arg +:+ " could match " +:+
                 String.concat ", " ((λ t, t.1.2) <$> get_option_tuples arg))
        | IsPositional =>
            match classify rest with
            | inl toks => inl (TokA arg :: toks)
            | inr msg => inr msg
            end
        | IsOptional action option_string explicit_arg =>
            match classify rest with
            | inl toks => inl (TokO arg action option_string explicit_arg :: toks)
            | inr msg => inr msg
            end
        end
  end.

(** The namespace under construction, with [seen_non_default_actions] and
    the strings no action took. No value here is ever the default object of
    its action (the lists are new lists), so [seen_actions] is the same set. *)
Record PState := {
  p_sql_script : option string;
  p_bigquery_tables : list string;
  p_bigquery_record_format : option string;
  p_hcfs_dirs : list string;
  seen : list Action;
  extras : list string }.

Definition initial_pstate : PState :=
  {| p_sql_script := None; p_bigquery_tables := [];
     p_bigquery_record_format := None; p_hcfs_dirs := [];
     seen := []; extras := [] |}.

Inductive Step :=
| Continue (st : PState)
| Exit (status : Z) (message : string).

(** A line of text with its end. *)
Definition line (s : string) : string := s +:+ String "010" EmptyString.

(** [parser.format_help()] at the width of 80 columns, which is the width
    without a terminal, for the program name [spark_sql_runner.py]: the
    usage, the description (the docstring of the module), the arguments. *)
Definition help_text : string :=
  line "usage: spark_sql_runner.py [-h] [--bigquery-tables TABLES]" +:+
  line "                           [--bigquery-record-format FORMAT]" +:+
  line "                           [--hcfs-dirs DIRS]" +:+
  line "                           sql_script" +:+
  line "" +:+
  line "Runs a Spark SQL query with preloaded temp views. Views can be BigQuery tables" +:+
  line "or HCFS directories containing Parquet. This is useful for Storage formats not" +:+
  line "expressible as External Hive Tables." +:+
  line "" +:+
  line "positional arguments:" +:+
  line "  sql_script            The local path to the SQL file to run" +:+
  line "" +:+
  line "options:" +:+
  line "  -h, --help            show this help message and exit" +:+
  line "  --bigquery-tables TABLES" +:+
  line "                        Comma separated list of fully qualified BigQuery" +:+
  line "                        tables. Views will share the name of the tables." +:+
  line "  --bigquery-record-format FORMAT" +:+
  line "                        Data Format for reading from BigQuery Storage" +:+
  line "  --hcfs-dirs DIRS      Comma separated list of HCFS directories containing" +:+
  line "                        parquet tables. Views will be named the basename of" +:+
  line "                        the directories.".

(** [arg_strings.remove('--')] in [_get_values]: the first [--] is dropped. *)
Fixpoint remove_dashes (arg_strings : list string) : list string :=
  match arg_strings with
  | [] => []
  | s :: rest => if String.eqb s "--" then rest else s :: remove_dashes rest
  end.

(** [take_action]: the values of the argument strings ([_get_values]), the
    conflict check against the actions seen, then the action itself; the help
    action prints the help and exits with status 0, an error exits with
    status 2.  One string is left in [arg_strings] but for an option written
    [--option=--], whose value is then the empty list: for
    [--bigquery-record-format] that list is kept as [None], which the script
    cannot tell from it (it only tests the value for truth). *)
Definition take_action (action : Action) (arg_strings : list string)
    (st : PState) : Step :=
  let values := remove_dashes arg_strings in
  match List.find (λ c, bool_decide (c ∈ seen st)) (action_conflicts action) with
  | Some conflict_action =>
      Exit 2 ("argument " +:+ action_name action +:+
              ": not allowed with argument " +:+ action_name conflict_action)
  | None =>
      let seen' := action :: seen st in
      match action with
      | Help => Exit 0 help_text
      | SqlScript =>
          Continue {| p_sql_script := head values;
                      p_bigquery_tables := p_bigquery_tables st;
                      p_bigquery_record_format := p_bigquery_record_format st;
                      p_hcfs_dirs := p_hcfs_dirs st;
                      seen := seen'; extras := extras st |}
      | BigqueryTables =>
          Continue {| p_sql_script := p_sql_script st;
                      p_bigquery_tables :=
                        match values with
                        | [v] => comma_separated_list v
                        | _ => []
                        end;
                      p_bigquery_record_format := p_bigquery_record_format st;
                      p_hcfs_dirs := p_hcfs_dirs st;
                      seen := seen'; extras := extras st |}
      | BigqueryRecordFormat =>
          Continue {| p_sql_script := p_sql_script st;
                      p_bigquery_tables := p_bigquery_tables st;
                      p_bigquery_record_format := head values;
                      p_hcfs_dirs := p_hcfs_dirs st;
                      seen := seen'; extras := extras st |}
      | HcfsDirs =>
          Continue {| p_sql_script := p_sql_script st;
                      p_bigquery_tables := p_bigquery_tables st;
                      p_bigquery_record_format := p_bigquery_record_format st;
                      p_hcfs_dirs :=
                        match values with
                        | [v] => comma_separated_list v
                        | _ => []
                        end;
                      seen := seen'; extras := extras st |}
      end
  end.

Definition add_extra (arg : string) (st : PState) : PState :=
  {| p_sql_script := p_sql_script st;
     p_bigquery_tables := p_bigquery_tables st;
     p_bigquery_record_format := p_bigquery_record_format st;
     p_hcfs_dirs := p_hcfs_dirs st;
     seen := seen st; extras := extras st ++ [arg] |}.

(** [repr(s)], which the format [%r] writes: the string between single
    quotes, or between double quotes when it holds a single quote and no
    double quote; the quote used and the backslash are escaped, and so are
    the characters that are not printable. *)
Definition double_quote : ascii := ascii_of_nat 34.

Definition hex_digit (n : nat) : ascii :=
  if (n <? 10)%nat then ascii_of_nat (48 + n) else ascii_of_nat (87 + n).

Definition repr_char (quote c : ascii) : string :=
  let n := nat_of_ascii c in
  if Ascii.eqb c quote || Ascii.eqb c "\" then String "\" (String c EmptyString)
  else if Ascii.eqb c "009" then "\t"
  else if Ascii.eqb c "010" then "\n"
  else if Ascii.eqb c "013" then "\r"
  else if (n <? 32)%nat || ((127 <=? n)%nat && (n <=? 160)%nat) || (n =? 173)%nat
  then String "\" (String "x" (String (hex_digit (n / 16))
                                 (String (hex_digit (n mod 16)) EmptyString)))
  else String c EmptyString.

Fixpoint repr_chars (quote : ascii) (s : string) : string :=
  match s with
  | EmptyString => EmptyString
  | String c s' => repr_char quote c +:+ repr_chars quote s'
  end.

Definition py_repr (s : string) : string :=
  let quote :=
    if PyStr.contains "'" s && negb (PyStr.contains double_quote s)
    then double_quote else "'"%char in
  String quote (repr_chars quote s +:+ String quote EmptyString).

(** What [consume_optional] finds in one option string: the flags that take
    no argument ([-xyz] read as [-x -y -z]), then the last action with its
    explicit argument, if it has one. *)
Inductive Consumed :=
| Actions (flags : list Action) (last : Action) (explicit_arg : option string)
| ConsumeError (message : string).

(** The loop of [consume_optional] on an option string that carries an
    explicit argument. *)
Fixpoint consume_explicit (action : Action) (option_string explicit_arg : string)
    (flags : list Action) : Consumed :=
  let single_dash :=
    match option_string with
    | String _ (String c1 _) => negb (is_prefix_char c1)
    | _ => false
    end in
  match arg_count action, explicit_arg with
  | O, String c tail =>
      if single_dash then
        let char := match option_string with
                    | String c0 _ => c0
                    | EmptyString => "-"%char
                    end in
        let option_string' := String char (String c EmptyString) in
        match lookup_option option_string' with
        | Some action' =>
            match tail with
            | EmptyString => Actions (flags ++ [action]) action' None
            | _ => consume_explicit action' option_string' tail (flags ++ [action])
            end
        | None =>
            ConsumeError ("argument " +:+ action_name action +:+
                          ": ignored explicit argument " +:+
                          py_repr explicit_arg)
        end
      else
        ConsumeError ("argument " +:+ action_name action +:+
                      ": ignored explicit argument " +:+
                      py_repr explicit_arg)
  | O, EmptyString =>
      ConsumeError ("argument " +:+ action_name action +:+
                    ": ignored explicit argument " +:+ py_repr explicit_arg)
  | _, _ => Actions flags action (Some explicit_arg)
  end.

Definition consume_optional (action : Action) (option_string : string)
    (explicit_arg : option string) : Consumed :=
  match explicit_arg with
  | Some e => consume_explicit action option_string e []
  | None => Actions [] action None
  end.

(** The flags of one option string, taken in order. *)
Fixpoint take_flags (flags : list Action) (st : PState) : Step :=
  match flags with
  | [] => Continue st
  | a :: flags' =>
      match take_action a [] st with
      | Continue st' => take_flags flags' st'
      | Exit status msg => Exit status msg
      end
  end.

Definition positional_pending (st : PState) : bool :=
  bool_decide (SqlScript ∉ seen st).

(** The loop of [_parse_known_args] over the classified argument strings.
    An option that takes an argument needs an ['A'] right after it; the
    positional takes one ['A'] with the [--] next to it; what nothing takes
    goes to [extras]. *)
Fixpoint parse_tokens (toks : list Tok) (st : PState) : Step :=
  match toks with
  | [] => Continue st
  | TokO arg None _ _ :: rest => parse_tokens rest (add_extra arg st)
  | TokO arg (Some action) option_string explicit_arg :: rest =>
      match consume_optional action option_string explicit_arg with
      | ConsumeError msg => Exit 2 msg
      | Actions flags last (Some value) =>
          match take_flags flags st with
          | Exit status msg => Exit status msg
          | Continue st1 =>
              match take_action last [value] st1 with
              | Exit status msg => Exit status msg
              | Continue st2 => parse_tokens rest st2
              end
          end
      | Actions flags last None =>
          match arg_count last, rest with
          | O, _ =>
              match take_flags (flags ++ [last]) st with
              | Exit status msg => Exit status msg
              | Continue st1 => parse_tokens rest st1
              end
          | S _, TokA value :: rest' =>
              match take_flags flags st with
              | Exit status msg => Exit status msg
              | Continue st1 =>
                  match take_action last [value] st1 with
                  | Exit status msg => Exit status msg
                  | Continue st2 => parse_tokens rest' st2
                  end
              end
          | S _, _ =>
              Exit 2 ("argument " +:+ action_name last +:+ ": expected one argument")
          end
      end
  | TokA value :: rest =>
      if positional_pending st then
        match rest with
        | TokDash :: rest' =>
            match take_action SqlScript [value; "--"] st with
            | Exit status msg => Exit status msg
            | Continue st1 => parse_tokens rest' st1
            end
        | _ =>
            match take_action SqlScript [value] st with
            | Exit status msg => Exit status msg
            | Continue st1 => parse_tokens rest st1
            end
        end
      else parse_tokens rest (add_extra value st)
  | TokDash :: rest =>
      if positional_pending st then
        match rest with
        | TokA value :: rest' =>
            match take_action SqlScript ["--"; value] st with
            | Exit status msg => Exit status msg
            | Continue st1 => parse_tokens rest' st1
            end
        | _ => parse_tokens rest (add_extra "--" st)
        end
      else parse_tokens rest (add_extra "--" st)
  end.

(** The end of [parse_args]: the namespace, or the exit of the process with
    its status and with the help text or the message given to
    [parser.error]. *)
Inductive ParseResult :=
| Parsed (args : Args)
| SystemExit (status : Z) (message : string).

(** [parser.parse_args()] on [sys.argv[1:]]. *)
Definition parse_args (argv : list string) : ParseResult :=
  match classify argv with
  | inr msg => SystemExit 2 msg
  | inl toks =>
      match parse_tokens toks initial_pstate with
      | Exit status msg => SystemExit status msg
      | Continue st =>
          match p_sql_script st with
          | None => SystemExit 2 "the following arguments are required: sql_script"
          | Some script =>
              match extras st with
              | [] =>
                  Parsed {| sql_script := script;
                            bigquery_tables := p_bigquery_tables st;
                            bigquery_record_format := p_bigquery_record_format st;
                            hcfs_dirs := p_hcfs_dirs st |}
              | unrecognized =>
                  SystemExit 2 ("unrecognized arguments: " +:+
                                String.concat " " unrecognized)
              end
          end
      end
  end.

(** ** The process

    [if __name__ == '__main__': main(parse_args())]: the argument of [main] is
    evaluated first, so an exit of the parser ends the process before [main]
    starts; an exception that leaves [main] ends it with the interpreter's
    traceback and status 1. [diagnostic] is the text written by the parser
    when it exits, or by the interpreter for an exception. *)

Definition exception_name (e : Exn) : string :=
  match e with
  | IOError path => "IOError: " +:+ path
  | LoadError reader _ => "Py4JJavaError: load " +:+ source_format reader
  | InvalidViewName name => "AnalysisException: invalid view name: " +:+ name
  | TempViewAlreadyExists name => "AnalysisException: temporary view exists: " +:+ name
  | SqlAnalysisError _ => "AnalysisException"
  | SqlExecutionError _ => "Py4JJavaError: showString"
  end.

Definition traceback (e : Exn) : string :=
  "Traceback (most recent call last): " +:+ exception_name e.

Record Process := {
  exit_status : Z;
  diagnostic : string;
  printed_rows : list Row;
  engine_calls : list Event }.

Definition script (w : World) (argv : list string) : Process :=
  match parse_args argv with
  | SystemExit status msg =>
      {| exit_status := status; diagnostic := msg;
         printed_rows := []; engine_calls := [] |}
  | Parsed args =>
      match main args w initial_state with
      | (Ok _, st) =>
          {| exit_status := 0; diagnostic := EmptyString;
             printed_rows := shown st; engine_calls := trace st |}
      | (Raise e, st) =>
          {| exit_status := 1; diagnostic := traceback e;
             printed_rows := shown st; engine_calls := trace st |}
      end
  end.

(** ** Vocabulary of the statements *)

Global Instance DataFrameReader_eq_dec : EqDecision DataFrameReader.
Proof. solve_decision. Defined.

Global Instance DataFrame_eq_dec : EqDecision DataFrame.
Proof. solve_decision. Defined.

(** A data source of the configuration, as [register_views] reads it: the
    view name it derives, the reader it builds and the path it loads. *)
Definition Source : Type := string * DataFrameReader * option string.

Definition source_name (s : Source) : string := s.1.1.

Definition source_frame (s : Source) : DataFrame :=
  {| df_reader := s.1.2; df_path := s.2 |}.

(** The reader that the first loop of [register_views] builds for [table]:
    the format, the table, and the hint when the record format is true. *)
Definition bigquery_reader (spark : SparkSession) (table : string)
    (bigquery_record_format : option string) : DataFrameReader :=
  let reader := reader_option "table" table (read_format spark "bigquery") in
  match bigquery_record_format with
  | Some fmt =>
      if PyStr.truthy bigquery_record_format
      then reader_option "readDataFormat" fmt reader
      else reader
  | None => reader
  end.

Definition table_source (spark : SparkSession) (fmt : option string)
    (table : string) : Source :=
  (table_view_name table, bigquery_reader spark table fmt, None).

Definition dir_source (spark : SparkSession) (hcfs_dir : string) : Source :=
  (dir_view_name hcfs_dir, read_format spark "parquet", Some hcfs_dir).

(** The sources in the order of the configuration: the remote tables, then
    the directories. *)
Definition sources (spark : SparkSession) (tables dirs : list string)
    (fmt : option string) : list Source :=
  (table_source spark fmt <$> tables) ++ (dir_source spark <$> dirs).

Definition available (w : World) (s : Source) : Prop :=
  source_available w s.1.2 s.2 = true.

Definition load_event (s : Source) : Event := Load s.1.2 s.2.

Definition bind_event (b : string * DataFrame) : Event :=
  CreateTempView b.1 b.2.


(** One store into the staging dictionary. *)
Definition stage_step (d : list (string * DataFrame)) (s : Source)
  : list (string * DataFrame) :=
  PyDict.set (source_name s) (source_frame s) d.

Definition entry (s : Source) : string * DataFrame :=
  (source_name s, source_frame s).

(** The staging dictionary after the two loading loops. *)
Definition staged (srcs : list Source) : list (string * DataFrame) :=
  foldl stage_step [] srcs.

(** One turn of a loading loop, on a source. *)
Definition stage (s : Source) (temp_dfs : list (string * DataFrame))
  : M (list (string * DataFrame)) :=
  let* df := reader_load s.1.2 s.2 in
  ret (PyDict.set (source_name s) df temp_dfs).

Definition bind_view (b : string * DataFrame) : M unit :=
  let '(name, df) := b in createTempView df name.

(** The views of a session that held [views] after the registration of
    the entries [d], in their order, each under its stored name. *)
Definition registered (w : World) (d : list (string * DataFrame))
    (views : gmap string DataFrame) : gmap string DataFrame :=
  foldl (λ m b, match view_key w b.1 with
                | Some key => <[key := b.2]> m
                | None => m
                end) views d.

(** The engine registers the entries [d] one after the other in a session
    that holds [views]: each name has a stored name, under which no view is
    bound when its turn comes. *)
Fixpoint accepted (w : World) (views : gmap string DataFrame)
    (d : list (string * DataFrame)) : Prop :=
  match d with
  | [] => True
  | b :: d' =>
      ∃ key, view_key w b.1 = Some key ∧ views !! key = None ∧
             accepted w (<[key := b.2]> views) d'
  end.

(** The engine accepts the view names [names] in a session that holds
    [views]: it refuses none of them, no view is bound under the stored
    name of any, and names that differ are stored under names that
    differ. *)
Definition names_accepted (w : World) (views : gmap string DataFrame)
    (names : list string) : Prop :=
  (∀ n, n ∈ names → ∃ key, view_key w n = Some key ∧ views !! key = None) ∧
  (∀ n1 n2, n1 ∈ names → n2 ∈ names →
     view_key w n1 = view_key w n2 → n1 = n2).

(** The registration of [b] fails with [e] in a session that holds
    [views]: the engine refuses the name, or a view is bound under its
    stored name. *)
Definition refused (w : World) (views : gmap string DataFrame)
    (b : string * DataFrame) (e : Exn) : Prop :=
  (view_key w b.1 = None ∧ e = InvalidViewName b.1) ∨
  (∃ key, view_key w b.1 = Some key ∧ is_Some (views !! key) ∧
          e = TempViewAlreadyExists b.1).

(** The names of [names] without repetition, each at its first place. *)
Definition first_occurrences (names : list string) : list string :=
  foldl (λ acc k, if bool_decide (k ∈ acc) then acc else acc ++ [k]) [] names.

(** The last source of [srcs] that derives [name]. *)
Fixpoint last_source (name : string) (srcs : list Source) : option Source :=
  match srcs with
  | [] => None
  | s :: rest =>
      match last_source name rest with
      | Some s' => Some s'
      | None => if String.eqb (source_name s) name then Some s else None
      end
  end.

(** The views registered, in the order of the calls of [createTempView]. *)
Definition registrations (evs : list Event) : list (string * DataFrame) :=
  omap (λ e, match e with
             | CreateTempView name df => Some (name, df)
             | _ => None
             end) evs.

(** The values of [n] in the calls of [show]. *)
Definition show_limits (evs : list Event) : list Z :=
  omap (λ e, match e with Show n => Some n | _ => None end) evs.

(** The record-format hint is among the options of a reader. *)
Definition hint_applied (reader : DataFrameReader) : Prop :=
  ∃ fmt, ("readDataFormat", fmt) ∈ reader_options reader.

(** An argument vector supplies an option when one of its strings before the
    terminator [--] is read as that option. *)
Fixpoint supplies (a : Action) (argv : list string) : bool :=
  match argv with
  | [] => false
  | arg :: rest =>
      if String.eqb arg "--" then false
      else
        match parse_optional arg with
        | IsOptional (Some a') _ _ => bool_decide (a' = a) || supplies a rest
        | _ => supplies a rest
        end
  end.

(** The configuration with another record-format value. *)
Definition with_record_format (fmt : option string) (args : Args) : Args :=
  {| sql_script := sql_script args;
     bigquery_tables := bigquery_tables args;
     bigquery_record_format := fmt;
     hcfs_dirs := hcfs_dirs args |}.

(** A string that the parser reads as a plain argument. *)
Definition plain (s : string) : Prop :=
  parse_optional s = IsPositional ∧ s ≠ "--".

(** The call that raised [e] is the call [ev]. *)
Definition failing_call (e : Exn) (ev : Event) : Prop :=
  match e, ev with
  | LoadError reader path, Load reader' path' => reader = reader' ∧ path = path'
  | InvalidViewName name, CreateTempView name' _ => name = name'
  | TempViewAlreadyExists name, CreateTempView name' _ => name = name'
  | IOError path, OpenFile path' => path = path'
  | SqlAnalysisError text, Sql text' => text = text'
  | SqlExecutionError _, Show _ => True
  | _, _ => False
  end.

(** The view names of the examples: a name of letters, digits and
    underscores that starts with a letter or an underscore is stored in
    lower case, as a session does that is not case sensitive; the worlds of
    the examples refuse every other name. *)
Definition is_letter (c : ascii) : bool :=
  ((65 <=? nat_of_ascii c)%nat && (nat_of_ascii c <=? 90)%nat) ||
  ((97 <=? nat_of_ascii c)%nat && (nat_of_ascii c <=? 122)%nat).

Definition lower (c : ascii) : ascii :=
  if (65 <=? nat_of_ascii c)%nat && (nat_of_ascii c <=? 90)%nat
  then ascii_of_nat (nat_of_ascii c + 32) else c.

Fixpoint lower_case (s : string) : string :=
  match s with
  | EmptyString => EmptyString
  | String c s' => String (lower c) (lower_case s')
  end.

Fixpoint name_chars (s : string) : bool :=
  match s with
  | EmptyString => true
  | String c s' =>
      (is_letter c || is_digit c || Ascii.eqb c "_") && name_chars s'
  end.

Definition plain_view_key (name : string) : option string :=
  match name with
  | EmptyString => None
  | String c _ =>
      if (is_letter c || Ascii.eqb c "_") && name_chars name
      then Some (lower_case name) else None
  end.

(** A world for the examples: every file holds [text], every source loads,
    and every query returns [rows]. *)
Definition world_with_rows (text : string) (rows : list Row) : World :=
  {| file_contents := λ _, Some text;
     source_available := λ _ _, true;
     view_key := plain_view_key;
     query_result := λ _ sql, Some {| rs_sql := sql; rs_rows := Some rows |} |}.

(** A world for the examples with one table: every file holds the query
    [SELECT * FROM name], every source loads, and the query returns [rows]
    when a view is bound under [name]; the engine cannot analyse it
    otherwise, nor any other query. *)
Definition world_with_table (name : string) (rows : list Row) : World :=
  {| file_contents := λ _, Some ("SELECT * FROM " +:+ name);
     source_available := λ _ _, true;
     view_key := plain_view_key;
     query_result := λ views sql,
       if String.eqb sql ("SELECT * FROM " +:+ name) then
         match views !! name with
         | Some _ => Some {| rs_sql := sql; rs_rows := Some rows |}
         | None => None
         end
       else None |}.

(** The configuration of the command line
    [q.sql --hcfs-dirs /data/t]. *)
Definition query_over_directory : Args :=
  {| sql_script := "q.sql"; bigquery_tables := [];
     bigquery_record_format := None; hcfs_dirs := ["/data/t"] |}.

(** Fifty rows, more than the twenty that [show()] prints by default. *)
Definition fifty_rows : list Row :=
  (λ i : nat, [String (ascii_of_nat (48 + i / 10))
                 (String (ascii_of_nat (48 + i mod 10)) EmptyString)])
    <$> seq 0 50.

(** A configuration with a query file and no data source. *)
Definition query_only : Args :=
  {| sql_script := "q.sql"; bigquery_tables := [];
     bigquery_record_format := None; hcfs_dirs := [] |}.

(** A world whose files cannot be read. *)
Definition world_without_files : World :=
  {| file_contents := λ _, None;
     source_available := λ _ _, true;
     view_key := plain_view_key;
     query_result := λ _ sql, Some {| rs_sql := sql; rs_rows := Some [] |} |}.

(** The options that the record-format hint adds to a reader: one when the
    value is a string that is not empty, none otherwise. *)
Definition hint_options (fmt : option string) : list (string * string) :=
  match fmt with
  | Some (String c s) => [("readDataFormat", String c s)]
  | _ => []
  end.

(** What holds of the parser's state all along: a list of data sources that
    is not empty was stored by its option, and the two options of the
    mutually exclusive group are never both seen. *)
Definition pstate_ok (st : PState) : Prop :=
  (p_bigquery_tables st ≠ [] → BigqueryTables ∈ seen st) ∧
  (p_hcfs_dirs st ≠ [] → HcfsDirs ∈ seen st) ∧
  ¬ (BigqueryTables ∈ seen st ∧ HcfsDirs ∈ seen st).

(** The option strings read as the option [a] among classified strings. *)
Definition has_option (a : Action) (toks : list Tok) : Prop :=
  ∃ arg option_string explicit_arg,
    TokO arg (Some a) option_string explicit_arg ∈ toks.

(** What a run of the parser's loop from the state [st] over the classified
    strings [toks] guarantees. A run that goes through has seen the options
    of [toks], and nothing but them, the positional and what [st] had seen; a
    run that exits does so with the status 2 of an error, or with the status
    0 of a help option of [toks]. *)
Definition parse_post (st : PState) (toks : list Tok) (res : Step) : Prop :=
  match res with
  | Continue st' =>
      pstate_ok st' ∧
      (∀ a, a ∈ seen st → a ∈ seen st') ∧
      (∀ a, has_option a toks → a ∈ seen st') ∧
      (∀ a, a ∈ seen st' → a ∈ seen st ∨ a = SqlScript ∨ has_option a toks)
  | Exit status msg =>
      status = 2%Z ∨ (status = 0%Z ∧ msg = help_text ∧ has_option Help toks)
  end.

(** Two states of the parser that differ at most by a record-format option
    that the second has seen before: it has stored [f0] for it, unless a
    later occurrence of the option has stored another value in both. *)
Definition same_but_format (f0 : option string) (st1 st2 : PState) : Prop :=
  p_sql_script st2 = p_sql_script st1 ∧
  p_bigquery_tables st2 = p_bigquery_tables st1 ∧
  p_hcfs_dirs st2 = p_hcfs_dirs st1 ∧
  extras st2 = extras st1 ∧
  (∀ a, a ≠ BigqueryRecordFormat → a ∈ seen st2 ↔ a ∈ seen st1) ∧
  (p_bigquery_record_format st2 = p_bigquery_record_format st1 ∨
   (p_bigquery_record_format st1 = None ∧ p_bigquery_record_format st2 = f0)).

Definition same_step (f0 : option string) (r1 r2 : Step) : Prop :=
  match r1, r2 with
  | Continue st1, Continue st2 => same_but_format f0 st1 st2
  | Exit status1 msg1, Exit status2 msg2 => status1 = status2 ∧ msg1 = msg2
  | _, _ => False
  end.

(** The value that an option written [--option=value] stores. *)
Definition explicit_value (value : string) : option string :=
  head (remove_dashes [value]).

(** ** Vocabulary of the further properties *)

(** [sep.join(pieces)] for a separator of one character. *)
Definition join_with (sep : ascii) (pieces : list string) : string :=
  String.concat (String sep EmptyString) pieces.

(** The strings without the separator. *)
Definition sep_free (sep : ascii) (s : string) : Prop :=
  PyStr.contains sep s = false.

(** The strings of an argument vector before the terminator [--]: the ones
    that the parser may read as options. *)
Fixpoint before_terminator (argv : list string) : list string :=
  match argv with
  | [] => []
  | arg :: rest =>
      if String.eqb arg "--" then [] else arg :: before_terminator rest
  end.

(** The classified strings hold no option whose action is the positional. *)
Definition options_only (toks : list Tok) : Prop :=
  ∀ arg a os ea, TokO arg (Some a) os ea ∈ toks → a ≠ SqlScript.

(** What a run of the parser's loop that goes through keeps of the state it
    starts from: the query file is the one it had or a plain argument, the
    value of an option changes only if the option occurs, the strings that
    no action takes are kept and the unknown options are among them, and no
    help action is taken. *)
Definition parse_keeps (st : PState) (toks : list Tok) (st' : PState) : Prop :=
  (∀ s, p_sql_script st' = Some s → p_sql_script st = Some s ∨ TokA s ∈ toks) ∧
  (p_bigquery_tables st' = p_bigquery_tables st ∨
   has_option BigqueryTables toks) ∧
  (p_bigquery_record_format st' = p_bigquery_record_format st ∨
   has_option BigqueryRecordFormat toks) ∧
  (p_hcfs_dirs st' = p_hcfs_dirs st ∨ has_option HcfsDirs toks) ∧
  (∀ e, e ∈ extras st → e ∈ extras st') ∧
  (∀ arg os ea, TokO arg None os ea ∈ toks → arg ∈ extras st') ∧
  (Help ∈ seen st' → Help ∈ seen st).

(** The prefixes of a string, from the empty one to the string itself. *)
Fixpoint prefixes (s : string) : list string :=
  match s with
  | EmptyString => [EmptyString]
  | String c s' => EmptyString :: (String c <$> prefixes s')
  end.

(** The configuration of a command line that gives the query file [script]
    and the one option [a] with the value [value]. *)
Definition with_option (a : Action) (value script : string) : Args :=
  {| sql_script := script;
     bigquery_tables :=
       match a with BigqueryTables => comma_separated_list value | _ => [] end;
     bigquery_record_format :=
       match a with BigqueryRecordFormat => Some value | _ => None end;
     hcfs_dirs :=
       match a with HcfsDirs => comma_separated_list value | _ => [] end |}.

(** The options that take a value, each with its option string and with its
    shortest abbreviation that fits no other option. *)
Definition value_options : list (Action * string * string) :=
  [ (BigqueryTables, "--bigquery-tables", "--bigquery-t");
    (BigqueryRecordFormat, "--bigquery-record-format", "--bigquery-r");
    (HcfsDirs, "--hcfs-dirs", "--hc") ].

Global Instance available_dec w s : Decision (available w s).
Proof. unfold available. apply _. Defined.

(** A world in which every source can be read but the one with the path
    [missing]. *)
Definition world_without_source (missing : string) : World :=
  {| file_contents := λ _, Some "SELECT 1";
     source_available := λ _ path, negb (bool_decide (path = Some missing));
     view_key := plain_view_key;
     query_result := λ _ sql, Some {| rs_sql := sql; rs_rows := Some [] |} |}.

(** A session in which the name [name] is bound to [df]. *)
Definition session_with_view (name : string) (df : DataFrame) : State :=
  {| temp_views := {[ name := df ]}; trace := []; shown := [] |}.

(** The loads, in the order of the calls of [load]. *)
Definition loads (evs : list Event) : list (DataFrameReader * option string) :=
  omap (λ e, match e with
             | Load reader path => Some (reader, path)
             | _ => None
             end) evs.

(** The calls of a run of [main] that nothing stops, in order: the session,
    the loads of the sources, the registrations of the staged views, the
    query file, the query with the text of the file, the display. *)
Definition call_sequence (w : World) (args : Args) : list Event :=
  let srcs := sources Session (bigquery_tables args) (hcfs_dirs args)
                (bigquery_record_format args) in
  GetOrCreate "Spark SQL Query"
    :: (load_event <$> srcs) ++ (bind_event <$> staged srcs)
    ++ OpenFile (sql_script args)
    :: match file_contents w (sql_script args) with
       | Some text => [Sql text; Show Integer_MAX_VALUE]
       | None => []
       end.

(** The loads and the registrations of a configuration of which every
    source is loaded and every staged view registered. *)
Definition loads_and_views (args : Args) : list Event :=
  let srcs := sources Session (bigquery_tables args) (hcfs_dirs args)
                (bigquery_record_format args) in
  (load_event <$> srcs) ++ (bind_event <$> staged srcs).

(** ** Command lines made of items

    One item of a command line: the query file, an option that takes a
    value with the value in the next string, or an option written
    [--option=value]. *)
Inductive Item :=
| ItScript (script : string)
| ItOption (a : Action) (arg value : string)
| ItExplicit (a : Action) (long value : string).

Definition item_strings (it : Item) : list string :=
  match it with
  | ItScript script => [script]
  | ItOption _ arg value => [arg; value]
  | ItExplicit _ long value => [long +:+ "=" +:+ value]
  end.

Definition command_line (items : list Item) : list string :=
  flat_map item_strings items.

(** The items that are well formed: a query file and a value in a string of
    their own are plain arguments; the string of an option is the option
    string of one of the three options that take a value or one of its
    abbreviations that fit no other option; the value after [=] is any
    string but [--]. *)
Definition item_ok (it : Item) : Prop :=
  match it with
  | ItScript script => plain script
  | ItOption a arg value =>
      plain value ∧
      ∃ long short, (a, long, short) ∈ value_options ∧
                    String.prefix short arg = true ∧
                    String.prefix arg long = true
  | ItExplicit a long value =>
      value ≠ "--" ∧ ∃ short, (a, long, short) ∈ value_options
  end.

Definition item_action (it : Item) : Action :=
  match it with
  | ItScript _ => SqlScript
  | ItOption a _ _ | ItExplicit a _ _ => a
  end.

Definition item_value (it : Item) : string :=
  match it with
  | ItScript script => script
  | ItOption _ _ value | ItExplicit _ _ value => value
  end.

(** The value of the last item of [items] for the action [a]. *)
Fixpoint last_value (a : Action) (items : list Item) : option string :=
  match items with
  | [] => None
  | it :: rest =>
      match last_value a rest with
      | Some v => Some v
      | None => if bool_decide (item_action it = a)
                then Some (item_value it) else None
      end
  end.

(** The query files of [items], in their order. *)
Definition scripts (items : list Item) : list string :=
  omap (λ it, match it with ItScript script => Some script | _ => None end)
    items.

(** The list that a list option stores for its last value, its default
    without one. *)
Definition list_value (value : option string) : list string :=
  match value with
  | Some v => comma_separated_list v
  | None => []
  end.

(** The configuration of a command line of items that the parser accepts:
    the query file, and for each option its last value. *)
Definition items_args (script : string) (items : list Item) : Args :=
  {| sql_script := script;
     bigquery_tables := list_value (last_value BigqueryTables items);
     bigquery_record_format := last_value BigqueryRecordFormat items;
     hcfs_dirs := list_value (last_value HcfsDirs items) |}.

(** The end of [parse_args] for a run of the parser's loop. *)
Definition finish (res : Step) : ParseResult :=
  match res with
  | Exit status msg => SystemExit status msg
  | Continue st =>
      match p_sql_script st with
      | None => SystemExit 2 "the following arguments are required: sql_script"
      | Some script =>
          match extras st with
          | [] =>
              Parsed {| sql_script := script;
                        bigquery_tables := p_bigquery_tables st;
                        bigquery_record_format := p_bigquery_record_format st;
                        hcfs_dirs := p_hcfs_dirs st |}
          | unrecognized =>
              SystemExit 2 ("unrecognized arguments: " +:+
                            String.concat " " unrecognized)
          end
      end
  end.

(** The items of [items] without those of the record-format option. *)
Definition without_record_format (items : list Item) : list Item :=
  filter (λ it, item_action it ≠ BigqueryRecordFormat) items.

(** What the parser does with one item, and with the items of a command
    line in their order. *)
Definition run_item (it : Item) (st : PState) : Step :=
  match it with
  | ItScript script =>
      if positional_pending st then take_action SqlScript [script] st
      else Continue (add_extra script st)
  | ItOption a _ value | ItExplicit a _ value => take_action a [value] st
  end.

Fixpoint run_items (items : list Item) (st : PState) : Step :=
  match items with
  | [] => Continue st
  | it :: rest =>
      match run_item it st with
      | Continue st' => run_items rest st'
      | Exit status msg => Exit status msg
      end
  end.

(** Two states of the parser that differ at most by the record-format
    option, seen or not, and by its value. *)
Definition same_but_rf (st1 st2 : PState) : Prop :=
  p_sql_script st1 = p_sql_script st2 ∧
  p_bigquery_tables st1 = p_bigquery_tables st2 ∧
  p_hcfs_dirs st1 = p_hcfs_dirs st2 ∧
  extras st1 = extras st2 ∧
  (∀ a, a ≠ BigqueryRecordFormat → a ∈ seen st1 ↔ a ∈ seen st2).

Definition same_step_rf (r1 r2 : Step) : Prop :=
  match r1, r2 with
  | Continue st1, Continue st2 => same_but_rf st1 st2
  | Exit status1 msg1, Exit status2 msg2 => status1 = status2 ∧ msg1 = msg2
  | _, _ => False
  end.

(** Two ends of the parser that differ at most by the record format of the
    configuration. *)
Definition same_but_record_format (r1 r2 : ParseResult) : Prop :=
  match r1, r2 with
  | Parsed args1, Parsed args2 =>
      ∃ fmt, args2 = with_record_format fmt args1
  | SystemExit status1 msg1, SystemExit status2 msg2 =>
      status1 = status2 ∧ msg1 = msg2
  | _, _ => False
  end.
Section split_facts.
Variable sep : ascii.

Lemma split_nonempty s : PyStr.split sep s ≠ [].
Proof.
  destruct s as [|c s]; simpl; [done|].
  destruct (Ascii.eqb c sep); [done|].
  by destruct (PyStr.split sep s).
Qed.

Lemma last_item_cons w ws :
  ws ≠ [] → PyStr.last_item (w :: ws) = PyStr.last_item ws.
Proof. by destruct ws. Qed.

Lemma last_item_head c w ws :
  PyStr.last_item (String c w :: ws) =
  match ws with
  | [] => String c (PyStr.last_item (w :: ws))
  | _ => PyStr.last_item (w :: ws)
  end.
Proof. by destruct ws. Qed.

Lemma last_split_no_sep s :
  PyStr.contains sep (PyStr.last_item (PyStr.split sep s)) = false.
Proof.
  induction s as [|c s IH]; simpl; [done|].
  destruct (Ascii.eqb c sep) eqn:Hc.
  - rewrite last_item_cons; [done | apply split_nonempty].
  - pose proof (split_nonempty s) as Hne.
    destruct (PyStr.split sep s) as [|w ws]; [done|].
    rewrite last_item_head. destruct ws as [|w' ws]; [|done].
    simpl. rewrite Hc. exact IH.
Qed.

Lemma split_last_spec s :
  match PyStr.split sep s with
  | [] => False
  | [w] => s = w
  | _ :: ws => ∃ front, s = front +:+ String sep (PyStr.last_item ws)
  end.
Proof.
  induction s as [|c s IH]; simpl; [done|].
  pose proof (split_nonempty s) as Hne.
  destruct (Ascii.eqb c sep) eqn:Hc.
  - apply Ascii.eqb_eq in Hc as ->.
    destruct (PyStr.split sep s) as [|w [|w' ws]]; [done| |].
    + exists EmptyString. rewrite IH. reflexivity.
    + destruct IH as [front IH]. exists (String sep front).
      rewrite last_item_cons; [|done]. rewrite IH at 1. done.
  - destruct (PyStr.split sep s) as [|w [|w' ws]]; [done| |].
    + by rewrite IH.
    + destruct IH as [front IH]. exists (String c front).
      rewrite IH at 1. done.
Qed.

Lemma last_split_suffix s :
  let name := PyStr.last_item (PyStr.split sep s) in
  s = name ∨ ∃ front, s = front +:+ String sep name.
Proof.
  simpl. pose proof (split_last_spec s) as H.
  destruct (PyStr.split sep s) as [|w [|w' ws]]; [done| |].
  - by left.
  - right. by rewrite last_item_cons.
Qed.

End split_facts.

(** ** Facts on dictionaries *)

Section dict_facts.
Context {V : Type}.
Implicit Types (d : list (string * V)) (k : string) (v : V).

Lemma dict_get_set_eq k v d : PyDict.get k (PyDict.set k v d) = Some v.
Proof.
  induction d as [|[k' v'] d IH]; simpl.
  - by rewrite String.eqb_refl.
  - destruct (String.eqb k' k) eqn:E; simpl.
    + by rewrite String.eqb_refl.
    + by rewrite E.
Qed.

Lemma dict_get_set_ne k k' v d :
  k ≠ k' → PyDict.get k' (PyDict.set k v d) = PyDict.get k' d.
Proof.
  intros Hne. pose proof Hne as Hb. apply String.eqb_neq in Hb.
  induction d as [|[k0 v0] d IH]; simpl.
  - by rewrite Hb.
  - destruct (String.eqb k0 k) eqn:E; simpl.
    + apply String.eqb_eq in E as ->. by rewrite Hb.
    + by rewrite IH.
Qed.

Lemma dict_get_None k d : PyDict.get k d = None ↔ k ∉ d.*1.
Proof.
  induction d as [|[k' v'] d IH]; simpl.
  - split; [intros _; apply not_elem_of_nil | done].
  - rewrite not_elem_of_cons. destruct (String.eqb k' k) eqn:E.
    + apply String.eqb_eq in E as ->. split; [done | by intros [? _]].
    + apply String.eqb_neq in E. rewrite IH.
      split; [intros ?; split; [congruence | done] | by intros [_ ?]].
Qed.

Lemma dict_elem_get k v d : NoDup d.*1 → (k, v) ∈ d → PyDict.get k d = Some v.
Proof.
  induction d as [|[k' v'] d IH]; simpl; [by intros _ ?%elem_of_nil|].
  intros [Hk Hd]%NoDup_cons [Heq|Hin]%elem_of_cons.
  - injection Heq as -> ->. by rewrite String.eqb_refl.
  - destruct (String.eqb k' k) eqn:E; [|by apply IH].
    apply String.eqb_eq in E as ->. destruct Hk.
    apply list_elem_of_fmap. by exists (k, v).
Qed.

Lemma dict_get_elem k v d : PyDict.get k d = Some v → (k, v) ∈ d.
Proof.
  induction d as [|[k' v'] d IH]; simpl; [done|].
  destruct (String.eqb k' k) eqn:E.
  - apply String.eqb_eq in E as ->. intros [= ->]. left.
  - intros H. right. by apply IH.
Qed.

Lemma dict_set_fresh k v d : k ∉ d.*1 → PyDict.set k v d = d ++ [(k, v)].
Proof.
  induction d as [|[k' v'] d IH]; simpl; [done|].
  intros [Hne Hd]%not_elem_of_cons.
  assert (String.eqb k' k = false) as -> by (apply String.eqb_neq; congruence).
  by rewrite IH.
Qed.

Lemma dict_keys_set k v d :
  (PyDict.set k v d).*1 = if bool_decide (k ∈ d.*1) then d.*1 else d.*1 ++ [k].
Proof.
  induction d as [|[k' v'] d IH].
  - destruct (bool_decide_reflect (k ∈ (@nil (string * V)).*1)) as [H|H];
      [by apply elem_of_nil in H | done].
  - cbn [PyDict.set fmap list_fmap fst].
    destruct (String.eqb k' k) eqn:E.
    + apply String.eqb_eq in E as ->.
      rewrite bool_decide_eq_true_2; [done | left].
    + apply String.eqb_neq in E. cbn [fmap list_fmap fst]. rewrite IH.
      destruct (bool_decide (k ∈ d.*1)) eqn:B.
      * apply bool_decide_eq_true in B.
        rewrite bool_decide_eq_true_2; [done | by right].
      * apply bool_decide_eq_false in B.
        rewrite bool_decide_eq_false_2; [done|].
        rewrite not_elem_of_cons. split; congruence.
Qed.

Lemma dict_set_NoDup k v d : NoDup d.*1 → NoDup (PyDict.set k v d).*1.
Proof.
  intros Hd. rewrite dict_keys_set. case_bool_decide; [done|].
  apply NoDup_app. split_and!; [done | | apply NoDup_singleton].
  intros x Hx ->%list_elem_of_singleton. done.
Qed.

End dict_facts.

(** ** Facts on the staging dictionary *)

Lemma stage_fold_NoDup srcs acc :
  NoDup acc.*1 → NoDup (foldl stage_step acc srcs).*1.
Proof.
  revert acc. induction srcs as [|s srcs IH]; intros acc Hacc; simpl; [done|].
  apply IH. by apply dict_set_NoDup.
Qed.

Lemma staged_NoDup srcs : NoDup (staged srcs).*1.
Proof. apply stage_fold_NoDup. constructor. Qed.

Lemma stage_fold_keys srcs acc :
  (foldl stage_step acc srcs).*1 =
  foldl (λ acc k, if bool_decide (k ∈ acc) then acc else acc ++ [k])
    acc.*1 (source_name <$> srcs).
Proof.
  revert acc. induction srcs as [|s srcs IH]; intros acc; simpl; [done|].
  rewrite IH. f_equal. unfold stage_step. apply dict_keys_set.
Qed.

Lemma staged_keys srcs :
  (staged srcs).*1 = first_occurrences (source_name <$> srcs).
Proof. apply (stage_fold_keys srcs []). Qed.

Lemma stage_fold_keys_subset srcs acc k :
  k ∈ (foldl stage_step acc srcs).*1 ↔ k ∈ acc.*1 ∨ k ∈ source_name <$> srcs.
Proof.
  revert acc. induction srcs as [|s srcs IH]; intros acc; simpl.
  - rewrite elem_of_nil. naive_solver.
  - rewrite IH. unfold stage_step. rewrite dict_keys_set.
    rewrite elem_of_cons. case_bool_decide as Hin.
    + split; [naive_solver|]. intros [?|[->|?]]; auto.
    + rewrite elem_of_app, list_elem_of_singleton. naive_solver.
Qed.

Lemma staged_keys_elem srcs k :
  k ∈ (staged srcs).*1 ↔ k ∈ source_name <$> srcs.
Proof.
  unfold staged. change (foldl _ [] srcs) with (foldl stage_step [] srcs).
  rewrite stage_fold_keys_subset. simpl. rewrite elem_of_nil. naive_solver.
Qed.

Lemma stage_fold_get srcs acc name :
  PyDict.get name (foldl stage_step acc srcs) =
  match last_source name srcs with
  | Some s => Some (source_frame s)
  | None => PyDict.get name acc
  end.
Proof.
  revert acc. induction srcs as [|s srcs IH]; intros acc; simpl; [done|].
  rewrite IH. destruct (last_source name srcs) as [s'|]; [done|].
  unfold stage_step. destruct (String.eqb (source_name s) name) eqn:E.
  - apply String.eqb_eq in E as <-. apply dict_get_set_eq.
  - apply String.eqb_neq in E. by apply dict_get_set_ne.
Qed.

Lemma staged_get srcs name :
  PyDict.get name (staged srcs) = source_frame <$> last_source name srcs.
Proof.
  unfold staged. change (foldl _ [] srcs) with (foldl stage_step [] srcs).
  rewrite stage_fold_get. by destruct (last_source name srcs).
Qed.

Lemma last_source_None name srcs :
  last_source name srcs = None ↔ name ∉ source_name <$> srcs.
Proof.
  induction srcs as [|s srcs IH]; simpl.
  - split; [intros _; apply not_elem_of_nil | done].
  - rewrite not_elem_of_cons.
    destruct (last_source name srcs) as [s'|].
    + split; [done|]. intros [_ H]. by apply IH in H.
    + destruct (String.eqb (source_name s) name) eqn:E.
      * apply String.eqb_eq in E. split; [done | naive_solver].
      * apply String.eqb_neq in E. split; [|done].
        intros _. split; [congruence | by apply IH].
Qed.

Lemma last_source_app before s later :
  source_name s ∉ source_name <$> later →
  last_source (source_name s) (before ++ s :: later) = Some s.
Proof.
  intros Hlater. induction before as [|b before IH]; simpl.
  - apply last_source_None in Hlater as ->. by rewrite String.eqb_refl.
  - by rewrite IH.
Qed.

Lemma stage_fold_distinct srcs acc :
  NoDup (acc.*1 ++ (source_name <$> srcs)) →
  foldl stage_step acc srcs = acc ++ (entry <$> srcs).
Proof.
  revert acc. induction srcs as [|s srcs IH]; intros acc Hnd; simpl.
  - by rewrite app_nil_r.
  - assert (source_name s ∉ acc.*1) as Hfresh.
    { apply NoDup_app in Hnd as (_ & Hdisj & _). intros Hin.
      apply (Hdisj _ Hin). left. }
    assert (stage_step acc s = acc ++ [entry s]) as ->
      by (by apply dict_set_fresh).
    rewrite IH.
    + by rewrite <-app_assoc.
    + rewrite fmap_app. simpl. rewrite <-app_assoc. exact Hnd.
Qed.

Lemma staged_distinct srcs :
  NoDup (source_name <$> srcs) → staged srcs = entry <$> srcs.
Proof. intros Hnd. by apply (stage_fold_distinct srcs []). Qed.

(** ** The loops of [register_views] *)

Lemma bind_run {A B} (m : M A) (k : A → M B) w st :
  bind m k w st =
  match m w st with
  | (Ok a, st') => k a w st'
  | (Raise e, st') => (Raise e, st')
  end.
Proof. reflexivity. Qed.

Lemma for_fold_app {A S} (xs ys : list A) (body : A → S → M S) acc w st :
  for_fold (xs ++ ys) body acc w st =
  bind (for_fold xs body acc) (for_fold ys body) w st.
Proof.
  revert acc st. induction xs as [|x xs IH]; intros acc st.
  - reflexivity.
  - cbn [app for_fold]. rewrite !bind_run.
    destruct (body x acc w st) as [[acc'|e] st1].
    + rewrite IH. by rewrite bind_run.
    + reflexivity.
Qed.

Lemma for_fold_fmap {A B S} (f : A → B) (xs : list A) (body : B → S → M S)
    (body' : A → S → M S) acc w st :
  (∀ x acc w st, body' x acc w st = body (f x) acc w st) →
  for_fold xs body' acc w st = for_fold (f <$> xs) body acc w st.
Proof.
  intros Hbody. revert acc st.
  induction xs as [|x xs IH]; intros acc st; [reflexivity|].
  cbn [fmap list_fmap for_fold]. rewrite !bind_run, Hbody.
  destruct (body (f x) acc w st) as [[acc'|e] st1]; [apply IH | reflexivity].
Qed.

Lemma register_views_stage spark tables dirs fmt w st :
  register_views spark tables dirs fmt w st =
  bind (for_fold (sources spark tables dirs fmt) stage []) (λ d, for_each d bind_view) w st.
Proof.
  unfold register_views, sources. rewrite !bind_run.
  rewrite for_fold_app, bind_run.
  rewrite (for_fold_fmap (table_source spark fmt) tables stage);
    [|reflexivity].
  destruct (for_fold (table_source spark fmt <$> tables) stage [] w st)
    as [[d1|e] st1]; [|reflexivity].
  rewrite bind_run.
  rewrite (for_fold_fmap (dir_source spark) dirs stage); [|reflexivity].
  destruct (for_fold (dir_source spark <$> dirs) stage d1 w st1)
    as [[d2|e] st2]; [|reflexivity].
  reflexivity.
Qed.

Lemma stage_loop_spec w srcs acc st r st' :
  for_fold srcs stage acc w st = (r, st') →
  temp_views st' = temp_views st ∧ shown st' = shown st ∧
  match r with
  | Ok d =>
      trace st' = trace st ++ (load_event <$> srcs) ∧
      d = foldl stage_step acc srcs ∧
      Forall (available w) srcs
  | Raise e =>
      ∃ pre s post,
        srcs = pre ++ s :: post ∧
        trace st' = trace st ++ (load_event <$> pre ++ [s]) ∧
        Forall (available w) pre ∧ ¬ available w s ∧
        e = LoadError s.1.2 s.2
  end.
Proof.
  revert acc st. induction srcs as [|s srcs IH]; intros acc st; simpl.
  - intros [= <- <-]. by rewrite app_nil_r.
  - unfold bind, stage at 1, bind, reader_load, ret.
    destruct (source_available w s.1.2 s.2) eqn:Hs.
    + intros Hrun. apply IH in Hrun as (Hv & Hsh & Hr).
      simpl in Hv, Hsh. split_and!; [done..|].
      destruct r as [d|e].
      * destruct Hr as (Htr & -> & Hall). simpl in Htr.
        split_and!; [by rewrite Htr, <-app_assoc | done | by constructor].
      * destruct Hr as (pre & s' & post & -> & Htr & Hpre & Hs' & ->).
        exists (s :: pre), s', post. simpl in Htr.
        split_and!; [done | by rewrite Htr, <-app_assoc | by constructor
                    | done | done].
    + intros [= <- <-]. simpl. split_and!; [done..|].
      exists [], s, srcs. split_and!; [done | done | constructor | | done].
      unfold available. by rewrite Hs.
Qed.

Lemma registered_cons w b d views key :
  view_key w b.1 = Some key →
  registered w (b :: d) views = registered w d (<[key := b.2]> views).
Proof. intros Hkey. unfold registered. simpl. by rewrite Hkey. Qed.

Lemma bind_loop_spec w d st r st' :
  for_each d bind_view w st = (r, st') →
  shown st' = shown st ∧
  match r with
  | Ok _ =>
      trace st' = trace st ++ (bind_event <$> d) ∧
      accepted w (temp_views st) d ∧
      temp_views st' = registered w d (temp_views st)
  | Raise e =>
      ∃ pre b post,
        d = pre ++ b :: post ∧
        trace st' = trace st ++ (bind_event <$> pre ++ [b]) ∧
        accepted w (temp_views st) pre ∧
        temp_views st' = registered w pre (temp_views st) ∧
        refused w (registered w pre (temp_views st)) b e
  end.
Proof.
  revert st. induction d as [|[name df] d IH]; intros st; cbn [for_each].
  - unfold ret. intros [= <- <-]. cbn [fmap list_fmap]. by rewrite app_nil_r.
  - unfold bind, bind_view at 1, createTempView.
    destruct (view_key w name) as [key|] eqn:Hkey.
    2: { intros [= <- <-]. split; [done|].
         exists [], (name, df), d. split_and!; try done. by left. }
    destruct (temp_views st !! key) as [old|] eqn:Hold.
    + intros [= <- <-]. split; [done|].
      exists [], (name, df), d. split_and!; try done.
      right. exists key. split_and!; [done | | done].
      change (registered w [] (temp_views st)) with (temp_views st).
      by rewrite Hold.
    + intros Hrun. apply IH in Hrun as (Hsh & Hr).
      cbn [shown log] in Hsh. split; [done|].
      destruct r as [[]|e].
      * destruct Hr as (Htr & Hacc & Hviews).
        cbn [trace temp_views log] in Htr, Hacc, Hviews.
        split_and!.
        -- rewrite Htr, <-app_assoc. reflexivity.
        -- by exists key.
        -- by rewrite (registered_cons w (name, df) d _ key Hkey).
      * destruct Hr as (pre & b & post & -> & Htr & Hacc & Hviews & Href).
        cbn [trace temp_views log] in Htr, Hacc, Hviews, Href.
        exists ((name, df) :: pre), b, post.
        assert (registered w ((name, df) :: pre) (temp_views st)
                = registered w pre (<[key:=df]> (temp_views st))) as Hreg.
        { by apply registered_cons. }
        split_and!.
        -- done.
        -- rewrite Htr, <-app_assoc. reflexivity.
        -- by exists key.
        -- by rewrite Hreg.
        -- by rewrite Hreg.
Qed.

(** The run of [register_views]: the loads, in the order of the sources and
    up to the first that fails, then the registrations of the staged views,
    in the order of the dictionary and up to the first that fails. *)
Lemma register_views_spec w st spark tables dirs fmt r st' :
  register_views spark tables dirs fmt w st = (r, st') →
  let srcs := sources spark tables dirs fmt in
  shown st' = shown st ∧
  match r with
  | Ok _ =>
      trace st' = trace st ++ (load_event <$> srcs)
                    ++ (bind_event <$> staged srcs) ∧
      Forall (available w) srcs ∧
      accepted w (temp_views st) (staged srcs) ∧
      temp_views st' = registered w (staged srcs) (temp_views st)
  | Raise e =>
      (∃ pre s post,
          srcs = pre ++ s :: post ∧
          trace st' = trace st ++ (load_event <$> pre ++ [s]) ∧
          Forall (available w) pre ∧ ¬ available w s ∧
          e = LoadError s.1.2 s.2 ∧
          temp_views st' = temp_views st) ∨
      (∃ pre b post,
          staged srcs = pre ++ b :: post ∧
          trace st' = trace st ++ (load_event <$> srcs)
                        ++ (bind_event <$> pre ++ [b]) ∧
          Forall (available w) srcs ∧
          accepted w (temp_views st) pre ∧
          temp_views st' = registered w pre (temp_views st) ∧
          refused w (registered w pre (temp_views st)) b e)
  end.
Proof.
  intros Hrun srcs. rewrite register_views_stage, bind_run in Hrun.
  fold srcs in Hrun.
  destruct (for_fold srcs stage [] w st) as [[d|e] st1] eqn:Hload.
  - apply stage_loop_spec in Hload as (Hv1 & Hsh1 & Htr1 & -> & Hav).
    change (foldl stage_step [] srcs) with (staged srcs) in Hrun.
    apply bind_loop_spec in Hrun as (Hsh & Hr).
    split; [congruence|]. destruct r as [[]|e].
    + destruct Hr as (Htr & Hacc & Hviews). rewrite Hv1 in Hacc, Hviews.
      split_and!; try done. by rewrite Htr, Htr1, <-app_assoc.
    + right. destruct Hr as (pre & b & post & Hd & Htr & Hacc & Hviews & Href).
      rewrite Hv1 in Hacc, Hviews, Href.
      exists pre, b, post. split_and!; try done.
      by rewrite Htr, Htr1, <-app_assoc.
  - injection Hrun as <- <-.
    apply stage_loop_spec in Hload
      as (Hv1 & Hsh1 & pre & s & post & Hs & Htr & Hpre & Hun & ->).
    split; [done|]. left. by exists pre, s, post.
Qed.

(** ** The views that the engine registers *)

Lemma registered_step w b d views :
  registered w (b :: d) views =
  registered w d match view_key w b.1 with
                 | Some key => <[key := b.2]> views
                 | None => views
                 end.
Proof. reflexivity. Qed.

Lemma registered_other w d views key :
  (∀ b, b ∈ d → view_key w b.1 ≠ Some key) →
  registered w d views !! key = views !! key.
Proof.
  revert views. induction d as [|b d IH]; intros views Hno; [done|].
  rewrite registered_step.
  rewrite IH by (intros b' Hb'; apply Hno; by right).
  destruct (view_key w b.1) as [k|] eqn:Hk; [|done].
  apply lookup_insert_ne. intros ->. by apply (Hno b); [left|].
Qed.

Lemma accepted_fresh w views d :
  accepted w views d →
  ∀ b, b ∈ d → ∃ key, view_key w b.1 = Some key ∧ views !! key = None.
Proof.
  revert views. induction d as [|b d IH]; intros views Hacc b' Hb'.
  { by apply elem_of_nil in Hb'. }
  destruct Hacc as (key & Hkey & Hfree & Hacc).
  apply elem_of_cons in Hb' as [->|Hb']; [by exists key|].
  destruct (IH _ Hacc b' Hb') as (k' & Hk' & Hfree').
  exists k'. split; [done|].
  destruct (decide (key = k')) as [->|Hne].
  - by rewrite lookup_insert_eq in Hfree'.
  - by rewrite lookup_insert_ne in Hfree'.
Qed.

Lemma accepted_lookup w views d :
  accepted w views d →
  ∀ b, b ∈ d →
    ∃ key, view_key w b.1 = Some key ∧
           registered w d views !! key = Some b.2.
Proof.
  revert views. induction d as [|b d IH]; intros views Hacc b' Hb'.
  { by apply elem_of_nil in Hb'. }
  destruct Hacc as (key & Hkey & Hfree & Hacc).
  rewrite (registered_cons w b d views key Hkey).
  apply elem_of_cons in Hb' as [->|Hb']; [|by apply IH].
  exists key. split; [done|]. rewrite registered_other.
  - apply lookup_insert_eq.
  - intros b' Hb' Hk'.
    destruct (accepted_fresh _ _ _ Hacc b' Hb') as (k' & Hk'' & Hfree').
    rewrite Hk' in Hk''. injection Hk'' as <-.
    by rewrite lookup_insert_eq in Hfree'.
Qed.

Lemma accepted_app w views d1 d2 :
  accepted w views (d1 ++ d2) ↔
  accepted w views d1 ∧ accepted w (registered w d1 views) d2.
Proof.
  revert views. induction d1 as [|b d1 IH]; intros views.
  - cbn [app accepted]. change (registered w [] views) with views. tauto.
  - cbn [app accepted]. split.
    + intros (key & Hkey & Hfree & Hacc). apply IH in Hacc as [H1 H2].
      rewrite (registered_cons w b d1 views key Hkey).
      split; [by exists key | done].
    + intros [(key & Hkey & Hfree & H1) H2].
      rewrite (registered_cons w b d1 views key Hkey) in H2.
      exists key. split_and!; [done | done |]. by apply IH.
Qed.

Lemma accepted_names w views d :
  NoDup d.*1 → accepted w views d ↔ names_accepted w views d.*1.
Proof.
  revert views. induction d as [|b d IH]; intros views Hnd.
  { split; [|done]. intros _. split.
    - by intros n ?%elem_of_nil.
    - by intros n1 n2 ?%elem_of_nil. }
  cbn [fmap list_fmap] in Hnd. apply NoDup_cons in Hnd as [Hb Hnd].
  cbn [accepted fmap list_fmap]. split.
  - intros (key & Hkey & Hfree & Hacc).
    pose proof (accepted_fresh _ _ _ Hacc) as Hd.
    assert (∀ n, n ∈ d.*1 →
              ∃ k, view_key w n = Some k ∧ k ≠ key ∧ views !! k = None)
      as Hrest.
    { intros n (b' & -> & Hb')%list_elem_of_fmap.
      destruct (Hd b' Hb') as (k & Hk & Hfree').
      exists k. split; [done|].
      destruct (decide (key = k)) as [->|Hne].
      - by rewrite lookup_insert_eq in Hfree'.
      - rewrite lookup_insert_ne in Hfree' by done. by split. }
    apply (IH _ Hnd) in Hacc as [_ Hinj].
    split.
    + intros n [->|Hn]%elem_of_cons; [by exists key|].
      destruct (Hrest n Hn) as (k & Hk & _ & Hfree'). by exists k.
    + intros n1 n2 [->|H1]%elem_of_cons [->|H2]%elem_of_cons Heq.
      * done.
      * destruct (Hrest n2 H2) as (k & Hk & Hne & _). congruence.
      * destruct (Hrest n1 H1) as (k & Hk & Hne & _). congruence.
      * by apply Hinj.
  - intros [Hall Hinj].
    destruct (Hall b.1) as (key & Hkey & Hfree); [left|].
    exists key. split_and!; [done | done |].
    apply (IH _ Hnd). split.
    + intros n Hn. destruct (Hall n) as (k & Hk & Hfree'); [by right|].
      exists k. split; [done|]. rewrite lookup_insert_ne; [done|].
      intros ->. apply Hb.
      rewrite (Hinj b.1 n); [done | left | by right | congruence].
    + intros n1 n2 H1 H2. apply Hinj; by right.
Qed.

Lemma staged_accepted w views srcs :
  accepted w views (staged srcs) ↔
  names_accepted w views (source_name <$> srcs).
Proof.
  rewrite (accepted_names _ _ _ (staged_NoDup srcs)).
  unfold names_accepted.
  assert (∀ n, n ∈ (staged srcs).*1 ↔ n ∈ source_name <$> srcs) as Hn
    by apply staged_keys_elem.
  split; intros [Hall Hinj]; split.
  - intros n Hin. apply Hall. by apply Hn.
  - intros n1 n2 H1 H2. apply Hinj; by apply Hn.
  - intros n Hin. apply Hall. by apply Hn.
  - intros n1 n2 H1 H2. apply Hinj; by apply Hn.
Qed.

(** ** The run of [main] *)

Lemma take_rows_all n rows :
  (Z.of_nat (length rows) ≤ n)%Z → take_rows n rows = rows.
Proof.
  revert n. induction rows as [|r rows IH]; intros n Hn; simpl; [done|].
  simpl in Hn. destruct (Z.leb_spec n 0) as [H0|H0]; [lia|].
  f_equal. apply IH. lia.
Qed.

Lemma take_rows_length n rows :
  (Z.of_nat (length (take_rows n rows)) ≤ Z.max 0 n)%Z.
Proof.
  revert n. induction rows as [|r rows IH]; intros n; simpl; [lia|].
  destruct (Z.leb_spec n 0) as [H0|H0]; simpl; [lia|].
  specialize (IH (n - 1)%Z). lia.
Qed.

Lemma show_cell_short truncate str :
  (String.length str ≤ truncate)%nat → show_cell truncate str = str.
Proof.
  intros Hlen. unfold show_cell.
  destruct (Nat.ltb_spec truncate (String.length str)); [lia|].
  by rewrite andb_false_r.
Qed.

(** The rows displayed are the rows of the result set, with their cells cut,
    as long as the result set has no more rows than the display takes. *)
Lemma show_rows_all n truncate rows :
  (Z.of_nat (length rows) ≤ n)%Z →
  (Z.of_nat (length rows) ≤ MAX_ROUNDED_ARRAY_LENGTH - 1)%Z →
  show_rows n truncate rows = map (map (show_cell truncate)) rows.
Proof.
  intros Hn Hmax. unfold show_rows. rewrite take_rows_all; [done|lia].
Qed.

Lemma show_rows_length n truncate rows :
  (Z.of_nat (length (show_rows n truncate rows))
   ≤ Z.min (Z.max n 0) (MAX_ROUNDED_ARRAY_LENGTH - 1))%Z.
Proof.
  unfold show_rows. rewrite length_map.
  pose proof (take_rows_length
                (Z.min (Z.max n 0) (MAX_ROUNDED_ARRAY_LENGTH - 1)) rows).
  unfold MAX_ROUNDED_ARRAY_LENGTH, Row in *. lia.
Qed.

Lemma show_rows_short n truncate rows :
  (Z.of_nat (length rows) ≤ n)%Z →
  (Z.of_nat (length rows) ≤ MAX_ROUNDED_ARRAY_LENGTH - 1)%Z →
  Forall (Forall (λ cell, (String.length cell ≤ truncate)%nat)) rows →
  show_rows n truncate rows = rows.
Proof.
  intros Hn Hmax Hcells. rewrite show_rows_all by done.
  induction Hcells as [|row rows Hrow _ IH]; [done|].
  cbn [map]. cbn [length] in Hn, Hmax. rewrite IH by lia. f_equal.
  induction Hrow as [|cell row Hcell _ IHrow]; [done|].
  cbn [map]. by rewrite IHrow, show_cell_short.
Qed.

(** What [main] does after the views are registered: the query file is read,
    the query is run and its rows are shown; each step runs only if the steps
    before it raised nothing, and an exception of a step is the result of
    [main]. *)
Lemma main_spec w args st r st' :
  main args w st = (r, st') →
  ∃ r1 st1,
    register_views Session (bigquery_tables args) (hcfs_dirs args)
      (bigquery_record_format args) w (log (GetOrCreate "Spark SQL Query") st)
      = (r1, st1) ∧
    match r1 with
    | Raise e => r = Raise e ∧ st' = st1
    | Ok _ =>
        temp_views st' = temp_views st1 ∧
        match file_contents w (sql_script args) with
        | None =>
            r = Raise (IOError (sql_script args)) ∧
            trace st' = trace st1 ++ [OpenFile (sql_script args)] ∧
            shown st' = shown st1
        | Some text =>
            match query_result w (temp_views st1) text with
            | None =>
                r = Raise (SqlAnalysisError text) ∧
                trace st' = trace st1 ++ [OpenFile (sql_script args); Sql text] ∧
                shown st' = shown st1
            | Some rs =>
                trace st' = trace st1 ++
                  [OpenFile (sql_script args); Sql text; Show Integer_MAX_VALUE] ∧
                match rs_rows rs with
                | None =>
                    r = Raise (SqlExecutionError (rs_sql rs)) ∧
                    shown st' = shown st1
                | Some rows =>
                    r = Ok tt ∧
                    shown st' = shown st1 ++ show_rows Integer_MAX_VALUE 20 rows
                end
            end
        end
    end.
Proof.
  unfold main. rewrite bind_run. unfold getOrCreate at 1.
  rewrite bind_run.
  destruct (register_views _ _ _ _ w _) as [[[]|e] st1] eqn:Hreg.
  - intros Hrun. exists (Ok tt), st1. split; [done|]. revert Hrun.
    cbv [bind logging_info ret open_read spark_sql show]. simpl.
    destruct (file_contents w (sql_script args)) as [text|]; simpl.
    + destruct (query_result w (temp_views st1) text) as [rs|]; simpl.
      * destruct (rs_rows rs) as [rows|]; simpl.
        -- intros [= <- <-]. simpl. by rewrite <-!app_assoc.
        -- intros [= <- <-]. simpl. by rewrite <-!app_assoc.
      * intros [= <- <-]. simpl. by rewrite <-!app_assoc.
    + by intros [= <- <-].
  - intros [= <- <-]. by exists (Raise e), st1.
Qed.

(** [register_views] prints nothing and calls neither [sql] nor [show]. *)
Lemma register_views_events w st spark tables dirs fmt r st' :
  register_views spark tables dirs fmt w st = (r, st') →
  ∃ loaded bound,
    trace st' = trace st ++ (load_event <$> loaded) ++ (bind_event <$> bound) ∧
    loaded `prefix_of` sources spark tables dirs fmt ∧
    bound `prefix_of` staged (sources spark tables dirs fmt) ∧
    (r = Ok tt →
       loaded = sources spark tables dirs fmt ∧
       bound = staged (sources spark tables dirs fmt)).
Proof.
  intros Hrun. apply register_views_spec in Hrun as (_ & Hr).
  destruct r as [[]|e].
  - destruct Hr as (Htr & _). eexists _, _. split_and!; done.
  - destruct Hr as [(pre & s & post & Hs & Htr & _)
                   |(pre & b & post & Hb & Htr & _)].
    + exists (pre ++ [s]), []. split_and!.
      * by rewrite Htr, app_nil_r.
      * rewrite Hs. exists post. by rewrite <-app_assoc.
      * apply prefix_nil.
      * done.
    + exists (sources spark tables dirs fmt), (pre ++ [b]). split_and!.
      * done.
      * done.
      * rewrite Hb. exists post. by rewrite <-app_assoc.
      * done.
Qed.

Lemma show_limits_app evs1 evs2 :
  show_limits (evs1 ++ evs2) = show_limits evs1 ++ show_limits evs2.
Proof. apply omap_app. Qed.

Lemma show_limits_loads (l : list Source) : show_limits (load_event <$> l) = [].
Proof. by induction l. Qed.

Lemma show_limits_binds (l : list (string * DataFrame)) :
  show_limits (bind_event <$> l) = [].
Proof. by induction l. Qed.

Lemma registrations_app evs1 evs2 :
  registrations (evs1 ++ evs2) = registrations evs1 ++ registrations evs2.
Proof. apply omap_app. Qed.

Lemma registrations_loads (l : list Source) :
  registrations (load_event <$> l) = [].
Proof. by induction l. Qed.

Lemma registrations_binds (l : list (string * DataFrame)) :
  registrations (bind_event <$> l) = l.
Proof. induction l as [|[n df] l IH]; simpl; [done|]. by f_equal. Qed.

(** The calls of a run of [main]: an initial segment of the sequence of the
    calls, whole when the run succeeds; a run that raises prints nothing. *)
Lemma main_events w args st r st' :
  main args w st = (r, st') →
  ∃ evs,
    trace st' = trace st ++ evs ∧
    evs `prefix_of` call_sequence w args ∧
    (r = Ok tt → evs = call_sequence w args) ∧
    (∃ rest, evs = GetOrCreate "Spark SQL Query" :: rest) ∧
    (∀ e, r = Raise e → shown st' = shown st).
Proof.
  intros Hrun. apply main_spec in Hrun as (r1 & st1 & Hreg & Hmain).
  apply register_views_spec in Hreg as (Hshown & Hreg).
  cbn [log trace shown] in Hshown, Hreg.
  unfold call_sequence.
  set (srcs := sources Session (bigquery_tables args) (hcfs_dirs args)
                 (bigquery_record_format args)) in *.
  set (G := GetOrCreate "Spark SQL Query").
  destruct r1 as [[]|e].
  - destruct Hreg as (Htr1 & _). destruct Hmain as (_ & Hmain).
    destruct (file_contents w (sql_script args)) as [text|].
    + destruct (query_result w (temp_views st1) text) as [rs|].
      * destruct Hmain as (Htr & Hmain).
        exists (G :: (load_event <$> srcs) ++ (bind_event <$> staged srcs)
                  ++ [OpenFile (sql_script args); Sql text;
                      Show Integer_MAX_VALUE]).
        split_and!; [ | done | done | by eexists | ].
        -- rewrite Htr, Htr1, <-!app_assoc. reflexivity.
        -- intros e ->. destruct (rs_rows rs); destruct Hmain as [? ?];
             congruence.
      * destruct Hmain as (-> & Htr & Hsh).
        exists (G :: (load_event <$> srcs) ++ (bind_event <$> staged srcs)
                  ++ [OpenFile (sql_script args); Sql text]).
        split_and!; [ | | done | by eexists | intros; congruence].
        -- rewrite Htr, Htr1, <-!app_assoc. reflexivity.
        -- exists [Show Integer_MAX_VALUE]. cbn [app].
           rewrite <-!app_assoc. reflexivity.
    + destruct Hmain as (-> & Htr & Hsh).
      exists (G :: (load_event <$> srcs) ++ (bind_event <$> staged srcs)
                ++ [OpenFile (sql_script args)]).
      split_and!; [ | done | done | by eexists | intros; congruence].
      rewrite Htr, Htr1, <-!app_assoc. reflexivity.
  - destruct Hmain as [-> ->].
    destruct Hreg as [(pre & s & post & Hs & Htr & _)
                     |(pre & b & post & Hb & Htr & _)].
    + exists (G :: (load_event <$> pre ++ [s])).
      split_and!; [ | | done | by eexists | by intros].
      * rewrite Htr, <-!app_assoc. reflexivity.
      * eexists ((load_event <$> post) ++ _). rewrite Hs.
        rewrite !fmap_app. cbn [app fmap list_fmap].
        rewrite <-!app_assoc. reflexivity.
    + exists (G :: (load_event <$> srcs) ++ (bind_event <$> pre ++ [b])).
      split_and!; [ | | done | by eexists | by intros].
      * rewrite Htr, <-!app_assoc. reflexivity.
      * eexists ((bind_event <$> post) ++ _). rewrite Hb.
        rewrite !fmap_app. cbn [app fmap list_fmap].
        rewrite <-!app_assoc. reflexivity.
Qed.

(** ** When [register_views] completes *)

Lemma accepted_not_refused w views pre b post e :
  accepted w views (pre ++ b :: post) →
  ¬ refused w (registered w pre views) b e.
Proof.
  intros [_ (key & Hkey & Hfree & _)]%accepted_app
         [[Hnone _]|(key' & Hkey' & [df Hsome] & _)].
  - congruence.
  - rewrite Hkey in Hkey'. injection Hkey' as <-. congruence.
Qed.

Lemma register_views_completes w st spark tables dirs fmt :
  Forall (available w) (sources spark tables dirs fmt) →
  accepted w (temp_views st) (staged (sources spark tables dirs fmt)) →
  ∃ st', register_views spark tables dirs fmt w st = (Ok tt, st').
Proof.
  intros Hall Hacc.
  destruct (register_views spark tables dirs fmt w st) as [r st'] eqn:Hrun.
  pose proof Hrun as Hspec. apply register_views_spec in Hspec as (_ & Hr).
  destruct r as [[]|e]; [by exists st'|]. exfalso.
  destruct Hr as [(pre & s & post & Hs & _ & _ & Hno & _)
                 |(pre & b & post & Hb & _ & _ & _ & _ & Href)].
  - apply Hno. rewrite Forall_forall in Hall. apply Hall.
    rewrite Hs. apply elem_of_app. right. left.
  - rewrite Hb in Hacc.
    by apply (accepted_not_refused _ _ _ _ _ e Hacc).
Qed.

(** The view of a source that no later source replaces. *)
Lemma staged_last_entry before s later :
  source_name s ∉ source_name <$> later →
  (source_name s, source_frame s) ∈ staged (before ++ s :: later).
Proof.
  intros Hlast. apply dict_get_elem.
  by rewrite staged_get, last_source_app.
Qed.

(** Why a view exists when [register_views] raises for one: its stored name
    is bound in the session, or is the stored name of another derived name;
    never because the name itself is derived more than once. *)
Lemma view_exists_cause w st spark tables dirs fmt name st' :
  register_views spark tables dirs fmt w st
  = (Raise (TempViewAlreadyExists name), st') →
  let names := source_name <$> sources spark tables dirs fmt in
  name ∈ names ∧
  ∃ key, view_key w name = Some key ∧
         (is_Some (temp_views st !! key) ∨
          ∃ other, other ∈ names ∧ other ≠ name ∧
                   view_key w other = Some key).
Proof.
  intros Hrun names. apply register_views_spec in Hrun as (_ & Hr).
  destruct Hr as [(? & ? & ? & _ & _ & _ & _ & ? & _)
                 |(pre & b & post & Hd & _ & _ & _ & _ & Href)]; [done|].
  destruct Href as [[_ ?]|(key & Hkey & Hsome & [= ->])]; [done|].
  split.
  { apply staged_keys_elem, list_elem_of_fmap.
    exists b. split; [done|]. rewrite Hd. apply elem_of_app. right. left. }
  exists key. split; [done|].
  destruct (decide (Exists (λ b', view_key w b'.1 = Some key) pre))
    as [Hex|Hno].
  - right. apply Exists_exists in Hex as (b' & Hb' & Hkey').
    exists b'.1. split_and!; [| |done].
    + apply staged_keys_elem, list_elem_of_fmap. exists b'.
      split; [done|]. rewrite Hd. apply elem_of_app. by left.
    + pose proof (staged_NoDup (sources spark tables dirs fmt)) as Hnd.
      rewrite Hd in Hnd.
      rewrite fmap_app in Hnd. apply NoDup_app in Hnd as (_ & Hdisj & _).
      intros Heq. apply (Hdisj b'.1).
      * apply list_elem_of_fmap. by exists b'.
      * rewrite Heq. left.
  - left. rewrite registered_other in Hsome; [done|].
    intros b' Hb' Hkey'. apply Hno. apply Exists_exists. by exists b'.
Qed.

(** ** View names (claims C7 and C8) *)

Lemma contains_middle sep front name :
  PyStr.contains sep (front +:+ String sep name) = true.
Proof.
  induction front as [|c front IH].
  - change (PyStr.contains sep (String sep name) = true). simpl.
    by rewrite Ascii.eqb_refl.
  - change (PyStr.contains sep (String c (front +:+ String sep name)) = true).
    simpl. rewrite IH. by destruct (Ascii.eqb c sep).
Qed.

Lemma after_last_sep_unique sep f1 f2 n1 n2 :
  PyStr.contains sep n1 = false → PyStr.contains sep n2 = false →
  f1 +:+ String sep n1 = f2 +:+ String sep n2 → n1 = n2.
Proof.
  intros H1 H2. revert f2. induction f1 as [|c f1 IH]; intros [|c' f2] Heq.
  - by injection Heq.
  - injection Heq as _ Heq. rewrite Heq, contains_middle in H1. done.
  - injection Heq as _ Heq. rewrite <-Heq, contains_middle in H2. done.
  - injection Heq as _ Heq. by apply (IH f2).
Qed.

(** The specification's words name one string. *)
Lemma final_component_unique sep s n1 n2 :
  final_component sep s n1 → final_component sep s n2 → n1 = n2.
Proof.
  intros [H1 [->|[f1 ->]]] [H2 [E|[f2 E]]].
  - done.
  - rewrite E, contains_middle in H1. done.
  - rewrite <-E, contains_middle in H2. done.
  - by apply (after_last_sep_unique sep f1 f2).
Qed.

Lemma last_split_final_component sep s :
  final_component sep s (PyStr.last_item (PyStr.split sep s)).
Proof. split; [apply last_split_no_sep | apply last_split_suffix]. Qed.

Lemma sources_names spark tables dirs fmt :
  source_name <$> sources spark tables dirs fmt =
  (table_view_name <$> tables) ++ (dir_view_name <$> dirs).
Proof.
  unfold sources. rewrite fmap_app, <-!list_fmap_compose. done.
Qed.

(** C7: for every remote-table identifier, the view name that
    [register_views] derives is its final dot-separated component (it holds
    no dot, and it is the whole identifier or what follows its last dot); the
    identifier "proj.dataset.table" gives the name "table".  These are the
    names under which the sources of the first loop are staged. *)
Theorem table_view_name_final_component :
  (∀ table, final_component "." table (table_view_name table)) ∧
  table_view_name "proj.dataset.table" = "table" ∧
  (∀ spark tables fmt,
     source_name <$> sources spark tables [] fmt = table_view_name <$> tables).
Proof.
  split_and!.
  - intros table. apply last_split_final_component.
  - reflexivity.
  - intros. by rewrite sources_names, app_nil_r.
Qed.

(** C8: for every directory path, the view name that [register_views]
    derives is its final path segment, what follows the last '/' (the whole
    path when it holds none); the path "/data/sales" gives the name "sales".
    These are the names under which the sources of the second loop are
    staged. *)
Theorem dir_view_name_final_segment :
  (∀ hcfs_dir, final_component "/" hcfs_dir (dir_view_name hcfs_dir)) ∧
  dir_view_name "/data/sales" = "sales" ∧
  (∀ spark dirs fmt,
     source_name <$> sources spark [] dirs fmt = dir_view_name <$> dirs).
Proof.
  split_and!.
  - intros hcfs_dir. apply last_split_final_component.
  - reflexivity.
  - intros. by rewrite sources_names.
Qed.

(** ** The display of the rows (claim C1) *)

(** C1, as stated, fails: the display does truncate. [show] is called with
    the largest limit but with its default width, and a cell of 26
    characters is printed as its first 17 characters and three dots: the
    row printed is not the row of the result set. *)
Lemma show_cuts_wide_cells :
  let rows := [["abcdefghijklmnopqrstuvwxyz"]] in
  let w := world_with_rows "SELECT 'abcdefghijklmnopqrstuvwxyz' AS c" rows in
  printed_rows (script w ["q.sql"]) = [["abcdefghijklmnopq..."]] ∧
  printed_rows (script w ["q.sql"]) ≠ rows.
Proof. split; [reflexivity | discriminate]. Qed.

(** C1, amended: in every run of [main], [show] is only ever called with
    [Integer.MAX_VALUE] = 2^31 - 1, the largest value of Java's [int]; a run
    that succeeds calls it once, on the result set of the query. The engine
    then prints the rows of the result set up to 2^31 - 17 of them, the most
    it ever displays: with no more rows than that, every row of the result
    set is printed, whatever the default limit of 20 rows, each cell cut to
    the default width of 20 characters; and the rows are printed as they
    are when no cell has more than 20 characters. *)
Theorem show_called_with_largest_limit w args st :
  Integer_MAX_VALUE = (2 ^ 31 - 1)%Z ∧
  (∀ r st', main args w st = (r, st') →
     ∃ evs, trace st' = trace st ++ evs ∧
            ∀ n, n ∈ show_limits evs → n = Integer_MAX_VALUE) ∧
  (∀ st', main args w st = (Ok tt, st') →
     ∃ evs text rs rows printed,
       trace st' = trace st ++ evs ∧
       show_limits evs = [Integer_MAX_VALUE] ∧
       file_contents w (sql_script args) = Some text ∧
       query_result w (temp_views st') text = Some rs ∧
       rs_rows rs = Some rows ∧
       shown st' = shown st ++ printed ∧
       printed = show_rows Integer_MAX_VALUE 20 rows ∧
       (Z.of_nat (length printed) ≤ 2 ^ 31 - 17)%Z ∧
       ((Z.of_nat (length rows) ≤ 2 ^ 31 - 17)%Z →
          length printed = length rows ∧
          printed = map (map (show_cell 20)) rows ∧
          (Forall (Forall (λ cell, (String.length cell ≤ 20)%nat)) rows →
             printed = rows))).
Proof.
  split_and!; [reflexivity| |].
  - intros r st' Hrun.
    apply main_spec in Hrun as (r1 & st1 & Hreg & Hr).
    apply register_views_events in Hreg as (loaded & bound & Htr1 & _).
    simpl in Htr1. rewrite <-app_assoc in Htr1.
    destruct r1 as [[]|e].
    + destruct Hr as (_ & Hr).
      destruct (file_contents w (sql_script args)) as [text|].
      * destruct (query_result w (temp_views st1) text) as [rs|].
        -- destruct Hr as (Htr & _). rewrite Htr, Htr1, <-app_assoc.
           eexists. split; [done|]. intros n.
           rewrite !show_limits_app, show_limits_loads, show_limits_binds.
           simpl. by intros ->%list_elem_of_singleton.
        -- destruct Hr as (_ & Htr & _). rewrite Htr, Htr1, <-app_assoc.
           eexists. split; [done|]. intros n.
           rewrite !show_limits_app, show_limits_loads, show_limits_binds.
           simpl. by intros ?%elem_of_nil.
      * destruct Hr as (_ & Htr & _). rewrite Htr, Htr1, <-app_assoc.
        eexists. split; [done|]. intros n.
        rewrite !show_limits_app, show_limits_loads, show_limits_binds.
        simpl. by intros ?%elem_of_nil.
    + destruct Hr as (_ & ->). rewrite Htr1.
      eexists. split; [done|]. intros n.
      rewrite !show_limits_app, show_limits_loads, show_limits_binds.
      simpl. by intros ?%elem_of_nil.
  - intros st' Hrun.
    apply main_spec in Hrun as (r1 & st1 & Hreg & Hr).
    pose proof Hreg as Hreg'.
    apply register_views_events in Hreg' as (loaded & bound & Htr1 & _).
    apply register_views_spec in Hreg as (Hsh1 & _).
    simpl in Htr1, Hsh1. rewrite <-app_assoc in Htr1.
    destruct r1 as [[]|e]; [|by destruct Hr].
    destruct Hr as (Hv & Hr).
    destruct (file_contents w (sql_script args)) as [text|] eqn:Hf;
      [|by destruct Hr].
    destruct (query_result w (temp_views st1) text) as [rs|] eqn:Hq;
      [|by destruct Hr].
    destruct Hr as (Htr & Hr).
    destruct (rs_rows rs) as [rows|] eqn:Hrows; [|by destruct Hr].
    destruct Hr as (_ & Hsh).
    exists ([GetOrCreate "Spark SQL Query"] ++
              ((load_event <$> loaded) ++ (bind_event <$> bound)) ++
              [OpenFile (sql_script args); Sql text; Show Integer_MAX_VALUE]),
      text, rs, rows, (show_rows Integer_MAX_VALUE 20 rows).
    split_and!.
    + by rewrite Htr, Htr1, <-!app_assoc.
    + rewrite !show_limits_app, show_limits_loads, show_limits_binds. done.
    + done.
    + by rewrite Hv.
    + done.
    + by rewrite Hsh, Hsh1.
    + done.
    + pose proof (show_rows_length Integer_MAX_VALUE 20 rows) as Hlen.
      change (2 ^ 31 - 17)%Z with 2147483631%Z.
      unfold Integer_MAX_VALUE, MAX_ROUNDED_ARRAY_LENGTH, Row in *. lia.
    + change (2 ^ 31 - 17)%Z with 2147483631%Z. intros Hlen.
      assert (show_rows Integer_MAX_VALUE 20 rows
              = map (map (show_cell 20)) rows) as Hall.
      { apply show_rows_all;
          unfold Integer_MAX_VALUE, MAX_ROUNDED_ARRAY_LENGTH, Row in *; lia. }
      split_and!.
      * by rewrite Hall, length_map.
      * done.
      * intros Hcells. apply show_rows_short; [| |done];
          unfold Integer_MAX_VALUE, MAX_ROUNDED_ARRAY_LENGTH, Row in *; lia.
Qed.

(** The fifty rows of a table are all printed. *)
Lemma show_called_with_largest_limit_witness :
  ∃ st', main query_over_directory (world_with_table "t" fifty_rows)
           initial_state = (Ok tt, st') ∧
         shown st' = fifty_rows.
Proof.
  destruct (main query_over_directory (world_with_table "t" fifty_rows)
              initial_state) as [r st'] eqn:Hrun.
  assert (r = Ok tt) as ->.
  { assert ((main query_over_directory (world_with_table "t" fifty_rows)
               initial_state).1 = Ok tt) as H by reflexivity.
    by rewrite Hrun in H. }
  exists st'. split; [reflexivity|].
  destruct (proj2 (proj2 (show_called_with_largest_limit
                            (world_with_table "t" fifty_rows)
                            query_over_directory initial_state)) st' Hrun)
    as (evs & text & rs & rows & printed & _ & _ & Hf & Hq & Hrows
        & Hsh & _ & _ & Hall).
  injection Hf as <-.
  assert (rs_rows rs = Some fifty_rows) as Hfifty.
  { cbn [query_result world_with_table] in Hq.
    change (("SELECT * FROM " +:+ "t" =? "SELECT * FROM " +:+ "t")%string)
      with true in Hq. cbv iota in Hq.
    destruct (temp_views st' !! "t"); [|done]. by injection Hq as <-. }
  rewrite Hrows in Hfifty. injection Hfifty as ->.
  rewrite Hsh. destruct Hall as (_ & _ & Hsame).
  - vm_compute. discriminate.
  - apply Hsame. apply (bool_decide_unpack _). vm_compute. exact I.
Defined.

(** ** Errors (claim C6) *)

Lemma last_app_two (l : list Event) a b : last (l ++ [a; b]) = Some b.
Proof.
  replace (l ++ [a; b]) with ((l ++ [a]) ++ [b]) by (by rewrite <-app_assoc).
  apply last_snoc.
Qed.

Lemma last_app_three (l : list Event) a b c : last (l ++ [a; b; c]) = Some c.
Proof.
  replace (l ++ [a; b; c]) with ((l ++ [a; b]) ++ [c])
    by (by rewrite <-app_assoc).
  apply last_snoc.
Qed.

(** A run of [register_views] that raises stops at the call that raised. *)
Lemma register_views_raise w st spark tables dirs fmt e st' :
  register_views spark tables dirs fmt w st = (Raise e, st') →
  shown st' = shown st ∧
  ∃ ev, last (trace st') = Some ev ∧ failing_call e ev.
Proof.
  intros Hrun. apply register_views_spec in Hrun as (Hsh & Hr).
  split; [done|].
  destruct Hr as [(pre & s & post & _ & Htr & _ & _ & -> & _)
                 |(pre & b & post & _ & Htr & _ & _ & _ & Href)].
  - exists (load_event s). split; [|done].
    rewrite Htr, fmap_app, app_assoc. apply last_snoc.
  - exists (bind_event b). split.
    + rewrite Htr, fmap_app, !app_assoc. apply last_snoc.
    + by destruct Href as [[_ ->]|(key & _ & _ & ->)].
Qed.

(** C6: an exception raised while the views are registered, while the query
    file is read or while the query is run is the result of [main]: nothing
    catches it. The run ends in the state of the call that raised: the calls
    made are an initial segment of the sequence of the calls of [main], in
    which every call stands once, and the call that raised is the last of
    them, so no call is made again and none is made after it; no row is
    printed; and the process ends with status 1, not 0, and the
    interpreter's traceback of that exception. *)
Theorem errors_propagate_out_of_main w argv args :
  parse_args argv = Parsed args →
  let st0 := log (GetOrCreate "Spark SQL Query") initial_state in
  let registration :=
    register_views Session (bigquery_tables args) (hcfs_dirs args)
      (bigquery_record_format args) w st0 in
  (* view registration *)
  (∀ e st1, registration = (Raise e, st1) →
     main args w initial_state = (Raise e, st1)) ∧
  (* reading the query file *)
  (∀ st1, registration = (Ok tt, st1) →
     file_contents w (sql_script args) = None →
     main args w initial_state
     = (Raise (IOError (sql_script args)),
        log (OpenFile (sql_script args)) st1)) ∧
  (* running the query *)
  (∀ st1 text, registration = (Ok tt, st1) →
     file_contents w (sql_script args) = Some text →
     query_result w (temp_views st1) text = None →
     main args w initial_state
     = (Raise (SqlAnalysisError text),
        log (Sql text) (log (OpenFile (sql_script args)) st1))) ∧
  (∀ st1 text rs, registration = (Ok tt, st1) →
     file_contents w (sql_script args) = Some text →
     query_result w (temp_views st1) text = Some rs →
     rs_rows rs = None →
     main args w initial_state
     = (Raise (SqlExecutionError (rs_sql rs)),
        log (Show Integer_MAX_VALUE)
          (log (Sql text) (log (OpenFile (sql_script args)) st1)))) ∧
  (* the end of the process *)
  (∀ e st', main args w initial_state = (Raise e, st') →
     trace st' `prefix_of` call_sequence w args ∧
     (∃ ev, last (trace st') = Some ev ∧ failing_call e ev) ∧
     shown st' = [] ∧
     exit_status (script w argv) = 1%Z ∧
     exit_status (script w argv) ≠ 0%Z ∧
     diagnostic (script w argv) = traceback e ∧
     diagnostic (script w argv) ≠ EmptyString ∧
     printed_rows (script w argv) = [] ∧
     engine_calls (script w argv) = trace st').
Proof.
  intros Hparse st0 registration.
  assert (∀ st1, registration = (Ok tt, st1) →
            main args w initial_state
            = bind (open_read (sql_script args))
                (λ sql, bind (spark_sql Session sql)
                   (λ df, show df Integer_MAX_VALUE)) w st1) as Hafter.
  { intros st1 Hreg. unfold main. rewrite bind_run. unfold getOrCreate at 1.
    rewrite bind_run. fold st0. fold registration. rewrite Hreg.
    reflexivity. }
  split_and!.
  - intros e st1 Hreg. unfold main. rewrite bind_run. unfold getOrCreate at 1.
    rewrite bind_run. fold st0. fold registration. by rewrite Hreg.
  - intros st1 Hreg Hf. rewrite (Hafter st1 Hreg).
    rewrite bind_run. unfold open_read. by rewrite Hf.
  - intros st1 text Hreg Hf Hq. rewrite (Hafter st1 Hreg).
    rewrite bind_run. unfold open_read at 1. rewrite Hf.
    rewrite bind_run. unfold spark_sql. cbn [temp_views log]. by rewrite Hq.
  - intros st1 text rs Hreg Hf Hq Hrows. rewrite (Hafter st1 Hreg).
    rewrite bind_run. unfold open_read at 1. rewrite Hf.
    rewrite bind_run. unfold spark_sql. cbn [temp_views log]. rewrite Hq.
    unfold show. by rewrite Hrows.
  - intros e st' Hrun.
    pose proof Hrun as Hspec.
    apply main_spec in Hspec as (r1 & st1' & Hreg & Hr).
    fold st0 in Hreg. fold registration in Hreg.
    destruct (main_events w args _ _ _ Hrun)
      as (evs & Htr & Hpre & _ & _ & Hshown).
    cbn [trace initial_state app] in Htr.
    assert (∃ ev, last (trace st') = Some ev ∧ failing_call e ev) as Hlast.
    { destruct r1 as [[]|e1].
      - destruct Hr as (_ & Hr).
        destruct (file_contents w (sql_script args)) as [text|].
        + destruct (query_result w (temp_views st1') text) as [rs|].
          * destruct Hr as (Htr' & Hr). destruct (rs_rows rs) as [rows|].
            -- by destruct Hr.
            -- destruct Hr as ([= ->] & Hsh).
               exists (Show Integer_MAX_VALUE). split; [|done].
               rewrite Htr'. apply last_app_three.
          * destruct Hr as ([= ->] & Htr' & Hsh).
            exists (Sql text). split; [|done]. rewrite Htr'.
            apply last_app_two.
        + destruct Hr as ([= ->] & Htr' & Hsh).
          exists (OpenFile (sql_script args)). split; [|done].
          rewrite Htr'. apply last_snoc.
      - destruct Hr as ([= ->] & ->).
        by apply register_views_raise in Hreg as (_ & Hlast). }
    unfold script. rewrite Hparse, Hrun.
    cbn [exit_status diagnostic printed_rows engine_calls].
    rewrite (Hshown e eq_refl).
    split_and!; try done. by rewrite Htr.
Qed.

(** A query file that cannot be read ends the process with status 1, after
    one attempt to open it. *)
Lemma errors_propagate_out_of_main_witness :
  parse_args ["q.sql"] = Parsed query_only ∧
  exit_status (script world_without_files ["q.sql"]) = 1%Z ∧
  diagnostic (script world_without_files ["q.sql"])
    = traceback (IOError "q.sql") ∧
  printed_rows (script world_without_files ["q.sql"]) = [] ∧
  engine_calls (script world_without_files ["q.sql"])
    = [GetOrCreate "Spark SQL Query"; OpenFile "q.sql"].
Proof.
  split; [reflexivity|].
  destruct (errors_propagate_out_of_main world_without_files ["q.sql"]
              query_only eq_refl) as (_ & Hread & _ & _ & H).
  specialize (Hread (log (GetOrCreate "Spark SQL Query") initial_state)
                eq_refl eq_refl).
  destruct (H _ _ Hread) as (_ & _ & _ & H1 & _ & H2 & _ & H3 & H4).
  split_and!; [done | done | done |]. by rewrite H4.
Defined.

(** ** The record-format hint (claim C2) *)

Lemma bigquery_reader_options spark table fmt :
  source_format (bigquery_reader spark table fmt) = "bigquery" ∧
  reader_options (bigquery_reader spark table fmt)
    = ("table", table) :: hint_options fmt.
Proof. by destruct fmt as [[|c s]|]. Qed.

Lemma hint_options_truthy fmt :
  hint_options fmt = [] ↔ PyStr.truthy fmt = false.
Proof. by destruct fmt as [[|c s]|]. Qed.

Lemma hint_applied_iff spark table fmt :
  hint_applied (bigquery_reader spark table fmt) ↔ ∃ f, fmt = Some f ∧ f ≠ "".
Proof.
  unfold hint_applied.
  rewrite (proj2 (bigquery_reader_options spark table fmt)). split.
  - intros [f Hf]. apply elem_of_cons in Hf as [Hf|Hf]; [done|].
    destruct fmt as [[|c s]|]; simpl in Hf;
      [by apply elem_of_nil in Hf | | by apply elem_of_nil in Hf].
    by exists (String c s).
  - intros (f & -> & Hf). destruct f as [|c s]; [done|].
    exists (String c s). right. left.
Qed.

Lemma source_cases spark tables dirs fmt s :
  s ∈ sources spark tables dirs fmt →
  (∃ table, table ∈ tables ∧ s = table_source spark fmt table) ∨
  (∃ hcfs_dir, hcfs_dir ∈ dirs ∧ s = dir_source spark hcfs_dir).
Proof.
  unfold sources. rewrite elem_of_app, !list_elem_of_fmap. naive_solver.
Qed.

(** C2, as stated, fails: with [--bigquery-record-format ""] the option is
    supplied, and the reader of the table is loaded with the table
    identifier only. *)
Lemma empty_record_format_is_not_applied :
  let argv := ["q.sql"; "--bigquery-tables"; "proj.dataset.table";
               "--bigquery-record-format"; ""] in
  let reader := {| source_format := "bigquery";
                   reader_options := [("table", "proj.dataset.table")] |} in
  supplies BigqueryRecordFormat argv = true ∧
  parse_args argv
    = Parsed {| sql_script := "q.sql";
                bigquery_tables := ["proj.dataset.table"];
                bigquery_record_format := Some "";
                hcfs_dirs := [] |} ∧
  engine_calls (script (world_with_rows "SELECT 1" []) argv)
    = [ GetOrCreate "Spark SQL Query";
        Load reader None;
        CreateTempView "table" {| df_reader := reader; df_path := None |};
        OpenFile "q.sql"; Sql "SELECT 1"; Show Integer_MAX_VALUE ] ∧
  ¬ hint_applied reader.
Proof.
  split_and!; [reflexivity | reflexivity | reflexivity |].
  intros [f Hf]. simpl in Hf. by apply list_elem_of_singleton in Hf.
Qed.

(** C2, amended: every reader that [register_views] loads for a remote table
    is configured with the table identifier, and with the record-format hint
    if and only if the record-format value of the configuration is a string
    that is not empty; with no value or an empty one, the reader has the
    table identifier only. Every table of a run that succeeds has such a
    reader. *)
Theorem record_format_hint_applied_iff_not_empty w st spark tables dirs fmt r st' :
  register_views spark tables dirs fmt w st = (r, st') →
  ∃ evs,
    trace st' = trace st ++ evs ∧
    (∀ reader path,
       Load reader path ∈ evs → source_format reader = "bigquery" →
       ∃ table,
         table ∈ tables ∧ path = None ∧
         reader_options reader = ("table", table) :: hint_options fmt ∧
         (hint_applied reader ↔ ∃ f, fmt = Some f ∧ f ≠ "") ∧
         (PyStr.truthy fmt = false →
            reader_options reader = [("table", table)])) ∧
    (r = Ok tt →
     ∀ table, table ∈ tables →
       Load {| source_format := "bigquery";
               reader_options := ("table", table) :: hint_options fmt |} None
         ∈ evs).
Proof.
  intros Hrun.
  apply register_views_events in Hrun as (loaded & bound & Htr & Hpre & _ & Hok).
  eexists. split; [exact Htr|]. split.
  - intros reader path Hin Hfmt.
    apply elem_of_app in Hin as [Hin|Hin].
    + apply list_elem_of_fmap in Hin as (s & Hs & Hin).
      assert (s ∈ sources spark tables dirs fmt) as Hsrc.
      { destruct Hpre as [rest ->]. apply elem_of_app. by left. }
      apply source_cases in Hsrc as [(table & Htable & ->)|(d & _ & ->)].
      * injection Hs as -> ->. exists table.
        pose proof (bigquery_reader_options spark table fmt) as [_ Hopts].
        split_and!; [done | done | done | apply hint_applied_iff |].
        intros Hfalse. rewrite Hopts.
        by apply hint_options_truthy in Hfalse as ->.
      * injection Hs as -> ->. done.
    + apply list_elem_of_fmap in Hin as (b & Hb & _). done.
  - intros Hr table Htable. destruct (Hok Hr) as [-> _].
    apply elem_of_app. left. apply list_elem_of_fmap.
    exists (table_source spark fmt table). split.
    + unfold load_event, table_source. simpl. f_equal.
      pose proof (bigquery_reader_options spark table fmt) as [Hf Hopts].
      destruct (bigquery_reader spark table fmt) as [f o]. simpl in *.
      by subst.
    + unfold sources. apply elem_of_app. left.
      apply list_elem_of_fmap. by exists table.
Qed.

(** A run with the hint AVRO on one table. *)
Lemma record_format_hint_applied_iff_not_empty_witness :
  Load {| source_format := "bigquery";
          reader_options := [("table", "proj.dataset.table");
                             ("readDataFormat", "AVRO")] |} None
    ∈ trace (register_views Session ["proj.dataset.table"] [] (Some "AVRO")
               (world_with_rows "SELECT 1" []) initial_state).2.
Proof.
  destruct (register_views Session ["proj.dataset.table"] [] (Some "AVRO")
              (world_with_rows "SELECT 1" []) initial_state)
    as [r st'] eqn:Hrun.
  assert (r = Ok tt) as ->.
  { assert ((register_views Session ["proj.dataset.table"] [] (Some "AVRO")
               (world_with_rows "SELECT 1" []) initial_state).1 = Ok tt)
      as H by reflexivity.
    by rewrite Hrun in H. }
  destruct (record_format_hint_applied_iff_not_empty _ _ _ _ _ _ _ _ Hrun)
    as (evs & Htr & _ & Hall).
  simpl. rewrite Htr. apply elem_of_app. right.
  apply (Hall eq_refl "proj.dataset.table"). left.
Defined.

(** ** Views of the same name (claim C3) *)

(** C3: when [register_views] completes, the view bound under a name (as
    the session stores it) is the data frame of the last source that derives
    the name, in the order of the remote tables followed by the directories:
    a source of the same name before it is replaced, its data frame is not
    merged. Sources of the same name raise nothing: with every source
    available and the derived names accepted by the engine (it refuses none
    of them, no view is bound under any, and it stores under different names
    those that differ), [register_views] completes, however often a name is
    derived; and when the engine reports that a view exists, the stored
    name is bound in the session or is the stored name of another derived
    name: it is never the same name derived twice. *)
Theorem later_source_replaces_earlier w st spark tables dirs fmt :
  let srcs := sources spark tables dirs fmt in
  (∀ st', register_views spark tables dirs fmt w st = (Ok tt, st') →
     ∀ before s later,
       srcs = before ++ s :: later →
       source_name s ∉ source_name <$> later →
       ∃ key, view_key w (source_name s) = Some key ∧
              temp_views st' !! key = Some (source_frame s)) ∧
  (Forall (available w) srcs →
   names_accepted w (temp_views st) (source_name <$> srcs) →
   ∃ st', register_views spark tables dirs fmt w st = (Ok tt, st')) ∧
  (∀ name st',
     register_views spark tables dirs fmt w st
     = (Raise (TempViewAlreadyExists name), st') →
     ∃ key, view_key w name = Some key ∧
            (is_Some (temp_views st !! key) ∨
             ∃ other, other ∈ source_name <$> srcs ∧ other ≠ name ∧
                      view_key w other = Some key)).
Proof.
  intros srcs. split_and!.
  - intros st' Hrun before s later Hsrcs Hlast.
    apply register_views_spec in Hrun as (_ & _ & _ & Hacc & ->).
    fold srcs in Hacc |- *.
    apply (accepted_lookup _ _ _ Hacc (source_name s, source_frame s)).
    rewrite Hsrcs. by apply staged_last_entry.
  - intros Hav Hnames. apply register_views_completes; [done|].
    by apply staged_accepted.
  - intros name st' Hrun.
    by apply (view_exists_cause w st spark tables dirs fmt name st').
Qed.

(** A table and a directory of the name "sales": the view is the directory. *)
Lemma later_source_replaces_earlier_witness :
  ∃ st',
    register_views Session ["proj.dataset.sales"] ["/data/sales"] None
      (world_with_rows "SELECT 1" []) initial_state = (Ok tt, st') ∧
    temp_views st' !! "sales"
      = Some {| df_reader := {| source_format := "parquet";
                                reader_options := [] |};
                df_path := Some "/data/sales" |}.
Proof.
  pose proof (later_source_replaces_earlier (world_with_rows "SELECT 1" [])
                initial_state Session ["proj.dataset.sales"] ["/data/sales"]
                None) as (Hlast & Hcompletes & _).
  destruct Hcompletes as [st' Hrun].
  - repeat constructor.
  - split.
    + intros n Hn. exists "sales". split; [|apply lookup_empty].
      repeat (apply elem_of_cons in Hn as [->|Hn]; [done|]).
      by apply elem_of_nil in Hn.
    + intros n1 n2 H1 H2 _.
      repeat (apply elem_of_cons in H1 as [->|H1]);
        repeat (apply elem_of_cons in H2 as [->|H2]);
        try done; by apply elem_of_nil in H1 || by apply elem_of_nil in H2.
  - exists st'. split; [exact Hrun|].
    destruct (Hlast st' Hrun [table_source Session None "proj.dataset.sales"]
                (dir_source Session "/data/sales") [])
      as (key & Hkey & Hview); [reflexivity | apply not_elem_of_nil |].
    by injection Hkey as <-.
Defined.

(** ** The order of the registrations (claims C4 and C9) *)

(** C4, as stated, fails: for the tables a.x, b.y, c.x the views are
    registered in the order x (the data frame of c.x), y (the data frame of
    b.y): the view of c.x is registered before the view of b.y, which
    precedes it in the input list. The registrations are not in the order of
    the list, even with the replaced view of a.x left out. *)
Lemma registrations_not_in_input_order :
  let tables := ["a.x"; "b.y"; "c.x"] in
  let run := register_views Session tables [] None
               (world_with_rows "SELECT 1" []) initial_state in
  run.1 = Ok tt ∧
  registrations (trace run.2)
    = [ entry (table_source Session None "c.x");
        entry (table_source Session None "b.y") ] ∧
  ¬ sublist (registrations (trace run.2))
      (entry <$> sources Session tables [] None).
Proof.
  split_and!; [reflexivity | reflexivity |].
  assert (registrations
            (trace (register_views Session ["a.x"; "b.y"; "c.x"] [] None
                      (world_with_rows "SELECT 1" []) initial_state).2)
          = [ entry (table_source Session None "c.x");
              entry (table_source Session None "b.y") ]) as -> by reflexivity.
  vm_compute. intros H.
  repeat match goal with
         | H : sublist _ _ |- _ => inversion H; clear H; subst
         end.
Qed.

(** C4, amended: [register_views] loads the sources in the order of the
    configuration, the remote tables before the directories and each list in
    its order, and only then registers the views, in the order of the staging
    dictionary: the distinct names in the order of their first occurrence,
    each with the data frame of the last source that derives it. When the
    derived names are pairwise distinct, the views are registered in the
    order of the configuration: the views of the remote tables before the
    views of the directories, each group in the order of its list. *)
Theorem registrations_follow_first_occurrences w st spark tables dirs fmt r st' :
  register_views spark tables dirs fmt w st = (r, st') →
  let srcs := sources spark tables dirs fmt in
  ∃ loaded bound,
    trace st' = trace st ++ (load_event <$> loaded) ++ (bind_event <$> bound) ∧
    loaded `prefix_of` srcs ∧
    bound `prefix_of` staged srcs ∧
    (r = Ok tt → loaded = srcs ∧ bound = staged srcs) ∧
    (staged srcs).*1 = first_occurrences (source_name <$> srcs) ∧
    (∀ name df, (name, df) ∈ staged srcs →
       source_frame <$> last_source name srcs = Some df) ∧
    (NoDup (source_name <$> srcs) →
       staged srcs = (entry ∘ table_source spark fmt <$> tables)
                       ++ (entry ∘ dir_source spark <$> dirs)).
Proof.
  intros Hrun srcs.
  apply register_views_events in Hrun as (loaded & bound & Htr & Hl & Hb & Hok).
  exists loaded, bound. split_and!; try done.
  - apply staged_keys.
  - intros name df Hin. rewrite <-staged_get.
    apply dict_elem_get; [apply staged_NoDup | done].
  - intros Hnd. rewrite (staged_distinct _ Hnd). unfold srcs, sources.
    by rewrite fmap_app, <-!list_fmap_compose.
Qed.

(** Two tables and a directory of distinct names are registered in the order
    of the configuration. *)
Lemma registrations_follow_first_occurrences_witness :
  registrations
    (trace (register_views Session ["p.d.a"; "p.d.b"] ["/data/c"] None
              (world_with_rows "SELECT 1" []) initial_state).2)
  = [ entry (table_source Session None "p.d.a");
      entry (table_source Session None "p.d.b");
      entry (dir_source Session "/data/c") ].
Proof.
  destruct (register_views Session ["p.d.a"; "p.d.b"] ["/data/c"] None
              (world_with_rows "SELECT 1" []) initial_state)
    as [r st'] eqn:Hrun.
  assert (r = Ok tt) as ->.
  { assert ((register_views Session ["p.d.a"; "p.d.b"] ["/data/c"] None
               (world_with_rows "SELECT 1" []) initial_state).1 = Ok tt)
      as H by reflexivity.
    by rewrite Hrun in H. }
  destruct (registrations_follow_first_occurrences _ _ _ _ _ _ _ _ Hrun)
    as (loaded & bound & Htr & _ & _ & Hok & _ & _ & Hdistinct).
  destruct (Hok eq_refl) as [-> ->]. simpl. rewrite Htr.
  rewrite !registrations_app, registrations_loads, registrations_binds.
  simpl. rewrite Hdistinct; [reflexivity|].
  apply (bool_decide_unpack _). vm_compute. exact I.
Defined.

(** C9: in every run of [register_views], whether it completes or raises,
    the calls of [createTempView] all come after the loads, their names are
    derived names of the configuration and no name occurs twice among them,
    even when several sources derive the same name; in a run that completes,
    each derived name is registered (once). *)
Theorem one_registration_per_name w st spark tables dirs fmt r st' :
  register_views spark tables dirs fmt w st = (r, st') →
  let names := (table_view_name <$> tables) ++ (dir_view_name <$> dirs) in
  ∃ loaded bound,
    trace st' = trace st ++ (load_event <$> loaded) ++ (bind_event <$> bound) ∧
    registrations ((load_event <$> loaded) ++ (bind_event <$> bound)) = bound ∧
    NoDup bound.*1 ∧
    (∀ name, name ∈ bound.*1 → name ∈ names) ∧
    (r = Ok tt → ∀ name, name ∈ names → name ∈ bound.*1).
Proof.
  intros Hrun names.
  apply register_views_events in Hrun as (loaded & bound & Htr & _ & Hb & Hok).
  exists loaded, bound.
  assert (∀ name, name ∈ (staged (sources spark tables dirs fmt)).*1
                  ↔ name ∈ names) as Hnames.
  { intros name. unfold names.
    rewrite <-(sources_names spark tables dirs fmt).
    apply staged_keys_elem. }
  destruct Hb as [rest Hb]. split_and!.
  - done.
  - by rewrite registrations_app, registrations_loads, registrations_binds.
  - pose proof (staged_NoDup (sources spark tables dirs fmt)) as Hnd.
    rewrite Hb, fmap_app in Hnd. by apply NoDup_app in Hnd as (? & _).
  - intros name Hin. apply Hnames. rewrite Hb, fmap_app.
    apply elem_of_app. by left.
  - intros Hr name Hin. destruct (Hok Hr) as [_ ->]. by apply Hnames.
Qed.

(** Three sources of two names: no name is registered twice. *)
Lemma one_registration_per_name_witness :
  NoDup (registrations
           (trace (register_views Session ["a.x"; "b.y"] ["/data/x"] None
                     (world_with_rows "SELECT 1" []) initial_state).2)).*1.
Proof.
  destruct (register_views Session ["a.x"; "b.y"] ["/data/x"] None
              (world_with_rows "SELECT 1" []) initial_state)
    as [r st'] eqn:Hrun.
  destruct (one_registration_per_name _ _ _ _ _ _ _ _ Hrun)
    as (loaded & bound & Htr & Hregs & Hnd & _).
  simpl. rewrite Htr. simpl. by rewrite Hregs.
Defined.

(** ** The argument parser *)

Lemma initial_pstate_ok : pstate_ok initial_pstate.
Proof.
  split_and!; [done | done |]. intros [H _]. by apply elem_of_nil in H.
Qed.

Lemma add_extra_ok arg st : pstate_ok st → pstate_ok (add_extra arg st).
Proof. done. Qed.

Lemma take_action_continue a arg_strings st st' :
  take_action a arg_strings st = Continue st' →
  pstate_ok st →
  pstate_ok st' ∧ seen st' = a :: seen st ∧ a ≠ Help.
Proof.
  intros Hrun (Ht & Hd & Hx). unfold take_action in Hrun.
  destruct a; simpl in Hrun.
  - done.
  - injection Hrun as <-. split_and!; [split_and!; simpl | done | done].
    + intros H. right. auto.
    + intros H. right. auto.
    + rewrite !elem_of_cons. naive_solver.
  - case_bool_decide as Hc; [done|]. injection Hrun as <-.
    split_and!; [split_and!; simpl | done | done].
    + intros _. left.
    + intros H. right. auto.
    + rewrite !elem_of_cons. naive_solver.
  - injection Hrun as <-. split_and!; [split_and!; simpl | done | done].
    + intros H. right. auto.
    + intros H. right. auto.
    + rewrite !elem_of_cons. naive_solver.
  - case_bool_decide as Hc; [done|]. injection Hrun as <-.
    split_and!; [split_and!; simpl | done | done].
    + intros H. right. auto.
    + intros _. left.
    + rewrite !elem_of_cons. naive_solver.
Qed.

Lemma take_action_exit a arg_strings st status msg :
  take_action a arg_strings st = Exit status msg →
  status = 2%Z ∨ (status = 0%Z ∧ msg = help_text ∧ a = Help).
Proof.
  unfold take_action. destruct a; simpl; try done.
  - intros [= <- <-]. by right.
  - case_bool_decide; [|done]. intros [= <- <-]. by left.
  - case_bool_decide; [|done]. intros [= <- <-]. by left.
Qed.

(** An option of the group is refused once the other one is seen. *)
Lemma take_action_conflict a c arg_strings st :
  c ∈ action_conflicts a → c ∈ seen st →
  ∃ msg, take_action a arg_strings st = Exit 2 msg.
Proof.
  intros Hc Hseen. unfold take_action.
  destruct a; simpl in *; try by apply elem_of_nil in Hc.
  - apply list_elem_of_singleton in Hc as ->.
    rewrite bool_decide_eq_true_2; [eauto | done].
  - apply list_elem_of_singleton in Hc as ->.
    rewrite bool_decide_eq_true_2; [eauto | done].
Qed.

Lemma take_flags_continue flags st st' :
  take_flags flags st = Continue st' →
  pstate_ok st →
  pstate_ok st' ∧
  (∀ a, a ∈ seen st' ↔ a ∈ flags ∨ a ∈ seen st) ∧
  Help ∉ flags.
Proof.
  revert st. induction flags as [|a flags IH]; intros st; simpl.
  - intros [= <-] Hok. split_and!; [done | | apply not_elem_of_nil].
    intros a. rewrite elem_of_nil. naive_solver.
  - destruct (take_action a [] st) as [st1|] eqn:Ha; [|done].
    intros Hrun Hok.
    apply take_action_continue in Ha as (Hok1 & Hseen1 & Hne); [|done].
    apply IH in Hrun as (Hok' & Hseen' & Hhelp); [|done].
    split_and!; [done | |].
    + intros b. rewrite Hseen', Hseen1, !elem_of_cons. naive_solver.
    + rewrite not_elem_of_cons. split; [congruence | done].
Qed.

Lemma take_flags_exit flags st status msg :
  take_flags flags st = Exit status msg →
  status = 2%Z ∨ (status = 0%Z ∧ msg = help_text ∧ Help ∈ flags).
Proof.
  revert st. induction flags as [|a flags IH]; intros st; simpl; [done|].
  destruct (take_action a [] st) as [st1|status' msg'] eqn:Ha.
  - intros Hrun. apply IH in Hrun as [?|(? & ? & ?)]; [by left|].
    right. split_and!; [done..|]. by right.
  - intros [= <- <-]. apply take_action_exit in Ha as [?|(? & ? & ->)];
      [by left|]. right. split_and!; [done..|]. left.
Qed.

(** The only option string of two characters is [-h]. *)
Lemma lookup_option_short c0 c a :
  lookup_option (String c0 (String c EmptyString)) = Some a → a = Help.
Proof.
  unfold lookup_option. cbn -[Ascii.eqb].
  repeat match goal with
         | |- context [Ascii.eqb ?x ?y] =>
             destruct (Ascii.eqb x y); cbn -[Ascii.eqb]
         end;
    congruence.
Qed.

Ltac single_action :=
  intros [= <- <- <-]; exists []; rewrite app_nil_r;
  split_and!;
  [ done
  | by apply list_elem_of_singleton
  | intros a Ha; apply list_elem_of_singleton in Ha; by left
  | intros Ha; by apply list_elem_of_singleton in Ha ].

(** The actions that one option string stands for are its own action and,
    after a flag that takes no argument, further help flags. *)
Lemma consume_explicit_actions explicit_arg :
  ∀ action option_string flags0 flags last e,
    consume_explicit action option_string explicit_arg flags0
      = Actions flags last e →
    ∃ more,
      flags = flags0 ++ more ∧
      action ∈ more ++ [last] ∧
      (∀ a, a ∈ more ++ [last] → a = action ∨ a = Help) ∧
      (Help ∈ more ++ [last] → action = Help).
Proof.
  induction explicit_arg as [|c tail IH];
    intros action option_string flags0 flags last e.
  - destruct action; simpl; try done; single_action.
  - destruct action; cbn [consume_explicit arg_count]; try single_action.
    (* the help flag: the rest of the string holds more flags *)
    destruct (match option_string with
              | String _ (String c1 _) => negb (is_prefix_char c1)
              | _ => false
              end); [|done].
    destruct (lookup_option _) as [action'|] eqn:Hlookup; [|done].
    apply lookup_option_short in Hlookup as ->.
    destruct tail as [|c' tail'].
    + intros [= <- <- <-]. exists [Help]. split_and!; [done | left | | done].
      intros a Ha. right.
      apply elem_of_cons in Ha as [->|Ha]; [done|].
      by apply list_elem_of_singleton in Ha.
    + intros Hrun. apply IH in Hrun as (more & -> & Hin & Hall & Hhelp).
      exists (Help :: more). split_and!.
      * by rewrite <-app_assoc.
      * left.
      * intros a Ha. right. apply elem_of_cons in Ha as [->|Ha]; [done|].
        by apply Hall in Ha as [->| ->].
      * done.
Qed.

Lemma consume_optional_actions action option_string explicit_arg flags last e :
  consume_optional action option_string explicit_arg = Actions flags last e →
  action ∈ flags ++ [last] ∧
  (∀ a, a ∈ flags ++ [last] → a = action ∨ a = Help) ∧
  (Help ∈ flags ++ [last] → action = Help).
Proof.
  unfold consume_optional. destruct explicit_arg as [ea|].
  - intros Hrun.
    apply consume_explicit_actions in Hrun as (more & -> & H1 & H2 & H3).
    done.
  - intros [= <- <- <-]. split_and!.
    + by apply list_elem_of_singleton.
    + intros a Ha. apply list_elem_of_singleton in Ha. by left.
    + intros Ha. by apply list_elem_of_singleton in Ha.
Qed.

Lemma has_option_app a pre rest :
  has_option a (pre ++ rest) ↔ has_option a pre ∨ has_option a rest.
Proof.
  unfold has_option. setoid_rewrite elem_of_app. naive_solver.
Qed.

Lemma has_option_nil a : ¬ has_option a [].
Proof. intros (? & ? & ? & H). by apply elem_of_nil in H. Qed.

Lemma has_option_A a v : ¬ has_option a [TokA v].
Proof. intros (? & ? & ? & H). by apply list_elem_of_singleton in H. Qed.

Lemma has_option_Dash a : ¬ has_option a [TokDash].
Proof. intros (? & ? & ? & H). by apply list_elem_of_singleton in H. Qed.

Lemma has_option_O a arg o os ea :
  has_option a [TokO arg o os ea] ↔ o = Some a.
Proof.
  split.
  - intros (? & ? & ? & H). apply list_elem_of_singleton in H. congruence.
  - intros ->. eexists _, _, _. by apply list_elem_of_singleton.
Qed.

Lemma has_option_plain a (pre : list Tok) :
  (∀ t, t ∈ pre → match t with TokO _ _ _ _ => False | _ => True end) →
  ¬ has_option a pre.
Proof. intros Hpre (? & ? & ? & H). by apply Hpre in H. Qed.

(** A prefix of the strings is consumed, the rest is parsed from the state
    reached. *)
Lemma parse_post_step st st2 pre rest res :
  (∀ a, a ∈ seen st → a ∈ seen st2) →
  (∀ a, has_option a pre → a ∈ seen st2) →
  (∀ a, a ∈ seen st2 → a ∈ seen st ∨ a = SqlScript ∨ has_option a pre) →
  parse_post st2 rest res → parse_post st (pre ++ rest) res.
Proof.
  intros H1 H2 H3. destruct res as [st'|status msg]; simpl.
  - intros (Hok & Hmono & Hopts & Hseen). split_and!; [done | auto | |].
    + intros a [Ha|Ha]%has_option_app; auto.
    + intros a Ha. setoid_rewrite has_option_app.
      apply Hseen in Ha as [Ha|[->|Ha]]; [|auto..].
      apply H3 in Ha. naive_solver.
  - setoid_rewrite has_option_app. naive_solver.
Qed.

(** The positional is taken. *)
Lemma parse_post_positional st arg_strings pre rest :
  pstate_ok st →
  (∀ a, ¬ has_option a pre) →
  (∀ st1, pstate_ok st1 → parse_post st1 rest (parse_tokens rest st1)) →
  parse_post st (pre ++ rest)
    match take_action SqlScript arg_strings st with
    | Exit status msg => Exit status msg
    | Continue st1 => parse_tokens rest st1
    end.
Proof.
  intros Hok Hpre IH.
  destruct (take_action SqlScript arg_strings st) as [st1|status msg] eqn:Ha.
  - apply take_action_continue in Ha as (Hok1 & Hseen1 & _); [|done].
    apply (parse_post_step st st1); [| | |by apply IH].
    + intros a Ha. rewrite Hseen1. by right.
    + intros a Ha. by apply Hpre in Ha.
    + intros a. rewrite Hseen1, elem_of_cons. naive_solver.
  - by apply take_action_exit in Ha as [->|(_ & _ & ?)]; [left|].
Qed.

(** Strings that no action takes. *)
Lemma parse_post_extra st st1 pre rest :
  seen st1 = seen st →
  (∀ a, ¬ has_option a pre) →
  parse_post st1 rest (parse_tokens rest st1) →
  parse_post st (pre ++ rest) (parse_tokens rest st1).
Proof.
  intros Hseen Hpre. apply parse_post_step.
  - intros a. by rewrite Hseen.
  - intros a Ha. by apply Hpre in Ha.
  - intros a. rewrite Hseen. auto.
Qed.

(** An option string, with its argument when it takes one. *)
Lemma parse_post_option st action flags last arg_strings pre rest :
  pstate_ok st →
  action ∈ flags ++ [last] →
  (∀ a, a ∈ flags ++ [last] → a = action ∨ a = Help) →
  (Help ∈ flags ++ [last] → action = Help) →
  has_option action pre →
  (∀ a, has_option a pre → a = action) →
  (∀ st1, pstate_ok st1 → parse_post st1 rest (parse_tokens rest st1)) →
  parse_post st (pre ++ rest)
    match take_flags flags st with
    | Exit status msg => Exit status msg
    | Continue st1 =>
        match take_action last arg_strings st1 with
        | Exit status msg => Exit status msg
        | Continue st2 => parse_tokens rest st2
        end
    end.
Proof.
  intros Hok Hin Hall Hhelp Hpre Hpre_only IH.
  destruct (take_flags flags st) as [st1|status msg] eqn:Hflags.
  - apply take_flags_continue in Hflags as (Hok1 & Hseen1 & Hnohelp); [|done].
    destruct (take_action last arg_strings st1) as [st2|status msg] eqn:Hlast.
    + apply take_action_continue in Hlast as (Hok2 & Hseen2 & Hne); [|done].
      apply (parse_post_step st st2); [| | |by apply IH].
      * intros a Ha. rewrite Hseen2. right. apply Hseen1. by right.
      * intros a ->%Hpre_only. rewrite Hseen2.
        apply elem_of_app in Hin as [Hin|Hin%list_elem_of_singleton].
        -- right. apply Hseen1. by left.
        -- subst. left.
      * intros a. rewrite Hseen2, elem_of_cons, Hseen1.
        intros [->|[Ha|Ha]]; [| |by left].
        -- destruct (Hall last) as [->| ->];
             [apply elem_of_app; right; left | by right; right | done].
        -- destruct (Hall a) as [->| ->];
             [apply elem_of_app; by left | by right; right | done].
    + apply take_action_exit in Hlast as [->|(-> & -> & ->)]; [by left|].
      right. split_and!; [done..|].
      rewrite has_option_app. left.
      rewrite <-Hhelp; [done|]. apply elem_of_app. right. left.
  - apply take_flags_exit in Hflags as [->|(-> & -> & Hin')]; [by left|].
    right. split_and!; [done..|]. rewrite has_option_app. left.
    rewrite <-Hhelp; [done|]. apply elem_of_app. by left.
Qed.

Lemma parse_post_flags st action flags pre rest :
  pstate_ok st →
  action ∈ flags →
  (∀ a, a ∈ flags → a = action ∨ a = Help) →
  (Help ∈ flags → action = Help) →
  has_option action pre →
  (∀ a, has_option a pre → a = action) →
  (∀ st1, pstate_ok st1 → parse_post st1 rest (parse_tokens rest st1)) →
  parse_post st (pre ++ rest)
    match take_flags flags st with
    | Exit status msg => Exit status msg
    | Continue st1 => parse_tokens rest st1
    end.
Proof.
  intros Hok Hin Hall Hhelp Hpre Hpre_only IH.
  destruct (take_flags flags st) as [st1|status msg] eqn:Hflags.
  - apply take_flags_continue in Hflags as (Hok1 & Hseen1 & Hnohelp); [|done].
    apply (parse_post_step st st1); [| | |by apply IH].
    + intros a Ha. apply Hseen1. by right.
    + intros a ->%Hpre_only. apply Hseen1. by left.
    + intros a. rewrite Hseen1. intros [Ha|Ha]; [|by left].
      destruct (Hall a Ha) as [->| ->]; [by right; right | done].
  - apply take_flags_exit in Hflags as [->|(-> & -> & Hin')]; [by left|].
    right. split_and!; [done..|]. rewrite has_option_app. left.
    by rewrite <-Hhelp.
Qed.

Lemma has_option_two a t v : has_option a [t; TokA v] ↔ has_option a [t].
Proof.
  change [t; TokA v] with ([t] ++ [TokA v]). rewrite has_option_app.
  pose proof (has_option_A a v). naive_solver.
Qed.

(** The loop of the parser keeps its guarantees. *)
Lemma parse_tokens_post toks :
  ∀ st, pstate_ok st → parse_post st toks (parse_tokens toks st).
Proof.
  induction toks as [toks IH] using (induction_ltof1 _ (@length Tok)).
  unfold ltof in IH. intros st Hok.
  destruct toks as [|t rest].
  { simpl. split_and!; [done | done | | auto].
    intros a Ha. by apply has_option_nil in Ha. }
  destruct t as [value|arg [action|] option_string explicit_arg|].
  - (* a plain argument *)
    cbn [parse_tokens]. destruct (positional_pending st).
    + destruct rest as [|[v'|arg' o' os' ea'|] rest'].
      * apply (parse_post_positional st [value] [TokA value] []); [done| |].
        -- intros a. apply has_option_A.
        -- intros st1 Hok1. apply IH; [simpl; lia | done].
      * apply (parse_post_positional st [value] [TokA value]
                 (TokA v' :: rest')); [done| |].
        -- intros a. apply has_option_A.
        -- intros st1 Hok1. apply IH; [simpl; lia | done].
      * apply (parse_post_positional st [value] [TokA value]
                 (TokO arg' o' os' ea' :: rest')); [done| |].
        -- intros a. apply has_option_A.
        -- intros st1 Hok1. apply IH; [simpl; lia | done].
      * apply (parse_post_positional st [value; "--"] [TokA value; TokDash]
                 rest'); [done| |].
        -- intros a. apply has_option_plain.
           intros t [->|Ht%list_elem_of_singleton]%elem_of_cons; [done|].
           by subst.
        -- intros st1 Hok1. apply IH; [simpl; lia | done].
    + apply (parse_post_extra st (add_extra value st) [TokA value] rest).
      * done.
      * intros a. apply has_option_A.
      * apply IH; [simpl; lia | by apply add_extra_ok].
  - (* an option of the parser *)
    cbn [parse_tokens].
    destruct (consume_optional action option_string explicit_arg)
      as [flags last [value|]|msg] eqn:Hconsume; [| |by left].
    + apply consume_optional_actions in Hconsume as (Hin & Hall & Hhelp).
      apply (parse_post_option st action flags last [value]
               [TokO arg (Some action) option_string explicit_arg] rest);
        try done.
      * by apply has_option_O.
      * intros a Ha. apply has_option_O in Ha. congruence.
      * intros st1 Hok1. apply IH; [simpl; lia | done].
    + apply consume_optional_actions in Hconsume as (Hin & Hall & Hhelp).
      destruct (arg_count last) as [|n].
      * apply (parse_post_flags st action (flags ++ [last])
                 [TokO arg (Some action) option_string explicit_arg] rest);
          try done.
        -- by apply has_option_O.
        -- intros a Ha. apply has_option_O in Ha. congruence.
        -- intros st1 Hok1. apply IH; [simpl; lia | done].
      * destruct rest as [|[value|arg' o' os' ea'|] rest']; try by left.
        apply (parse_post_option st action flags last [value]
                 [TokO arg (Some action) option_string explicit_arg;
                  TokA value] rest'); try done.
        -- apply has_option_two. by apply has_option_O.
        -- intros a Ha. apply has_option_two, has_option_O in Ha. congruence.
        -- intros st1 Hok1. apply IH; [simpl; lia | done].
  - (* an option that the parser does not know *)
    cbn [parse_tokens].
    apply (parse_post_extra st (add_extra arg st)
             [TokO arg None option_string explicit_arg] rest).
    + done.
    + intros a Ha. by apply has_option_O in Ha.
    + apply IH; [simpl; lia | by apply add_extra_ok].
  - (* the terminator *)
    cbn [parse_tokens]. destruct (positional_pending st).
    + destruct rest as [|[value|arg' o' os' ea'|] rest'].
      * apply (parse_post_extra st (add_extra "--" st) [TokDash] []).
        -- done.
        -- intros a. apply has_option_Dash.
        -- apply IH; [simpl; lia | by apply add_extra_ok].
      * apply (parse_post_positional st ["--"; value] [TokDash; TokA value]
                 rest'); [done| |].
        -- intros a. apply has_option_plain.
           intros t [->|Ht%list_elem_of_singleton]%elem_of_cons; [done|].
           by subst.
        -- intros st1 Hok1. apply IH; [simpl; lia | done].
      * apply (parse_post_extra st (add_extra "--" st) [TokDash]
                 (TokO arg' o' os' ea' :: rest')).
        -- done.
        -- intros a. apply has_option_Dash.
        -- apply IH; [simpl; lia | by apply add_extra_ok].
      * apply (parse_post_extra st (add_extra "--" st) [TokDash]
                 (TokDash :: rest')).
        -- done.
        -- intros a. apply has_option_Dash.
        -- apply IH; [simpl; lia | by apply add_extra_ok].
    + apply (parse_post_extra st (add_extra "--" st) [TokDash] rest).
      * done.
      * intros a. apply has_option_Dash.
      * apply IH; [simpl; lia | by apply add_extra_ok].
Qed.

(** ** The mutually exclusive data sources (claim C5) *)

Lemma classify_supplies a argv toks :
  classify argv = inl toks → (has_option a toks ↔ supplies a argv = true).
Proof.
  revert toks. induction argv as [|arg rest IH]; intros toks; simpl.
  - intros [= <-]. split; [by intros ?%has_option_nil | done].
  - destruct (String.eqb arg "--").
    + intros [= <-]. split; [|done]. intros H. exfalso. revert H.
      apply has_option_plain.
      intros t [->|Ht]%elem_of_cons; [done|].
      by apply list_elem_of_fmap in Ht as (v & -> & _).
    + destruct (parse_optional arg) as [|o os ea|]; [| |done].
      * destruct (classify rest) as [toks'|]; [|done]. intros [= <-].
        change (TokA arg :: toks') with ([TokA arg] ++ toks').
        rewrite has_option_app, <-(IH toks' eq_refl).
        pose proof (has_option_A a arg). naive_solver.
      * destruct (classify rest) as [toks'|]; [|done]. intros [= <-].
        change (TokO arg o os ea :: toks') with ([TokO arg o os ea] ++ toks').
        rewrite has_option_app, has_option_O, (IH toks' eq_refl).
        destruct o as [a'|].
        -- rewrite orb_true_iff, bool_decide_eq_true. naive_solver.
        -- naive_solver.
Qed.

(** The parse of an argument vector: an exit, or the state of a loop that
    went through, with what the loop guarantees. *)
Lemma parse_args_cases argv :
  match parse_args argv with
  | SystemExit status msg =>
      status = 2%Z ∨
      (status = 0%Z ∧ msg = help_text ∧ supplies Help argv = true)
  | Parsed args =>
      ∃ st,
        pstate_ok st ∧
        (∀ a, supplies a argv = true → a ∈ seen st) ∧
        (∀ a, a ∈ seen st → a = SqlScript ∨ supplies a argv = true) ∧
        p_sql_script st = Some (sql_script args) ∧
        p_bigquery_tables st = bigquery_tables args ∧
        p_bigquery_record_format st = bigquery_record_format args ∧
        p_hcfs_dirs st = hcfs_dirs args
  end.
Proof.
  unfold parse_args. destruct (classify argv) as [toks|msg] eqn:Hc; [|by left].
  pose proof (parse_tokens_post toks initial_pstate initial_pstate_ok) as Hpost.
  destruct (parse_tokens toks initial_pstate) as [st|status msg]; simpl in Hpost.
  - destruct Hpost as (Hok & _ & Hopts & Hseen).
    destruct (p_sql_script st) as [script|] eqn:Hscript; [|by left].
    destruct (extras st); [|by left].
    exists st. split_and!; try done.
    + intros a Ha. apply Hopts. by apply (classify_supplies a argv toks).
    + intros a Ha. apply Hseen in Ha as [Ha|[->|Ha]]; [|by left|].
      * by apply elem_of_nil in Ha.
      * right. by apply (classify_supplies a argv toks).
  - destruct Hpost as [->|(-> & -> & Hhelp)]; [by left|]. right.
    split_and!; [done..|]. by apply (classify_supplies Help argv toks).
Qed.

(** C5, as stated, fails: with a help option before them, the two options
    are both supplied and the parser prints the help and exits with status
    0, which is no usage error. *)
Lemma help_before_both_data_sources :
  let argv := ["-h"; "--bigquery-tables"; "a"; "--hcfs-dirs"; "b"] in
  supplies BigqueryTables argv = true ∧
  supplies HcfsDirs argv = true ∧
  parse_args argv = SystemExit 0 help_text ∧
  exit_status (script (world_with_rows "SELECT 1" []) argv) = 0%Z.
Proof. by split_and!. Qed.

(** C5, amended: for every argument vector that supplies both
    [--bigquery-tables] and [--hcfs-dirs], the parser returns no
    configuration and ends the process before any engine session is created:
    with a usage error (status 2), or, only when the vector also supplies a
    help option, with the help text and status 0. Consequently, in every
    configuration that the parser returns, at most one of the two lists of
    data sources is not empty. *)
Theorem both_data_sources_never_parsed :
  (∀ w argv,
     supplies BigqueryTables argv = true →
     supplies HcfsDirs argv = true →
     (∃ status msg,
        parse_args argv = SystemExit status msg ∧
        (status = 2%Z ∨
         (status = 0%Z ∧ msg = help_text ∧ supplies Help argv = true))) ∧
     (supplies Help argv = false → ∃ msg, parse_args argv = SystemExit 2 msg) ∧
     engine_calls (script w argv) = [] ∧
     printed_rows (script w argv) = []) ∧
  (∀ argv args,
     parse_args argv = Parsed args →
     bigquery_tables args = [] ∨ hcfs_dirs args = []).
Proof.
  split.
  - intros w argv Htables Hdirs.
    pose proof (parse_args_cases argv) as Hcases. unfold script.
    destruct (parse_args argv) as [args|status msg].
    + destruct Hcases as (st & (_ & _ & Hexcl) & Hseen & _). destruct Hexcl.
      split; by apply Hseen.
    + split_and!; [by exists status, msg | | done | done].
      intros Hnohelp. destruct Hcases as [->|(_ & _ & Hhelp)]; [by exists msg|].
      congruence.
  - intros argv args Hparse. pose proof (parse_args_cases argv) as Hcases.
    rewrite Hparse in Hcases.
    destruct Hcases as (st & (Ht & Hd & Hexcl) & _ & _ & _ & <- & _ & <-).
    destruct (p_bigquery_tables st) as [|t ts]; [by left|].
    destruct (p_hcfs_dirs st) as [|d ds]; [by right|].
    destruct Hexcl. split; [by apply Ht | by apply Hd].
Qed.

(** Both options, and no help option: a usage error. *)
Lemma both_data_sources_never_parsed_witness :
  ∃ msg,
    parse_args ["q.sql"; "--bigquery-tables"; "p.d.t"; "--hcfs-dirs"; "/d/s"]
    = SystemExit 2 msg.
Proof.
  destruct (proj1 both_data_sources_never_parsed
              (world_with_rows "SELECT 1" [])
              ["q.sql"; "--bigquery-tables"; "p.d.t"; "--hcfs-dirs"; "/d/s"]
              eq_refl eq_refl) as (_ & Herror & _).
  by apply Herror.
Defined.

(** ** The record-format option (claim C10) *)

Lemma plain_eqb s : plain s → String.eqb s "--" = false.
Proof. intros [_ Hs]. by apply String.eqb_neq. Qed.

Lemma classify_plain s rest :
  plain s →
  classify (s :: rest) =
  match classify rest with
  | inl toks => inl (TokA s :: toks)
  | inr msg => inr msg
  end.
Proof.
  intros Hs. cbn [classify]. rewrite (plain_eqb s Hs). by destruct Hs as [-> _].
Qed.

Lemma take_positional s st :
  plain s →
  take_action SqlScript [s] st =
  Continue {| p_sql_script := Some s;
              p_bigquery_tables := p_bigquery_tables st;
              p_bigquery_record_format := p_bigquery_record_format st;
              p_hcfs_dirs := p_hcfs_dirs st;
              seen := SqlScript :: seen st; extras := extras st |}.
Proof.
  intros Hs. unfold take_action. cbn [remove_dashes].
  by rewrite (plain_eqb s Hs).
Qed.

(** With no remote table, [register_views] does not read the hint. *)
Lemma main_without_tables fmt args w st :
  bigquery_tables args = [] →
  main (with_record_format fmt args) w st = main args w st.
Proof.
  intros Htables. unfold main, with_record_format. simpl.
  rewrite Htables. reflexivity.
Qed.

(** *** The option before any argument vector *)

Lemma same_step_bind f0 r1 r2 (k1 k2 : PState → Step) :
  same_step f0 r1 r2 →
  (∀ s1 s2, same_but_format f0 s1 s2 → same_step f0 (k1 s1) (k2 s2)) →
  same_step f0
    match r1 with Continue s => k1 s | Exit a b => Exit a b end
    match r2 with Continue s => k2 s | Exit a b => Exit a b end.
Proof. destruct r1, r2; simpl; auto; done. Qed.

Lemma same_seen f0 st1 st2 a :
  same_but_format f0 st1 st2 → a ≠ BigqueryRecordFormat →
  bool_decide (a ∈ seen st2) = bool_decide (a ∈ seen st1).
Proof. intros (_ & _ & _ & _ & H & _) Ha. apply bool_decide_ext. auto. Qed.

Lemma same_seen_cons f0 st1 st2 a b :
  same_but_format f0 st1 st2 → b ≠ BigqueryRecordFormat →
  b ∈ a :: seen st2 ↔ b ∈ a :: seen st1.
Proof.
  intros (_ & _ & _ & _ & H & _) Hb. rewrite !elem_of_cons, (H b Hb). done.
Qed.

Lemma same_take_action f0 a arg_strings st1 st2 :
  same_but_format f0 st1 st2 →
  same_step f0 (take_action a arg_strings st1) (take_action a arg_strings st2).
Proof.
  intros HR. pose proof HR as (Hs & Ht & Hd & He & Hseen & Hf).
  unfold take_action. destruct a; simpl.
  - done.
  - rewrite Ht, Hd, He. split_and!; try done.
    intros b Hb. by apply (same_seen_cons f0).
  - rewrite (same_seen f0 st1 st2 HcfsDirs HR); [|done].
    case_bool_decide; [done|]. simpl. rewrite Hs, Hd, He.
    split_and!; try done. intros b Hb. by apply (same_seen_cons f0).
  - rewrite Hs, Ht, Hd, He. split_and!; try done; [|by left].
    intros b Hb. by apply (same_seen_cons f0).
  - rewrite (same_seen f0 st1 st2 BigqueryTables HR); [|done].
    case_bool_decide; [done|]. simpl. rewrite Hs, Ht, He.
    split_and!; try done. intros b Hb. by apply (same_seen_cons f0).
Qed.

Lemma same_take_flags f0 flags st1 st2 :
  same_but_format f0 st1 st2 →
  same_step f0 (take_flags flags st1) (take_flags flags st2).
Proof.
  revert st1 st2. induction flags as [|a flags IH]; intros st1 st2 HR; simpl.
  - done.
  - apply (same_step_bind f0 _ _ (take_flags flags) (take_flags flags)).
    + by apply same_take_action.
    + apply IH.
Qed.

Lemma same_add_extra f0 arg st1 st2 :
  same_but_format f0 st1 st2 →
  same_but_format f0 (add_extra arg st1) (add_extra arg st2).
Proof.
  intros (Hs & Ht & Hd & He & Hseen & Hf).
  split_and!; simpl; try done. by rewrite He.
Qed.

Lemma same_positional_pending f0 st1 st2 :
  same_but_format f0 st1 st2 →
  positional_pending st2 = positional_pending st1.
Proof.
  intros (_ & _ & _ & _ & Hseen & _). unfold positional_pending.
  apply bool_decide_ext. by rewrite (Hseen SqlScript).
Qed.

Lemma same_parse_tokens f0 toks :
  ∀ st1 st2,
    same_but_format f0 st1 st2 →
    same_step f0 (parse_tokens toks st1) (parse_tokens toks st2).
Proof.
  induction toks as [toks IH] using (induction_ltof1 _ (@length Tok)).
  unfold ltof in IH. intros st1 st2 HR.
  assert (∀ rest, length rest < length toks →
            ∀ s1 s2, same_but_format f0 s1 s2 →
              same_step f0 (parse_tokens rest s1) (parse_tokens rest s2))
    as IH' by (intros; by apply IH).
  assert (∀ rest arg_strings, length rest < length toks →
            same_step f0
              match take_action SqlScript arg_strings st1 with
              | Exit a b => Exit a b
              | Continue s => parse_tokens rest s
              end
              match take_action SqlScript arg_strings st2 with
              | Exit a b => Exit a b
              | Continue s => parse_tokens rest s
              end) as Hpos.
  { intros rest arg_strings Hlen.
    apply (same_step_bind f0 _ _ (parse_tokens rest) (parse_tokens rest));
      [by apply same_take_action | by apply IH']. }
  assert (∀ rest flags last arg_strings, length rest < length toks →
            same_step f0
              match take_flags flags st1 with
              | Exit a b => Exit a b
              | Continue s =>
                  match take_action last arg_strings s with
                  | Exit a b => Exit a b
                  | Continue s' => parse_tokens rest s'
                  end
              end
              match take_flags flags st2 with
              | Exit a b => Exit a b
              | Continue s =>
                  match take_action last arg_strings s with
                  | Exit a b => Exit a b
                  | Continue s' => parse_tokens rest s'
                  end
              end) as Hopt.
  { intros rest flags last arg_strings Hlen.
    apply (same_step_bind f0 _ _
             (λ s, match take_action last arg_strings s with
                   | Exit a b => Exit a b
                   | Continue s' => parse_tokens rest s'
                   end)
             (λ s, match take_action last arg_strings s with
                   | Exit a b => Exit a b
                   | Continue s' => parse_tokens rest s'
                   end)); [by apply same_take_flags|].
    intros s1 s2 Hs.
    apply (same_step_bind f0 _ _ (parse_tokens rest) (parse_tokens rest));
      [by apply same_take_action | by apply IH']. }
  destruct toks as [|t rest]; [done|].
  destruct t as [value|arg [action|] option_string explicit_arg|];
    cbn [parse_tokens].
  - rewrite (same_positional_pending f0 st1 st2 HR).
    destruct (positional_pending st1).
    + destruct rest as [|[v'|arg' o' os' ea'|] rest'];
        apply Hpos; simpl; lia.
    + apply IH'; [simpl; lia | by apply same_add_extra].
  - destruct (consume_optional action option_string explicit_arg)
      as [flags last [value|]|msg]; [| |done].
    + apply Hopt. simpl. lia.
    + destruct (arg_count last).
      * apply (same_step_bind f0 _ _ (parse_tokens rest) (parse_tokens rest));
          [by apply same_take_flags|].
        intros s1 s2 Hs. apply IH'; [simpl; lia | done].
      * destruct rest as [|[v'|arg' o' os' ea'|] rest']; try done.
        apply Hopt. simpl. lia.
  - apply IH'; [simpl; lia | by apply same_add_extra].
  - rewrite (same_positional_pending f0 st1 st2 HR).
    destruct (positional_pending st1).
    + destruct rest as [|[v'|arg' o' os' ea'|] rest'].
      * apply IH'; [simpl; lia | by apply same_add_extra].
      * apply Hpos. simpl. lia.
      * apply IH'; [simpl; lia | by apply same_add_extra].
      * apply IH'; [simpl; lia | by apply same_add_extra].
    + apply IH'; [simpl; lia | by apply same_add_extra].
Qed.

Lemma parse_optional_record_format_eq value :
  parse_optional ("--bigquery-record-format=" +:+ value)
  = IsOptional (Some BigqueryRecordFormat) "--bigquery-record-format"
      (Some value).
Proof. reflexivity. Qed.

(** The option [--bigquery-record-format=value] before an argument vector
    changes nothing but the record format of the configuration: the parser
    exits as it does without it, or returns the same configuration, with the
    value of the option unless the vector gives the option again. *)
Lemma parse_args_with_record_format value argv :
  match parse_args argv with
  | SystemExit status msg =>
      parse_args (("--bigquery-record-format=" +:+ value) :: argv)
      = SystemExit status msg
  | Parsed args =>
      ∃ fmt,
        parse_args (("--bigquery-record-format=" +:+ value) :: argv)
        = Parsed (with_record_format fmt args) ∧
        (fmt = bigquery_record_format args ∨
         (bigquery_record_format args = None ∧ fmt = explicit_value value))
  end.
Proof.
  unfold parse_args at 2 3. cbn [classify].
  change (String.eqb ("--bigquery-record-format=" +:+ value) "--") with false.
  cbv iota. rewrite parse_optional_record_format_eq.
  unfold parse_args. destruct (classify argv) as [toks|msg]; [|done].
  cbn [parse_tokens consume_optional].
  assert (consume_explicit BigqueryRecordFormat "--bigquery-record-format"
            value []
          = Actions [] BigqueryRecordFormat (Some value)) as ->
    by (by destruct value).
  cbn [take_flags].
  set (st0 := {| p_sql_script := None; p_bigquery_tables := [];
                 p_bigquery_record_format := explicit_value value;
                 p_hcfs_dirs := [];
                 seen := [BigqueryRecordFormat]; extras := [] |}).
  change (take_action BigqueryRecordFormat [value] initial_pstate)
    with (Continue st0).
  assert (same_but_format (explicit_value value) initial_pstate st0) as HR.
  { split_and!; try done; [|by right].
    intros a Ha. simpl. rewrite list_elem_of_singleton, elem_of_nil.
    naive_solver. }
  pose proof (same_parse_tokens (explicit_value value) toks _ _ HR) as Hsame.
  destruct (parse_tokens toks initial_pstate) as [st1|status msg],
    (parse_tokens toks st0) as [st2|status' msg']; simpl in Hsame; try done.
  - destruct Hsame as (Hs & Ht & Hd & He & _ & Hf). rewrite Hs, He.
    destruct (p_sql_script st1) as [script|]; [|done].
    destruct (extras st1); [|done].
    exists (p_bigquery_record_format st2). split; [|done].
    unfold with_record_format. simpl. by rewrite Ht, Hd.
  - by destruct Hsame as [-> ->].
Qed.

(** *** Command lines made of items *)

Lemma prefix_in_prefixes s t : String.prefix s t = true → s ∈ prefixes t.
Proof.
  revert s. induction t as [|b t IH]; intros [|a s]; simpl; try done.
  - intros _. left.
  - intros _. left.
  - destruct (ascii_dec a b) as [->|]; [|done]. intros H. right.
    apply list_elem_of_fmap. exists s. auto.
Qed.

Lemma takes_value_cases a long short :
  (a, long, short) ∈ value_options →
  (a = BigqueryTables ∧ long = "--bigquery-tables" ∧ short = "--bigquery-t") ∨
  (a = BigqueryRecordFormat ∧ long = "--bigquery-record-format" ∧
   short = "--bigquery-r") ∨
  (a = HcfsDirs ∧ long = "--hcfs-dirs" ∧ short = "--hc").
Proof. unfold value_options. set_solver. Qed.

Lemma take_option_value a long short v st :
  (a, long, short) ∈ value_options → v ≠ "--" →
  Forall (λ c, c ∉ seen st) (action_conflicts a) →
  ∃ st',
    take_action a [v] st = Continue st' ∧
    p_sql_script st' = p_sql_script st ∧
    p_bigquery_tables st' =
      match a with
      | BigqueryTables => comma_separated_list v
      | _ => p_bigquery_tables st
      end ∧
    p_bigquery_record_format st' =
      match a with
      | BigqueryRecordFormat => Some v
      | _ => p_bigquery_record_format st
      end ∧
    p_hcfs_dirs st' =
      match a with
      | HcfsDirs => comma_separated_list v
      | _ => p_hcfs_dirs st
      end ∧
    seen st' = a :: seen st ∧ extras st' = extras st.
Proof.
  intros Ha Hv Hfree. apply String.eqb_neq in Hv.
  unfold take_action. cbn [remove_dashes]. rewrite Hv.
  apply takes_value_cases in Ha
    as [(-> & _)|[(-> & _)|(-> & _)]]; cbn [action_conflicts find] in *.
  - rewrite Forall_singleton in Hfree. rewrite bool_decide_eq_false_2 by done.
    eexists. by split_and!.
  - eexists. by split_and!.
  - rewrite Forall_singleton in Hfree. rewrite bool_decide_eq_false_2 by done.
    eexists. by split_and!.
Qed.

Lemma consume_explicit_value a long short v :
  (a, long, short) ∈ value_options →
  consume_explicit a long v [] = Actions [] a (Some v).
Proof.
  intros Ha. apply takes_value_cases in Ha
    as [(-> & -> & _)|[(-> & -> & _)|(-> & -> & _)]]; by destruct v.
Qed.

(** Every string from the shortest abbreviation of an option to its option
    string is read as that option. *)
Lemma parse_optional_abbreviation a long short arg :
  (a, long, short) ∈ value_options →
  String.prefix short arg = true → String.prefix arg long = true →
  arg ≠ "--" ∧ ∃ os, parse_optional arg = IsOptional (Some a) os None.
Proof.
  intros Ha Hlow Hup. apply prefix_in_prefixes in Hup.
  apply takes_value_cases in Ha
    as [(-> & -> & ->)|[(-> & -> & ->)|(-> & -> & ->)]];
    vm_compute in Hup;
    repeat (apply elem_of_cons in Hup as [->|Hup];
            [first [by vm_compute in Hlow | split; [done|by eexists]]|]);
    by apply elem_of_nil in Hup.
Qed.

Lemma parse_optional_explicit a long short v :
  (a, long, short) ∈ value_options →
  long +:+ "=" +:+ v ≠ "--" ∧
  parse_optional (long +:+ "=" +:+ v) = IsOptional (Some a) long (Some v).
Proof.
  intros Ha. apply takes_value_cases in Ha
    as [(-> & -> & _)|[(-> & -> & _)|(-> & -> & _)]]; by split.
Qed.

Lemma parse_args_finish argv toks :
  classify argv = inl toks →
  parse_args argv = finish (parse_tokens toks initial_pstate).
Proof. intros Hc. unfold parse_args. by rewrite Hc. Qed.

Lemma value_option_count a long short :
  (a, long, short) ∈ value_options → arg_count a = 1.
Proof.
  by intros [(-> & _)|[(-> & _)|(-> & _)]]%takes_value_cases.
Qed.

Lemma classify_cons arg rest :
  classify (arg :: rest) =
  if String.eqb arg "--" then inl (TokDash :: (TokA <$> rest))
  else
    match parse_optional arg with
    | IsAmbiguous =>
        inr ("ambiguous option: " +:+ arg +:+ " could match " +:+
             String.concat ", " ((λ t, t.1.2) <$> get_option_tuples arg))
    | IsPositional =>
        match classify rest with
        | inl toks => inl (TokA arg :: toks)
        | inr msg => inr msg
        end
    | IsOptional action option_string explicit_arg =>
        match classify rest with
        | inl toks => inl (TokO arg action option_string explicit_arg :: toks)
        | inr msg => inr msg
        end
    end.
Proof. reflexivity. Qed.

(** The classified strings of a command line of items, and the parser's
    loop on them: item after item. *)
Lemma classify_items items :
  Forall item_ok items →
  ∃ toks,
    classify (command_line items) = inl toks ∧
    head toks ≠ Some TokDash ∧
    ∀ st, parse_tokens toks st = run_items items st.
Proof.
  induction items as [|it items IH]; intros Hok.
  { by exists []. }
  apply Forall_cons in Hok as [Hit Hok].
  destruct (IH Hok) as (toks & Hc & Hhead & Hrun).
  change (command_line (it :: items))
    with (item_strings it ++ command_line items).
  destruct it as [script|a arg value|a long value];
    cbn [item_strings app item_ok] in *.
  - rewrite (classify_plain script _ Hit), Hc.
    exists (TokA script :: toks). split_and!; [done | done |].
    intros st. cbn [parse_tokens run_items run_item].
    destruct (positional_pending st); [|apply Hrun].
    destruct toks as [|[v|arg' o' os' ea'|] toks']; [| | |done];
      destruct (take_action SqlScript [script] st); try done; apply Hrun.
  - destruct Hit as (Hvalue & long & short & Ha & Hlow & Hup).
    destruct (parse_optional_abbreviation a long short arg Ha Hlow Hup)
      as (Harg & os & Hopt).
    apply String.eqb_neq in Harg. rewrite classify_cons, Harg, Hopt.
    rewrite (classify_plain value _ Hvalue), Hc.
    exists (TokO arg (Some a) os None :: TokA value :: toks).
    split_and!; [done | done |].
    intros st. cbn [parse_tokens run_items run_item consume_optional].
    rewrite (value_option_count a long short Ha). cbn [take_flags].
    destruct (take_action a [value] st); [apply Hrun | done].
  - destruct Hit as (Hvalue & short & Ha).
    destruct (parse_optional_explicit a long short value Ha) as (Harg & Hopt).
    apply String.eqb_neq in Harg. rewrite classify_cons, Harg, Hopt, Hc.
    exists (TokO (long +:+ "=" +:+ value) (Some a) long (Some value) :: toks).
    split_and!; [done | done |].
    intros st. cbn [parse_tokens run_items run_item consume_optional].
    rewrite (consume_explicit_value a long short value Ha). cbn [take_flags].
    destruct (take_action a [value] st); [apply Hrun | done].
Qed.

Lemma parse_args_items items :
  Forall item_ok items →
  parse_args (command_line items) = finish (run_items items initial_pstate).
Proof.
  intros Hok. destruct (classify_items items Hok) as (toks & Hc & _ & Hrun).
  by rewrite (parse_args_finish _ toks Hc), Hrun.
Qed.

(** *** The record-format items change nothing else *)

Lemma same_rf_seen st1 st2 a :
  same_but_rf st1 st2 → a ≠ BigqueryRecordFormat →
  bool_decide (a ∈ seen st1) = bool_decide (a ∈ seen st2).
Proof. intros (_ & _ & _ & _ & H) Ha. apply bool_decide_ext. auto. Qed.

Lemma same_rf_seen_cons st1 st2 a b :
  same_but_rf st1 st2 → b ≠ BigqueryRecordFormat →
  b ∈ a :: seen st1 ↔ b ∈ a :: seen st2.
Proof.
  intros (_ & _ & _ & _ & H) Hb. rewrite !elem_of_cons, (H b Hb). done.
Qed.

Lemma same_rf_take_action a arg_strings st1 st2 :
  same_but_rf st1 st2 → a ≠ BigqueryRecordFormat →
  same_step_rf (take_action a arg_strings st1) (take_action a arg_strings st2).
Proof.
  intros HR Ha. pose proof HR as (Hs & Ht & Hd & He & Hseen).
  unfold take_action. destruct a; simpl.
  - done.
  - rewrite Ht, Hd, He. split_and!; try done.
    intros b Hb. by apply same_rf_seen_cons.
  - rewrite (same_rf_seen st1 st2 HcfsDirs HR); [|done].
    case_bool_decide; [done|]. simpl. rewrite Hs, Hd, He.
    split_and!; try done. intros b Hb. by apply same_rf_seen_cons.
  - done.
  - rewrite (same_rf_seen st1 st2 BigqueryTables HR); [|done].
    case_bool_decide; [done|]. simpl. rewrite Hs, Ht, He.
    split_and!; try done. intros b Hb. by apply same_rf_seen_cons.
Qed.

Lemma same_rf_record_format arg_strings st1 st2 :
  same_but_rf st1 st2 →
  ∃ st2', take_action BigqueryRecordFormat arg_strings st2 = Continue st2' ∧
          same_but_rf st1 st2'.
Proof.
  intros (Hs & Ht & Hd & He & Hseen). eexists. split; [reflexivity|].
  split_and!; try done. intros a Ha. cbn [seen]. rewrite elem_of_cons.
  rewrite (Hseen a Ha). naive_solver.
Qed.

Lemma same_rf_run_item it st1 st2 :
  same_but_rf st1 st2 → item_action it ≠ BigqueryRecordFormat →
  same_step_rf (run_item it st1) (run_item it st2).
Proof.
  intros HR Ha. destruct it as [script|a arg value|a long value];
    cbn [run_item item_action] in *.
  - assert (positional_pending st1 = positional_pending st2) as ->.
    { unfold positional_pending. apply bool_decide_ext.
      destruct HR as (_ & _ & _ & _ & Hseen). by rewrite (Hseen SqlScript). }
    destruct (positional_pending st2); [by apply same_rf_take_action|].
    destruct HR as (Hs & Ht & Hd & He & Hseen).
    split_and!; simpl; try done. by rewrite He.
  - by apply same_rf_take_action.
  - by apply same_rf_take_action.
Qed.

Lemma same_rf_run_items items :
  ∀ st1 st2, same_but_rf st1 st2 →
    same_step_rf (run_items (without_record_format items) st1)
      (run_items items st2).
Proof.
  induction items as [|it items IH]; intros st1 st2 HR; [done|].
  unfold without_record_format.
  destruct (decide (item_action it = BigqueryRecordFormat)) as [Ha|Ha].
  - rewrite filter_cons_False by (by intros ?).
    fold (without_record_format items). cbn [run_items].
    assert (∃ st2', run_item it st2 = Continue st2' ∧ same_but_rf st1 st2')
      as (st2' & -> & HR').
    { destruct it as [script|a arg value|a long value];
        cbn [item_action] in Ha; [done| |]; subst a;
        by apply same_rf_record_format. }
    by apply IH.
  - rewrite filter_cons_True by done.
    fold (without_record_format items). cbn [run_items].
    pose proof (same_rf_run_item it st1 st2 HR Ha) as Hstep.
    destruct (run_item it st1) as [st1'|s1 m1], (run_item it st2) as [st2'|s2 m2];
      try done. by apply IH.
Qed.

Lemma same_rf_finish r1 r2 :
  same_step_rf r1 r2 → same_but_record_format (finish r1) (finish r2).
Proof.
  destruct r1 as [st1|s1 m1], r2 as [st2|s2 m2]; try done.
  intros (Hs & Ht & Hd & He & _). cbn [finish]. rewrite Hs, He, Ht, Hd.
  destruct (p_sql_script st2); [|done]. destruct (extras st2); [|done].
  by exists (p_bigquery_record_format st2).
Qed.

Lemma without_record_format_ok items :
  Forall item_ok items → Forall item_ok (without_record_format items).
Proof.
  rewrite !Forall_forall. intros Hok it Hit. apply Hok.
  by apply list_elem_of_filter in Hit as [_ ?].
Qed.

Lemma same_rf_refl st : same_but_rf st st.
Proof. by split_and!. Qed.

(** *** The command lines that the parser accepts *)

Lemma pending_cons a st st' :
  seen st' = a :: seen st → a ≠ SqlScript →
  positional_pending st' = positional_pending st.
Proof.
  intros Hseen Ha. unfold positional_pending. apply bool_decide_ext.
  rewrite Hseen, not_elem_of_cons. naive_solver.
Qed.

Lemma run_items_fields excluded items :
  excluded = BigqueryTables ∨ excluded = HcfsDirs →
  Forall item_ok items →
  (∀ it, it ∈ items → item_action it ≠ excluded) →
  ∀ st, excluded ∉ seen st →
  ∃ st',
    run_items items st = Continue st' ∧
    p_bigquery_tables st' =
      match last_value BigqueryTables items with
      | Some v => comma_separated_list v
      | None => p_bigquery_tables st
      end ∧
    p_bigquery_record_format st' =
      match last_value BigqueryRecordFormat items with
      | Some v => Some v
      | None => p_bigquery_record_format st
      end ∧
    p_hcfs_dirs st' =
      match last_value HcfsDirs items with
      | Some v => comma_separated_list v
      | None => p_hcfs_dirs st
      end ∧
    (if positional_pending st
     then match scripts items with
          | [] => p_sql_script st' = p_sql_script st ∧ extras st' = extras st
          | s :: more =>
              p_sql_script st' = Some s ∧ extras st' = extras st ++ more
          end
     else p_sql_script st' = p_sql_script st ∧
          extras st' = extras st ++ scripts items).
Proof.
  intros Hex Hok Hne.
  induction items as [|it items IH]; intros st Hst.
  { exists st. split_and!; try done.
    destruct (positional_pending st); [done|]. by rewrite app_nil_r. }
  apply Forall_cons in Hok as [Hit Hok].
  assert (item_action it ≠ excluded) as Hitne by (apply Hne; left).
  assert (∀ it', it' ∈ items → item_action it' ≠ excluded) as Hne'
    by (intros it' H; apply Hne; by right).
  specialize (IH Hok Hne').
  destruct it as [script|a arg value|a long value];
    cbn [run_items run_item item_ok item_action] in *.
  - (* the query file *)
    destruct (positional_pending st) eqn:Hpend.
    + rewrite (take_positional script st Hit).
      match goal with |- context [run_items items ?s] => set (st1 := s) end.
      destruct (IH st1) as (st' & -> & Ht & Hf & Hd & Hs).
      { cbn [seen st1]. rewrite not_elem_of_cons. split; [|done].
        by destruct Hex as [-> | ->]. }
      assert (positional_pending st1 = false) as Hp1.
      { unfold positional_pending. apply bool_decide_eq_false. intros H.
        apply H. left. }
      rewrite Hp1 in Hs. destruct Hs as [Hs He].
      exists st'. split; [done|].
      cbn [last_value item_action scripts omap] in *.
      fold (scripts items).
      rewrite !bool_decide_eq_false_2 by done.
      destruct (last_value BigqueryTables items),
        (last_value BigqueryRecordFormat items),
        (last_value HcfsDirs items); by split_and!.
    + destruct (IH (add_extra script st)) as (st' & -> & Ht & Hf & Hd & Hs);
        [done|].
      change (positional_pending (add_extra script st))
        with (positional_pending st) in Hs. rewrite Hpend in Hs.
      destruct Hs as [Hs He]. exists st'. split; [done|].
      cbn [last_value item_action scripts omap] in *.
      fold (scripts items).
      rewrite !bool_decide_eq_false_2 by done.
      cbn [add_extra extras p_sql_script p_bigquery_tables
             p_bigquery_record_format p_hcfs_dirs] in *.
      rewrite <-app_assoc in He.
      destruct (last_value BigqueryTables items),
        (last_value BigqueryRecordFormat items),
        (last_value HcfsDirs items); by split_and!.
  - (* an option and its value *)
    destruct Hit as ([_ Hvalue] & long & short & Ha & _).
    destruct (take_option_value a long short value st Ha Hvalue)
      as (st1 & -> & Hs1 & Ht1 & Hf1 & Hd1 & Hseen1 & He1).
    { apply takes_value_cases in Ha as [(-> & _)|[(-> & _)|(-> & _)]];
        cbn [action_conflicts]; repeat constructor;
        by destruct Hex as [-> | ->]. }
    destruct (IH st1) as (st' & -> & Ht & Hf & Hd & Hs).
    { rewrite Hseen1, not_elem_of_cons. by split. }
    rewrite (pending_cons a st st1 Hseen1) in Hs
      by (by apply takes_value_cases in Ha as [(-> & _)|[(-> & _)|(-> & _)]]).
    exists st'. split; [done|].
    rewrite Hs1, He1 in Hs. rewrite Ht1 in Ht. rewrite Hf1 in Hf.
    rewrite Hd1 in Hd.
    cbn [last_value item_action item_value scripts omap].
    fold (scripts items).
    apply takes_value_cases in Ha as [(-> & _)|[(-> & _)|(-> & _)]];
      rewrite ?bool_decide_eq_true_2 by done;
      rewrite ?bool_decide_eq_false_2 by done;
      destruct (last_value BigqueryTables items),
        (last_value BigqueryRecordFormat items),
        (last_value HcfsDirs items); by split_and!.
  - (* an option with its value after the equals sign *)
    destruct Hit as (Hvalue & short & Ha).
    destruct (take_option_value a long short value st Ha Hvalue)
      as (st1 & -> & Hs1 & Ht1 & Hf1 & Hd1 & Hseen1 & He1).
    { apply takes_value_cases in Ha as [(-> & _)|[(-> & _)|(-> & _)]];
        cbn [action_conflicts]; repeat constructor;
        by destruct Hex as [-> | ->]. }
    destruct (IH st1) as (st' & -> & Ht & Hf & Hd & Hs).
    { rewrite Hseen1, not_elem_of_cons. by split. }
    rewrite (pending_cons a st st1 Hseen1) in Hs
      by (by apply takes_value_cases in Ha as [(-> & _)|[(-> & _)|(-> & _)]]).
    exists st'. split; [done|].
    rewrite Hs1, He1 in Hs. rewrite Ht1 in Ht. rewrite Hf1 in Hf.
    rewrite Hd1 in Hd.
    cbn [last_value item_action item_value scripts omap].
    fold (scripts items).
    apply takes_value_cases in Ha as [(-> & _)|[(-> & _)|(-> & _)]];
      rewrite ?bool_decide_eq_true_2 by done;
      rewrite ?bool_decide_eq_false_2 by done;
      destruct (last_value BigqueryTables items),
        (last_value BigqueryRecordFormat items),
        (last_value HcfsDirs items); by split_and!.
Qed.

(** C10: [--bigquery-record-format] is not in the mutually exclusive group.
    A command line made of the query file and of options with their values
    (each option spelled in full or abbreviated, its value in the next
    string or after [=]), in any order and with any repetition, is accepted
    whenever it holds one query file and does not hold both
    [--bigquery-tables] and [--hcfs-dirs]: with the record format and
    [--hcfs-dirs], and with the record format and no data source, in
    particular; each option then has its last value. Whatever the items of a
    command line, those of the record format change nothing but the record
    format of the configuration: without them the parser ends in the same
    way. The same holds of the option written before any argument vector
    that the parser accepts. In a configuration parsed from a vector that
    does not supply [--bigquery-tables] there is no remote table, and the
    run of [main] is the same whatever the record format: the hint changes
    no reader and no view. *)
Theorem record_format_outside_exclusive_group :
  (∀ items script excluded,
     excluded = BigqueryTables ∨ excluded = HcfsDirs →
     Forall item_ok items →
     scripts items = [script] →
     (∀ it, it ∈ items → item_action it ≠ excluded) →
     parse_args (command_line items) = Parsed (items_args script items)) ∧
  (∀ items,
     Forall item_ok items →
     same_but_record_format
       (parse_args (command_line (without_record_format items)))
       (parse_args (command_line items))) ∧
  (∀ value argv args,
     parse_args argv = Parsed args →
     ∃ fmt,
       parse_args (("--bigquery-record-format=" +:+ value) :: argv)
       = Parsed (with_record_format fmt args)) ∧
  (∀ argv args,
     parse_args argv = Parsed args →
     supplies BigqueryTables argv = false →
     bigquery_tables args = [] ∧
     ∀ fmt w st, main (with_record_format fmt args) w st = main args w st).
Proof.
  split_and!.
  - intros items script excluded Hex Hok Hscripts Hne.
    rewrite (parse_args_items items Hok).
    destruct (run_items_fields excluded items Hex Hok Hne initial_pstate)
      as (st' & -> & Ht & Hf & Hd & Hs).
    { cbn [seen initial_pstate]. apply not_elem_of_nil. }
    change (positional_pending initial_pstate) with true in Hs.
    rewrite Hscripts in Hs. destruct Hs as [Hs He].
    cbn [finish]. rewrite Hs, He, Ht, Hf, Hd. cbn [app initial_pstate
      extras p_bigquery_tables p_bigquery_record_format p_hcfs_dirs].
    unfold items_args, list_value.
    by destruct (last_value BigqueryTables items),
      (last_value BigqueryRecordFormat items), (last_value HcfsDirs items).
  - intros items Hok.
    rewrite (parse_args_items items Hok).
    rewrite (parse_args_items _ (without_record_format_ok items Hok)).
    apply same_rf_finish, same_rf_run_items, same_rf_refl.
  - intros value argv args Hparse.
    pose proof (parse_args_with_record_format value argv) as H.
    rewrite Hparse in H. destruct H as (fmt & H & _). by exists fmt.
  - intros argv args Hparse Hnone.
    pose proof (parse_args_cases argv) as Hcases. rewrite Hparse in Hcases.
    destruct Hcases as (st & (Ht & _) & _ & Hseen & _ & Htables & _).
    assert (bigquery_tables args = []) as Hempty.
    { rewrite <-Htables. destruct (p_bigquery_tables st) as [|t ts]; [done|].
      destruct (Hseen BigqueryTables) as [?|Hs]; [by apply Ht | done |].
      congruence. }
    split; [done|]. intros fmt w st0. by apply main_without_tables.
Qed.

(** The directories first, then the hint AVRO, abbreviated, then the query
    file. *)
Lemma record_format_outside_exclusive_group_witness :
  parse_args ["--hcfs-dirs"; "/data/sales"; "--bigquery-record";
              "AVRO"; "q.sql"]
  = Parsed {| sql_script := "q.sql"; bigquery_tables := [];
              bigquery_record_format := Some "AVRO";
              hcfs_dirs := ["/data/sales"] |}.
Proof.
  apply (proj1 record_format_outside_exclusive_group
           [ ItOption HcfsDirs "--hcfs-dirs" "/data/sales";
             ItOption BigqueryRecordFormat "--bigquery-record" "AVRO";
             ItScript "q.sql" ] "q.sql" BigqueryTables).
  - by left.
  - apply Forall_cons. split.
    { split; [by split|]. exists "--hcfs-dirs", "--hc".
      split_and!; [right; right; left | done | done]. }
    apply Forall_cons. split.
    { split; [by split|]. exists "--bigquery-record-format", "--bigquery-r".
      split_and!; [right; left | done | done]. }
    apply Forall_cons. split; [by split | by apply Forall_nil].
  - reflexivity.
  - intros it Hit.
    repeat (apply elem_of_cons in Hit as [->|Hit]; [done|]).
    by apply elem_of_nil in Hit.
Defined.

(** ** Further properties: lists of identifiers and view names *)

Section split_join.
Variable sep : ascii.

Lemma split_pieces_sep_free s : Forall (sep_free sep) (PyStr.split sep s).
Proof.
  induction s as [|c s IH]; simpl.
  - by repeat constructor.
  - destruct (Ascii.eqb c sep) eqn:Hc.
    + by constructor.
    + pose proof (split_nonempty sep s) as Hne.
      destruct (PyStr.split sep s) as [|w ws]; [done|].
      apply Forall_cons in IH as [Hw Hws]. constructor; [|done].
      unfold sep_free in *. simpl. by rewrite Hc.
Qed.

Lemma join_split s : join_with sep (PyStr.split sep s) = s.
Proof.
  unfold join_with. induction s as [|c s IH]; [done|].
  pose proof (split_nonempty sep s) as Hne. cbn [PyStr.split].
  destruct (Ascii.eqb c sep) eqn:Hc.
  - apply Ascii.eqb_eq in Hc as ->.
    destruct (PyStr.split sep s) as [|w ws]; [done|].
    rewrite <-IH. reflexivity.
  - destruct (PyStr.split sep s) as [|w ws]; [done|].
    rewrite <-IH. by destruct ws.
Qed.

Lemma split_sep_free w : sep_free sep w → PyStr.split sep w = [w].
Proof.
  unfold sep_free. induction w as [|c w IH]; simpl; [done|].
  destruct (Ascii.eqb c sep); [done|]. simpl. intros Hw. by rewrite IH.
Qed.

Lemma split_piece_then w rest :
  sep_free sep w →
  PyStr.split sep (w +:+ String sep rest) = w :: PyStr.split sep rest.
Proof.
  unfold sep_free. induction w as [|c w IH].
  - intros _. change (PyStr.split sep (String sep rest) = "" :: PyStr.split sep rest).
    simpl. by rewrite Ascii.eqb_refl.
  - simpl. destruct (Ascii.eqb c sep) eqn:Hc; [done|]. simpl. intros Hw.
    by rewrite IH.
Qed.

Lemma split_join pieces :
  pieces ≠ [] → Forall (sep_free sep) pieces →
  PyStr.split sep (join_with sep pieces) = pieces.
Proof.
  unfold join_with. induction pieces as [|w ws IH]; [done|].
  intros _ [Hw Hws]%Forall_cons. destruct ws as [|w' ws].
  - simpl. by apply split_sep_free.
  - change (String.concat (String sep "") (w :: w' :: ws))
      with (w +:+ String sep (String.concat (String sep "") (w' :: ws))).
    rewrite split_piece_then; [|done]. by rewrite IH.
Qed.

Lemma last_of_front_sep_name front name :
  sep_free sep name →
  PyStr.last_item (PyStr.split sep (front +:+ String sep name)) = name.
Proof.
  intros Hname.
  apply (final_component_unique sep (front +:+ String sep name)).
  - apply last_split_final_component.
  - split; [done|]. right. by exists front.
Qed.

Lemma last_of_sep_free name :
  sep_free sep name → PyStr.last_item (PyStr.split sep name) = name.
Proof. intros Hname. by rewrite split_sep_free. Qed.

End split_join.

(** X1: [comma_separated_list] keeps everything between the commas: joining
    its pieces with commas gives the option value back, no piece holds a
    comma, and there is always at least one piece (an empty value gives one
    empty identifier). Nothing is trimmed, dropped or merged. *)
Theorem comma_separated_list_join value :
  join_with "," (comma_separated_list value) = value ∧
  Forall (sep_free ",") (comma_separated_list value) ∧
  comma_separated_list value ≠ [] ∧
  comma_separated_list "" = [""].
Proof.
  split_and!.
  - apply join_split.
  - apply split_pieces_sep_free.
  - apply split_nonempty.
  - reflexivity.
Qed.

(** X2: every list of identifiers that is not empty and whose identifiers
    hold no comma is the value of [comma_separated_list] on their join: the
    identifiers come back as they are, in their order, with their
    repetitions. *)
Theorem comma_separated_list_of_join pieces :
  pieces ≠ [] → Forall (sep_free ",") pieces →
  comma_separated_list (join_with "," pieces) = pieces.
Proof. apply split_join. Qed.

Lemma comma_separated_list_of_join_witness :
  comma_separated_list (join_with "," ["p.d.a"; " p.d.a"; ""; "p.d.a"])
  = ["p.d.a"; " p.d.a"; ""; "p.d.a"].
Proof.
  apply comma_separated_list_of_join; [done|].
  by repeat constructor.
Defined.

(** X3: the view name of a string is what follows its last separator: a
    table [front.name] whose [name] holds no dot gets the view name [name],
    and a directory [front/name] whose [name] holds no '/' gets [name]; a
    string without the separator is its own view name. A directory written
    with a final '/' and a table written with a final '.' get the empty view
    name. *)
Theorem view_name_after_last_separator :
  (∀ front name, sep_free "." name →
     table_view_name (front +:+ String "." name) = name) ∧
  (∀ front name, sep_free "/" name →
     dir_view_name (front +:+ String "/" name) = name) ∧
  (∀ table, sep_free "." table → table_view_name table = table) ∧
  (∀ hcfs_dir, sep_free "/" hcfs_dir → dir_view_name hcfs_dir = hcfs_dir) ∧
  (∀ front, table_view_name (front +:+ ".") = "") ∧
  (∀ front, dir_view_name (front +:+ "/") = "").
Proof.
  split_and!.
  - intros front name. apply last_of_front_sep_name.
  - intros front name. apply last_of_front_sep_name.
  - intros table. apply last_of_sep_free.
  - intros hcfs_dir. apply last_of_sep_free.
  - intros front. by apply last_of_front_sep_name.
  - intros front. by apply last_of_front_sep_name.
Qed.

Lemma view_name_after_last_separator_witness :
  dir_view_name ("gs://bucket/data" +:+ String "/" "sales.parquet")
  = "sales.parquet".
Proof.
  by apply (proj1 (proj2 view_name_after_last_separator)).
Defined.

(** ** Further properties: the argument parser *)

Lemma parse_keeps_refl st : parse_keeps st [] st.
Proof.
  split_and!; auto. intros arg os ea H. by apply elem_of_nil in H.
Qed.

Lemma parse_keeps_trans st st2 st' pre rest :
  parse_keeps st pre st2 → parse_keeps st2 rest st' →
  parse_keeps st (pre ++ rest) st'.
Proof.
  intros (Hs1 & Ht1 & Hf1 & Hd1 & He1 & Hu1 & Hh1)
         (Hs2 & Ht2 & Hf2 & Hd2 & He2 & Hu2 & Hh2).
  split_and!.
  - intros s Hs. setoid_rewrite elem_of_app.
    apply Hs2 in Hs as [Hs|Hs]; [|auto]. apply Hs1 in Hs. naive_solver.
  - rewrite has_option_app. destruct Ht2 as [->|?]; [|auto].
    destruct Ht1; auto.
  - rewrite has_option_app. destruct Hf2 as [->|?]; [|auto].
    destruct Hf1; auto.
  - rewrite has_option_app. destruct Hd2 as [->|?]; [|auto].
    destruct Hd1; auto.
  - auto.
  - intros arg os ea [H|H]%elem_of_app; eauto.
  - auto.
Qed.

Lemma take_action_help arg_strings st st' :
  take_action Help arg_strings st ≠ Continue st'.
Proof. done. Qed.

(** What one action changes in the namespace. *)
Lemma take_action_fields a arg_strings st st' :
  take_action a arg_strings st = Continue st' →
  extras st' = extras st ∧ seen st' = a :: seen st ∧ a ≠ Help ∧
  (p_sql_script st' =
     if bool_decide (a = SqlScript) then head (remove_dashes arg_strings)
     else p_sql_script st) ∧
  (a ≠ BigqueryTables → p_bigquery_tables st' = p_bigquery_tables st) ∧
  (a ≠ BigqueryRecordFormat →
     p_bigquery_record_format st' = p_bigquery_record_format st) ∧
  (a ≠ HcfsDirs → p_hcfs_dirs st' = p_hcfs_dirs st).
Proof.
  unfold take_action. destruct a; simpl; try done.
  - by intros [= <-].
  - case_bool_decide; [done|]. by intros [= <-].
  - by intros [= <-].
  - case_bool_decide; [done|]. by intros [= <-].
Qed.

(** The positional takes a plain argument of the strings consumed. *)
Lemma parse_keeps_positional st st1 arg_strings v pre :
  take_action SqlScript arg_strings st = Continue st1 →
  TokA v ∈ pre →
  (∀ t, t ∈ pre → match t with TokO _ _ _ _ => False | _ => True end) →
  head (remove_dashes arg_strings) = Some v ∨
  head (remove_dashes arg_strings) = None →
  parse_keeps st pre st1.
Proof.
  intros Ha Hv Hpre Hhead.
  apply take_action_fields in Ha as (He & Hseen & _ & Hs & Ht & Hf & Hd).
  simpl in Hs. split_and!.
  - intros s. rewrite Hs. destruct Hhead as [-> | ->]; [|done].
    intros [= <-]. by right.
  - left. by apply Ht.
  - left. by apply Hf.
  - left. by apply Hd.
  - intros e. by rewrite He.
  - intros arg os ea H. by apply Hpre in H.
  - rewrite Hseen. intros [?|?]%elem_of_cons; done.
Qed.

Lemma parse_keeps_extra st arg pre :
  (∀ a os ea, TokO a None os ea ∈ pre → a = arg) →
  parse_keeps st pre (add_extra arg st).
Proof.
  intros Hpre. split_and!; simpl; auto.
  - intros e He. apply elem_of_app. by left.
  - intros a os ea H. apply Hpre in H as ->.
    apply elem_of_app. right. left.
Qed.

(** An option takes its own value. *)
Lemma parse_keeps_action st st1 a arg_strings pre :
  take_action a arg_strings st = Continue st1 →
  a ≠ SqlScript →
  has_option a pre →
  (∀ arg os ea, TokO arg None os ea ∉ pre) →
  parse_keeps st pre st1.
Proof.
  intros Ha Hne Hopt Hpre.
  apply take_action_fields in Ha as (He & Hseen & Hhelp & Hs & Ht & Hf & Hd).
  rewrite bool_decide_eq_false_2 in Hs by done.
  split_and!.
  - intros s. rewrite Hs. auto.
  - destruct (decide (a = BigqueryTables)) as [->|]; auto.
  - destruct (decide (a = BigqueryRecordFormat)) as [->|]; auto.
  - destruct (decide (a = HcfsDirs)) as [->|]; auto.
  - intros e. by rewrite He.
  - intros arg os ea H. by apply Hpre in H.
  - rewrite Hseen. intros [?|?]%elem_of_cons; done.
Qed.

Lemma parse_keeps_flags flags : ∀ st st1 a pre,
  take_flags flags st = Continue st1 →
  (∀ b, b ∈ flags → b = a ∨ b = Help) →
  a ≠ SqlScript →
  has_option a pre →
  (∀ arg os ea, TokO arg None os ea ∉ pre) →
  parse_keeps st pre st1.
Proof.
  induction flags as [|b flags IH]; intros st st1 a pre; simpl.
  - intros [= <-] _ _ _ Hpre.
    split_and!; auto. intros arg os ea H. by apply Hpre in H.
  - destruct (take_action b [] st) as [st0|] eqn:Hb; [|done].
    intros Hrun Hall Hne Hopt Hpre.
    assert (b = a) as ->.
    { destruct (Hall b) as [->| ->]; [left | done |].
      by apply take_action_help in Hb. }
    pose proof (parse_keeps_action _ _ _ _ pre Hb Hne Hopt Hpre) as H0.
    assert (parse_keeps st0 pre st1) as H1.
    { apply (IH st0 st1 a pre); try done. intros c Hc. apply Hall. by right. }
    pose proof (parse_keeps_trans _ _ _ _ _ H0 H1) as H.
    destruct H as (Hs & Ht & Hf & Hd & He & Hu & Hh).
    setoid_rewrite has_option_app in Ht.
    setoid_rewrite has_option_app in Hf.
    setoid_rewrite has_option_app in Hd.
    split_and!; [|naive_solver..| |done].
    + intros s Hs'. apply Hs in Hs' as [?|[?|?]%elem_of_app]; auto.
    + intros arg os ea H. by apply Hpre in H.
Qed.

Lemma options_only_suffix pre rest :
  options_only (pre ++ rest) → options_only rest.
Proof.
  intros H arg a os ea Hin. apply (H arg a os ea).
  apply elem_of_app. by right.
Qed.

Lemma options_only_head arg a os ea rest :
  options_only (TokO arg (Some a) os ea :: rest) → a ≠ SqlScript.
Proof. intros H. apply (H arg a os ea). left. Qed.

Lemma parse_keeps_mono st st' pre pre' :
  (∀ t, t ∈ pre → t ∈ pre') →
  (∀ arg os ea, TokO arg None os ea ∉ pre') →
  parse_keeps st pre st' → parse_keeps st pre' st'.
Proof.
  intros Hsub Hknown (Hs & Ht & Hf & Hd & He & Hu & Hh).
  assert (∀ a, has_option a pre → has_option a pre') as Hopt.
  { intros a (arg & os & ea & H). exists arg, os, ea. auto. }
  split_and!.
  - intros s Hs'. apply Hs in Hs' as [?|?]; auto.
  - destruct Ht; auto.
  - destruct Hf; auto.
  - destruct Hd; auto.
  - done.
  - intros arg os ea H. by apply Hknown in H.
  - done.
Qed.

Lemma parse_keeps_then st st1 st' pre rest :
  parse_keeps st pre st1 →
  (parse_tokens rest st1 = Continue st' → parse_keeps st1 rest st') →
  parse_tokens rest st1 = Continue st' →
  parse_keeps st (pre ++ rest) st'.
Proof. intros H1 H2 Hrun. apply (parse_keeps_trans st st1); auto. Qed.

Lemma head_remove_dashes_after value :
  head (remove_dashes [value; "--"]) = Some value.
Proof.
  cbn [remove_dashes]. destruct (String.eqb value "--") eqn:E; [|done].
  by apply String.eqb_eq in E as ->.
Qed.

Lemma head_remove_dashes_one value :
  head (remove_dashes [value]) = Some value ∨ head (remove_dashes [value]) = None.
Proof. cbn [remove_dashes]. destruct (String.eqb value "--"); auto. Qed.

Ltac plain_tokens :=
  let t := fresh "t" in let Ht := fresh "Ht" in
  intros t Ht; repeat (apply elem_of_cons in Ht as [->|Ht]; [done|]);
  by apply elem_of_nil in Ht.

Ltac known_tokens :=
  let H := fresh "H" in
  intros ? ? ? H; repeat (apply elem_of_cons in H as [H|H]; [done|]);
  by apply elem_of_nil in H.

(** The loop of the parser keeps the namespace but for the options and the
    positional that it takes. *)
Lemma parse_tokens_keeps toks :
  ∀ st st', options_only toks →
    parse_tokens toks st = Continue st' → parse_keeps st toks st'.
Proof.
  induction toks as [toks IH] using (induction_ltof1 _ (@length Tok)).
  unfold ltof in IH. intros st st' Honly.
  destruct toks as [|t rest].
  { intros [= <-]. apply parse_keeps_refl. }
  assert (∀ pre rest' st1,
            pre ++ rest' = t :: rest → length rest' < length (t :: rest) →
            parse_keeps st pre st1 →
            parse_tokens rest' st1 = Continue st' →
            parse_keeps st (t :: rest) st') as Hthen.
  { intros pre rest' st1 Heq Hlen Hpre Hrun. rewrite <-Heq.
    apply (parse_keeps_then st st1); [done| |done].
    apply IH; [done|]. apply (options_only_suffix pre). by rewrite Heq. }
  destruct t as [value|arg [action|] option_string explicit_arg|];
    cbn [parse_tokens].
  - (* a plain argument *)
    destruct (positional_pending st).
    + destruct rest as [|[v'|arg' o' os' ea'|] rest'].
      * destruct (take_action SqlScript [value] st) as [st1|] eqn:Ha; [|done].
        apply (Hthen [TokA value] [] st1); [done | simpl; lia |].
        apply (parse_keeps_positional _ _ _ value _ Ha);
          [left | plain_tokens | apply head_remove_dashes_one].
      * destruct (take_action SqlScript [value] st) as [st1|] eqn:Ha; [|done].
        apply (Hthen [TokA value] (TokA v' :: rest') st1);
          [done | simpl; lia |].
        apply (parse_keeps_positional _ _ _ value _ Ha);
          [left | plain_tokens | apply head_remove_dashes_one].
      * destruct (take_action SqlScript [value] st) as [st1|] eqn:Ha; [|done].
        apply (Hthen [TokA value] (TokO arg' o' os' ea' :: rest') st1);
          [done | simpl; lia |].
        apply (parse_keeps_positional _ _ _ value _ Ha);
          [left | plain_tokens | apply head_remove_dashes_one].
      * destruct (take_action SqlScript [value; "--"] st) as [st1|] eqn:Ha;
          [|done].
        apply (Hthen [TokA value; TokDash] rest' st1); [done | simpl; lia |].
        apply (parse_keeps_positional _ _ _ value _ Ha);
          [left | plain_tokens | left; apply head_remove_dashes_after].
    + apply (Hthen [TokA value] rest (add_extra value st));
        [done | simpl; lia |].
      apply parse_keeps_extra. known_tokens.
  - (* an option of the parser *)
    pose proof (options_only_head _ _ _ _ _ Honly) as Hne.
    assert (has_option action
              [TokO arg (Some action) option_string explicit_arg]) as Hopt
      by (by apply has_option_O).
    destruct (consume_optional action option_string explicit_arg)
      as [flags last [value|]|msg] eqn:Hconsume; [| |done].
    + apply consume_optional_actions in Hconsume as (Hin & Hall & Hhelp).
      destruct (take_flags flags st) as [st1|] eqn:Hflags; [|done].
      destruct (take_action last [value] st1) as [st2|] eqn:Hlast; [|done].
      assert (last = action) as ->.
      { destruct (Hall last) as [->| ->];
          [apply elem_of_app; right; left | done |].
        by apply take_action_help in Hlast. }
      apply (Hthen [TokO arg (Some action) option_string explicit_arg]
               rest st2); [done | simpl; lia |].
      apply (parse_keeps_mono st st2
               ([TokO arg (Some action) option_string explicit_arg] ++
                [TokO arg (Some action) option_string explicit_arg])).
      { intros t [?|?]%elem_of_app; done. }
      { known_tokens. }
      apply (parse_keeps_trans st st1).
      * apply (parse_keeps_flags flags st st1 action); try done.
        -- intros b Hb. apply Hall. apply elem_of_app. by left.
        -- known_tokens.
      * apply (parse_keeps_action st1 st2 action [value]); try done.
        known_tokens.
    + apply consume_optional_actions in Hconsume as (Hin & Hall & Hhelp).
      destruct (arg_count last) as [|n].
      * destruct (take_flags (flags ++ [last]) st) as [st1|] eqn:Hflags;
          [|done].
        apply (Hthen [TokO arg (Some action) option_string explicit_arg]
                 rest st1); [done | simpl; lia |].
        apply (parse_keeps_flags (flags ++ [last]) st st1 action); try done.
        known_tokens.
      * destruct rest as [|[value|arg' o' os' ea'|] rest']; try done.
        destruct (take_flags flags st) as [st1|] eqn:Hflags; [|done].
        destruct (take_action last [value] st1) as [st2|] eqn:Hlast; [|done].
        assert (last = action) as ->.
        { destruct (Hall last) as [->| ->];
            [apply elem_of_app; right; left | done |].
          by apply take_action_help in Hlast. }
        apply (Hthen [TokO arg (Some action) option_string explicit_arg;
                      TokA value] rest' st2); [done | simpl; lia |].
        apply (parse_keeps_mono st st2
                 ([TokO arg (Some action) option_string explicit_arg] ++
                  [TokO arg (Some action) option_string explicit_arg])).
        { intros t [Ht|Ht]%elem_of_app;
            apply list_elem_of_singleton in Ht as ->; left. }
        { known_tokens. }
        apply (parse_keeps_trans st st1).
        -- apply (parse_keeps_flags flags st st1 action); try done.
           ++ intros b Hb. apply Hall. apply elem_of_app. by left.
           ++ known_tokens.
        -- apply (parse_keeps_action st1 st2 action [value]); try done.
           known_tokens.
  - (* an option that the parser does not know *)
    apply (Hthen [TokO arg None option_string explicit_arg] rest
             (add_extra arg st)); [done | simpl; lia |].
    apply parse_keeps_extra. intros a os ea H.
    apply list_elem_of_singleton in H. by injection H.
  - (* the terminator *)
    destruct (positional_pending st).
    + destruct rest as [|[value|arg' o' os' ea'|] rest'].
      * apply (Hthen [TokDash] [] (add_extra "--" st)); [done | simpl; lia |].
        apply parse_keeps_extra. known_tokens.
      * destruct (take_action SqlScript ["--"; value] st) as [st1|] eqn:Ha;
          [|done].
        apply (Hthen [TokDash; TokA value] rest' st1); [done | simpl; lia |].
        apply (parse_keeps_positional _ _ _ value _ Ha);
          [right; left | plain_tokens | by left].
      * apply (Hthen [TokDash] (TokO arg' o' os' ea' :: rest')
                 (add_extra "--" st)); [done | simpl; lia |].
        apply parse_keeps_extra. known_tokens.
      * apply (Hthen [TokDash] (TokDash :: rest') (add_extra "--" st));
          [done | simpl; lia |].
        apply parse_keeps_extra. known_tokens.
    + apply (Hthen [TokDash] rest (add_extra "--" st)); [done | simpl; lia |].
      apply parse_keeps_extra. known_tokens.
Qed.

Lemma lookup_option_known s a : lookup_option s = Some a → a ≠ SqlScript.
Proof.
  unfold lookup_option, option_string_actions. cbn [PyDict.get].
  repeat (destruct (String.eqb _ s); [by intros [= <-]|]). done.
Qed.

Lemma get_option_tuples_known arg :
  Forall (λ t : Action * string * option string, t.1.1 ≠ SqlScript)
    (get_option_tuples arg).
Proof.
  unfold get_option_tuples. destruct arg as [|c0 [|c1 tail]]; [done..|].
  destruct (is_prefix_char c0 && is_prefix_char c1).
  - destruct (if PyStr.contains "=" (String c0 (String c1 tail))
              then let '(a, b) := PyStr.split_once "=" (String c0 (String c1 tail))
                   in (a, Some b)
              else (String c0 (String c1 tail), None)) as [prefix ea].
    unfold option_string_actions. cbn [flat_map].
    repeat (apply Forall_app; split;
            [destruct (PyStr.startswith _ _); by repeat constructor|]).
    constructor.
  - destruct (is_prefix_char c0); [|done].
    unfold option_string_actions. cbn [flat_map].
    repeat (apply Forall_app; split;
            [destruct (String.eqb _ _);
             [by repeat constructor
             |destruct (PyStr.startswith _ _); by repeat constructor]|]).
    constructor.
Qed.

(** The parser reads no string as its positional action. *)
Lemma parse_optional_known arg a os ea :
  parse_optional arg = IsOptional (Some a) os ea → a ≠ SqlScript.
Proof.
  unfold parse_optional. destruct arg as [|c0 tail]; [done|].
  destruct (negb (is_prefix_char c0)); [done|].
  destruct (lookup_option (String c0 tail)) as [a'|] eqn:Hl.
  { intros [= <- _ _]. by apply lookup_option_known in Hl. }
  destruct (String.length (String c0 tail) =? 1)%nat; [done|].
  destruct (PyStr.contains "=" (String c0 tail)).
  - destruct (PyStr.split_once "=" (String c0 tail)) as [os' ea'].
    destruct (lookup_option os') as [a'|] eqn:Hl'.
    { intros [= <- _ _]. by apply lookup_option_known in Hl'. }
    pose proof (get_option_tuples_known (String c0 tail)) as Hk.
    destruct (get_option_tuples (String c0 tail)) as [|[[a1 o1] e1] [|t2 l]];
      [| |done].
    + by repeat case_match.
    + intros [= <- _ _]. by apply Forall_cons in Hk as [Hk _].
  - pose proof (get_option_tuples_known (String c0 tail)) as Hk.
    destruct (get_option_tuples (String c0 tail)) as [|[[a1 o1] e1] [|t2 l]];
      [| |done].
    + by repeat case_match.
    + intros [= <- _ _]. by apply Forall_cons in Hk as [Hk _].
Qed.

Lemma classify_options_only argv toks :
  classify argv = inl toks → options_only toks.
Proof.
  revert toks. induction argv as [|arg rest IH]; intros toks; simpl.
  - intros [= <-] ? ? ? ? H. by apply elem_of_nil in H.
  - destruct (String.eqb arg "--").
    + intros [= <-] a b os ea [?|H]%elem_of_cons; [done|].
      by apply list_elem_of_fmap in H as (? & ? & _).
    + destruct (parse_optional arg) as [|o os ea|] eqn:Hp; [| |done].
      * destruct (classify rest) as [toks'|]; [|done]. intros [= <-].
        intros a b os' ea' [?|H]%elem_of_cons; [done|].
        by apply (IH toks' eq_refl a b os' ea').
      * destruct (classify rest) as [toks'|]; [|done]. intros [= <-].
        intros a b os' ea' [Heq|H]%elem_of_cons.
        -- injection Heq as _ Ho _ _. subst o.
           by apply (parse_optional_known arg b os ea).
        -- by apply (IH toks' eq_refl a b os' ea').
Qed.

Lemma before_terminator_subset argv s :
  s ∈ before_terminator argv → s ∈ argv.
Proof.
  induction argv as [|arg rest IH]; simpl; [done|].
  destruct (String.eqb arg "--"); [by intros ?%elem_of_nil|].
  intros [->|?]%elem_of_cons; [left | right; auto].
Qed.

(** The plain arguments are the strings read as such before the terminator
    and the strings after it. *)
Lemma classify_plain_argument argv toks s :
  classify argv = inl toks → TokA s ∈ toks →
  s ∈ argv ∧
  ((s ∈ before_terminator argv ∧ parse_optional s = IsPositional) ∨
   "--" ∈ argv).
Proof.
  revert toks. induction argv as [|arg rest IH]; intros toks; simpl.
  - intros [= <-] H. by apply elem_of_nil in H.
  - destruct (String.eqb arg "--") eqn:Harg.
    + apply String.eqb_eq in Harg as ->.
      intros [= <-] [?|H]%elem_of_cons; [done|].
      apply list_elem_of_fmap in H as (v & [= ->] & Hv).
      split; [by right | right; left].
    + destruct (parse_optional arg) as [|o os ea|] eqn:Hp; [| |done].
      * destruct (classify rest) as [toks'|]; [|done]. intros [= <-].
        intros [[= ->]|H]%elem_of_cons.
        -- split; [left | left; split; [left | done]].
        -- destruct (IH toks' eq_refl H) as (Hin & Hcase).
           split; [by right|]. destruct Hcase as [[? ?]|?];
             [left; split; [by right | done] | right; by right].
      * destruct (classify rest) as [toks'|]; [|done]. intros [= <-].
        intros [?|H]%elem_of_cons; [done|].
        destruct (IH toks' eq_refl H) as (Hin & Hcase).
        split; [by right|]. destruct Hcase as [[? ?]|?];
          [left; split; [by right | done] | right; by right].
Qed.

Lemma classify_unknown argv toks arg os ea :
  classify argv = inl toks →
  arg ∈ before_terminator argv →
  parse_optional arg = IsOptional None os ea →
  TokO arg None os ea ∈ toks.
Proof.
  revert toks. induction argv as [|a rest IH]; intros toks; simpl.
  - intros _ H. by apply elem_of_nil in H.
  - destruct (String.eqb a "--"); [by intros _ ?%elem_of_nil|].
    destruct (parse_optional a) as [|o os' ea'|] eqn:Hp; [| |done];
      (destruct (classify rest) as [toks'|]; [|done]);
      intros [= <-] [->|Hin]%elem_of_cons Harg;
      try (right; by apply IH); [congruence|].
    rewrite Hp in Harg. injection Harg as -> -> ->. left.
Qed.

Lemma classify_ambiguous argv arg :
  arg ∈ before_terminator argv →
  parse_optional arg = IsAmbiguous →
  ∃ msg, classify argv = inr msg.
Proof.
  induction argv as [|a rest IH]; simpl; [by intros ?%elem_of_nil|].
  destruct (String.eqb a "--"); [by intros ?%elem_of_nil|].
  intros [->|Hin]%elem_of_cons Harg.
  - rewrite Harg. eauto.
  - destruct (IH Hin Harg) as [msg ->].
    destruct (parse_optional a); eauto.
Qed.

(** The run of the parser on an argument vector that it accepts. *)
Lemma parse_args_parsed argv args :
  parse_args argv = Parsed args →
  ∃ toks st,
    classify argv = inl toks ∧
    parse_tokens toks initial_pstate = Continue st ∧
    extras st = [] ∧
    p_sql_script st = Some (sql_script args) ∧
    p_bigquery_tables st = bigquery_tables args ∧
    p_bigquery_record_format st = bigquery_record_format args ∧
    p_hcfs_dirs st = hcfs_dirs args.
Proof.
  unfold parse_args. destruct (classify argv) as [toks|] eqn:Hc; [|done].
  destruct (parse_tokens toks initial_pstate) as [st|] eqn:Hrun; [|done].
  destruct (p_sql_script st) as [script|] eqn:Hs; [|done].
  destruct (extras st) eqn:He; [|done]. intros [= <-].
  by exists toks, st.
Qed.

Lemma parse_args_keeps argv args :
  parse_args argv = Parsed args →
  ∃ toks st,
    classify argv = inl toks ∧
    parse_keeps initial_pstate toks st ∧
    extras st = [] ∧
    p_sql_script st = Some (sql_script args) ∧
    p_bigquery_tables st = bigquery_tables args ∧
    p_bigquery_record_format st = bigquery_record_format args ∧
    p_hcfs_dirs st = hcfs_dirs args.
Proof.
  unfold parse_args. destruct (classify argv) as [toks|] eqn:Hc; [|done].
  destruct (parse_tokens toks initial_pstate) as [st|] eqn:Hrun; [|done].
  destruct (p_sql_script st) as [script|] eqn:Hs; [|done].
  destruct (extras st) eqn:He; [|done]. intros [= <-].
  exists toks, st. split_and!; try done.
  apply parse_tokens_keeps; [|done]. by apply (classify_options_only argv).
Qed.

Lemma prefix_refl s : String.prefix s s = true.
Proof.
  induction s as [|c s IH]; simpl; [done|]. by destruct (ascii_dec c c).
Qed.

Lemma prefix_cons_inv a s b t :
  String.prefix (String a s) (String b t) = true →
  a = b ∧ String.prefix s t = true.
Proof. cbn [String.prefix]. by destruct (ascii_dec a b). Qed.

Lemma prefix_false_eqb s t : String.prefix s t = false → String.eqb t s = false.
Proof.
  intros H. apply String.eqb_neq. intros ->. by rewrite prefix_refl in H.
Qed.

(** A string of two dashes and more, without [=] and without a space, that
    starts no option string of the parser is an option that the parser does
    not know. *)
Lemma parse_optional_unknown tail :
  let arg := String "-" (String "-" tail) in
  PyStr.contains "=" arg = false →
  PyStr.contains " " arg = false →
  (∀ os a, (os, a) ∈ option_string_actions → String.prefix arg os = false) →
  parse_optional arg = IsOptional None arg None.
Proof.
  intros arg Heq Hsp Hno.
  assert (∀ os a, (os, a) ∈ option_string_actions →
                  String.eqb os arg = false) as Hne.
  { intros os a Hin. apply prefix_false_eqb. by apply (Hno os a). }
  assert (lookup_option arg = None) as Hlook.
  { unfold lookup_option, option_string_actions in *. cbn [PyDict.get].
    rewrite (Hne "-h" Help), (Hne "--help" Help),
      (Hne "--bigquery-tables" BigqueryTables),
      (Hne "--bigquery-record-format" BigqueryRecordFormat),
      (Hne "--hcfs-dirs" HcfsDirs); [done|set_solver..]. }
  assert (get_option_tuples arg = []) as Htuples.
  { unfold get_option_tuples, arg. change (is_prefix_char "-") with true.
    cbn [andb]. fold arg. rewrite Heq.
    unfold option_string_actions, PyStr.startswith in *. cbn [flat_map].
    rewrite (Hno "-h" Help), (Hno "--help" Help),
      (Hno "--bigquery-tables" BigqueryTables),
      (Hno "--bigquery-record-format" BigqueryRecordFormat),
      (Hno "--hcfs-dirs" HcfsDirs); [done|set_solver..]. }
  unfold parse_optional. fold arg. unfold arg at 1.
  change (negb (is_prefix_char "-")) with false. cbv iota.
  rewrite Hlook, Heq, Htuples, Hsp. reflexivity.
Qed.

(** The abbreviations of [--bigquery-tables] and [--bigquery-record-format]
    that stop at their common part, from [--b] to [--bigquery-], start both
    option strings. *)
Lemma parse_optional_bigquery_prefix arg :
  String.prefix "--b" arg = true →
  String.prefix arg "--bigquery-" = true →
  parse_optional arg = IsAmbiguous.
Proof.
  intros Hlow Hup. apply prefix_in_prefixes in Hup.
  vm_compute in Hup.
  repeat (apply elem_of_cons in Hup as [->|Hup]; [by vm_compute in Hlow || reflexivity|]).
  by apply elem_of_nil in Hup.
Qed.

(** The query file, then one option with its value in the next string. *)
Lemma parse_args_script_option a long short arg os script value :
  (a, long, short) ∈ value_options →
  plain script → plain value → arg ≠ "--" →
  parse_optional arg = IsOptional (Some a) os None →
  parse_args [script; arg; value] = Parsed (with_option a value script).
Proof.
  intros Ha Hscript Hvalue Harg Hopt. unfold parse_args.
  rewrite (classify_plain script _ Hscript). cbn [classify].
  apply String.eqb_neq in Harg. rewrite Harg, Hopt.
  rewrite (plain_eqb value Hvalue).
  destruct Hvalue as [Hvalue Hne]. rewrite Hvalue. cbn [fmap list_fmap].
  cbn [parse_tokens].
  change (positional_pending initial_pstate) with true. cbv iota.
  rewrite (take_positional script _ Hscript).
  cbn [consume_optional].
  assert (arg_count a = 1) as ->
    by (apply takes_value_cases in Ha as [(-> & _)|[(-> & _)|(-> & _)]]; done).
  cbn [take_flags].
  edestruct (take_option_value a long short value) as (st' & -> & Hs & Ht & Hf & Hd & _ & He);
    [done | done | |].
  { apply takes_value_cases in Ha as [(-> & _)|[(-> & _)|(-> & _)]];
      cbn [action_conflicts seen]; repeat constructor; set_solver. }
  cbn [parse_tokens]. rewrite Hs, He, Ht, Hf, Hd. cbn.
  apply takes_value_cases in Ha as [(-> & _)|[(-> & _)|(-> & _)]]; done.
Qed.

(** One option with its value in the next string, then the query file. *)
Lemma parse_args_option_script a long short arg os script value :
  (a, long, short) ∈ value_options →
  plain script → plain value → arg ≠ "--" →
  parse_optional arg = IsOptional (Some a) os None →
  parse_args [arg; value; script] = Parsed (with_option a value script).
Proof.
  intros Ha Hscript Hvalue Harg Hopt. unfold parse_args.
  cbn [classify].
  apply String.eqb_neq in Harg. rewrite Harg, Hopt.
  rewrite (plain_eqb value Hvalue), (plain_eqb script Hscript).
  destruct Hvalue as [Hvalue Hne]. rewrite Hvalue.
  rewrite (proj1 Hscript). cbn [fmap list_fmap].
  cbn [parse_tokens consume_optional].
  assert (arg_count a = 1) as ->
    by (apply takes_value_cases in Ha as [(-> & _)|[(-> & _)|(-> & _)]]; done).
  cbn [take_flags].
  edestruct (take_option_value a long short value initial_pstate)
    as (st' & -> & Hs & Ht & Hf & Hd & Hseen & He); [done | done | |].
  { apply takes_value_cases in Ha as [(-> & _)|[(-> & _)|(-> & _)]];
      cbn [action_conflicts seen initial_pstate]; repeat constructor;
      set_solver. }
  cbn [parse_tokens]. unfold positional_pending. rewrite Hseen.
  rewrite bool_decide_eq_true_2.
  2: { apply takes_value_cases in Ha as [(-> & _)|[(-> & _)|(-> & _)]];
       cbn [seen initial_pstate]; set_solver. }
  rewrite (take_positional script _ Hscript). cbn [parse_tokens].
  cbn. rewrite He, Ht, Hf, Hd. cbn.
  apply takes_value_cases in Ha as [(-> & _)|[(-> & _)|(-> & _)]]; done.
Qed.

(** The query file, then one option written with its value after [=]. *)
Lemma parse_args_script_explicit a long short arg script v :
  (a, long, short) ∈ value_options →
  plain script → v ≠ "--" → arg ≠ "--" →
  parse_optional arg = IsOptional (Some a) long (Some v) →
  parse_args [script; arg] = Parsed (with_option a v script).
Proof.
  intros Ha Hscript Hv Harg Hopt. unfold parse_args.
  rewrite (classify_plain script _ Hscript). cbn [classify].
  apply String.eqb_neq in Harg. rewrite Harg, Hopt.
  cbn [parse_tokens].
  change (positional_pending initial_pstate) with true. cbv iota.
  rewrite (take_positional script _ Hscript).
  cbn [consume_optional]. rewrite (consume_explicit_value a long short v Ha).
  cbn [take_flags].
  edestruct (take_option_value a long short v) as (st' & -> & Hs & Ht & Hf & Hd & _ & He);
    [done | done | |].
  { apply takes_value_cases in Ha as [(-> & _)|[(-> & _)|(-> & _)]];
      cbn [action_conflicts seen]; repeat constructor; set_solver. }
  cbn [parse_tokens]. rewrite Hs, He, Ht, Hf, Hd. cbn.
  apply takes_value_cases in Ha as [(-> & _)|[(-> & _)|(-> & _)]]; done.
Qed.



(** X4: the query file of a configuration that the parser returns is one of
    the strings of the command line, and, unless the command line holds the
    terminator [--], a string before it that the parser reads as a plain
    argument: without [--], no string that looks like an option is ever
    taken for the query file. *)
Theorem query_file_is_a_plain_argument argv args :
  parse_args argv = Parsed args →
  sql_script args ∈ argv ∧
  ((sql_script args ∈ before_terminator argv ∧
    parse_optional (sql_script args) = IsPositional) ∨
   "--" ∈ argv).
Proof.
  intros Hparse.
  apply parse_args_keeps in Hparse
    as (toks & st & Hc & (Hs & _) & _ & Hscript & _).
  destruct (Hs _ Hscript) as [?|Htok]; [done|].
  by apply (classify_plain_argument argv toks).
Qed.

Lemma query_file_is_a_plain_argument_witness :
  "q.sql" ∈ ["--hcfs-dirs"; "/data/sales"; "q.sql"].
Proof.
  apply (query_file_is_a_plain_argument
           ["--hcfs-dirs"; "/data/sales"; "q.sql"]
           {| sql_script := "q.sql"; bigquery_tables := [];
              bigquery_record_format := None;
              hcfs_dirs := ["/data/sales"] |} eq_refl).
Defined.

(** X5: an option that the command line does not supply keeps its default
    in the configuration: the empty list for [--bigquery-tables] and for
    [--hcfs-dirs], [None] for [--bigquery-record-format]. *)
Theorem options_not_supplied_keep_defaults argv args :
  parse_args argv = Parsed args →
  (supplies BigqueryTables argv = false → bigquery_tables args = []) ∧
  (supplies HcfsDirs argv = false → hcfs_dirs args = []) ∧
  (supplies BigqueryRecordFormat argv = false →
     bigquery_record_format args = None).
Proof.
  intros Hparse.
  apply parse_args_keeps in Hparse
    as (toks & st & Hc & (_ & Ht & Hf & Hd & _) & _ & _ & <- & <- & <-).
  split_and!; intros Hno.
  - destruct Ht as [->|Hopt]; [done|].
    apply (classify_supplies _ argv toks Hc) in Hopt. congruence.
  - destruct Hd as [->|Hopt]; [done|].
    apply (classify_supplies _ argv toks Hc) in Hopt. congruence.
  - destruct Hf as [->|Hopt]; [done|].
    apply (classify_supplies _ argv toks Hc) in Hopt. congruence.
Qed.

Lemma options_not_supplied_keep_defaults_witness :
  hcfs_dirs {| sql_script := "q.sql"; bigquery_tables := ["p.d.t"];
               bigquery_record_format := None; hcfs_dirs := [] |} = [] ∧
  bigquery_record_format
    {| sql_script := "q.sql"; bigquery_tables := ["p.d.t"];
       bigquery_record_format := None; hcfs_dirs := [] |} = None.
Proof.
  destruct (options_not_supplied_keep_defaults
              ["q.sql"; "--bigquery-tables"; "p.d.t"]
              {| sql_script := "q.sql"; bigquery_tables := ["p.d.t"];
                 bigquery_record_format := None; hcfs_dirs := [] |} eq_refl)
    as (_ & Hd & Hf).
  split; [by apply Hd | by apply Hf].
Defined.

(** X6: the parser ends the process with no other status than 2, for a usage
    error, and 0, which it gives only with the help text and only to a
    command line that supplies a help option. *)
Theorem parser_exit_statuses argv status msg :
  parse_args argv = SystemExit status msg →
  status = 2%Z ∨
  (status = 0%Z ∧ msg = help_text ∧ supplies Help argv = true).
Proof.
  intros Hparse. pose proof (parse_args_cases argv) as H.
  by rewrite Hparse in H.
Qed.

Lemma parser_exit_statuses_witness :
  (2 = 2)%Z ∨
  ((2 = 0)%Z ∧
   "the following arguments are required: sql_script" = help_text ∧
   supplies Help ["--hcfs-dirs"; "/data/sales"] = true).
Proof.
  apply (parser_exit_statuses ["--hcfs-dirs"; "/data/sales"] 2
           "the following arguments are required: sql_script" eq_refl).
Defined.

(** X7: a command line that supplies a help option never runs the query:
    the parser returns no configuration, whatever else the command line
    holds, the process ends with status 0 or 2 and makes no call on the
    engine or on the file system. *)
Theorem help_option_prevents_run w argv :
  supplies Help argv = true →
  (∀ args, parse_args argv ≠ Parsed args) ∧
  (exit_status (script w argv) = 0%Z ∨ exit_status (script w argv) = 2%Z) ∧
  engine_calls (script w argv) = [] ∧
  printed_rows (script w argv) = [].
Proof.
  intros Hhelp.
  assert (∀ args, parse_args argv ≠ Parsed args) as Hnot.
  { intros args Hparse.
    apply parse_args_parsed in Hparse as (toks & st & Hc & Hrun & _).
    pose proof (parse_tokens_post toks initial_pstate initial_pstate_ok)
      as Hpost.
    rewrite Hrun in Hpost. destruct Hpost as (_ & _ & Hopts & _).
    apply parse_tokens_keeps in Hrun
      as (_ & _ & _ & _ & _ & _ & Hh); [|by apply (classify_options_only argv)].
    apply (classify_supplies _ argv toks Hc) in Hhelp.
    apply Hopts, Hh in Hhelp. by apply elem_of_nil in Hhelp. }
  split; [done|]. unfold script.
  pose proof (parse_args_cases argv) as Hst.
  destruct (parse_args argv) as [args|status msg]; [by destruct (Hnot args)|].
  simpl. destruct Hst as [->|(-> & _)]; auto.
Qed.

Lemma help_option_prevents_run_witness :
  engine_calls
    (script world_without_files
       ["q.sql"; "--hcfs-dirs"; "/data/sales"; "-h"]) = [].
Proof.
  apply (help_option_prevents_run world_without_files
           ["q.sql"; "--hcfs-dirs"; "/data/sales"; "-h"] eq_refl).
Defined.

(** X8: an option that the parser does not know, or an abbreviation that
    fits several options, before the terminator [--] makes the parser exit:
    no configuration is returned, wherever the string stands. An ambiguous
    abbreviation is a usage error at once (status 2), an unknown option is
    one unless a help option ends the run first. The abbreviations from
    [--b] to [--bigquery-] are ambiguous, and a string of two dashes and
    more, without [=] or space, that starts none of the option strings is
    unknown. *)
Theorem unknown_or_ambiguous_option_is_rejected argv arg :
  arg ∈ before_terminator argv →
  (parse_optional arg = IsAmbiguous →
     ∃ msg, parse_args argv = SystemExit 2 msg) ∧
  ((∃ os ea, parse_optional arg = IsOptional None os ea) →
     (∀ args, parse_args argv ≠ Parsed args) ∧
     (supplies Help argv = false →
        ∃ msg, parse_args argv = SystemExit 2 msg)) ∧
  (String.prefix "--b" arg = true → String.prefix arg "--bigquery-" = true →
     parse_optional arg = IsAmbiguous) ∧
  (String.prefix "--" arg = true →
   PyStr.contains "=" arg = false → PyStr.contains " " arg = false →
   (∀ os a, (os, a) ∈ option_string_actions → String.prefix arg os = false) →
   parse_optional arg = IsOptional None arg None).
Proof.
  intros Hin. split_and!.
  - intros Hamb. destruct (classify_ambiguous argv arg Hin Hamb) as [msg Hc].
    exists msg. unfold parse_args. by rewrite Hc.
  - intros (os & ea & Hunk).
    assert (∀ args, parse_args argv ≠ Parsed args) as Hnot.
    { intros args Hparse.
      apply parse_args_keeps in Hparse
        as (toks & st & Hc & (_ & _ & _ & _ & _ & Hextra & _) & He & _).
      pose proof (classify_unknown argv toks arg os ea Hc Hin Hunk) as Htok.
      apply Hextra in Htok. rewrite He in Htok. by apply elem_of_nil in Htok. }
    split; [done|]. intros Hhelp.
    pose proof (parse_args_cases argv) as Hcases.
    destruct (parse_args argv) as [args|status msg]; [by destruct (Hnot args)|].
    destruct Hcases as [->|(_ & _ & ?)]; [by exists msg | congruence].
  - apply parse_optional_bigquery_prefix.
  - intros Hpre. destruct arg as [|c0 arg]; [done|].
    apply prefix_cons_inv in Hpre as [<- Hpre].
    destruct arg as [|c1 tail]; [done|].
    apply prefix_cons_inv in Hpre as [<- _].
    apply parse_optional_unknown.
Qed.

Lemma unknown_or_ambiguous_option_is_rejected_witness :
  (∃ msg, parse_args ["q.sql"; "--bigquery"; "p.d.t"] = SystemExit 2 msg) ∧
  (∀ args, parse_args ["q.sql"; "--verbose"] ≠ Parsed args).
Proof.
  split.
  - assert ("--bigquery" ∈ before_terminator ["q.sql"; "--bigquery"; "p.d.t"])
      as Hin by (right; left).
    destruct (unknown_or_ambiguous_option_is_rejected _ _ Hin) as (H & _).
    by apply H.
  - assert ("--verbose" ∈ before_terminator ["q.sql"; "--verbose"])
      as Hin by (right; left).
    destruct (unknown_or_ambiguous_option_is_rejected _ _ Hin)
      as (_ & H & _).
    apply H. by exists "--verbose", None.
Defined.

(** X9: the spellings of an option that takes a value. With a query file
    and a value that are plain arguments, the parser returns the same
    configuration (the list of the pieces of the value between commas for
    [--bigquery-tables] and [--hcfs-dirs], the value itself for
    [--bigquery-record-format], the defaults elsewhere) whether the option
    comes after the query file or before it, and for every abbreviation of
    the option string that fits no other option. Written [--option=value],
    the value need not be a plain argument: it may begin with a dash. *)
Theorem option_spellings a long short script :
  (a, long, short) ∈ value_options →
  plain script →
  (∀ arg value,
     plain value →
     String.prefix short arg = true → String.prefix arg long = true →
     parse_args [script; arg; value] = Parsed (with_option a value script) ∧
     parse_args [arg; value; script] = Parsed (with_option a value script)) ∧
  (∀ value,
     value ≠ "--" →
     parse_args [script; long +:+ "=" +:+ value]
     = Parsed (with_option a value script)).
Proof.
  intros Ha Hscript. split.
  - intros arg value Hvalue Hlow Hup.
    destruct (parse_optional_abbreviation a long short arg Ha Hlow Hup)
      as (Harg & os & Hopt).
    split.
    + by apply (parse_args_script_option a long short arg os).
    + by apply (parse_args_option_script a long short arg os).
  - intros value Hvalue.
    destruct (parse_optional_explicit a long short value Ha) as (Harg & Hopt).
    by apply (parse_args_script_explicit a long short).
Qed.

Lemma option_spellings_witness :
  parse_args ["q.sql"; "--hcfs"; "/data/a,/data/b"]
  = Parsed {| sql_script := "q.sql"; bigquery_tables := [];
              bigquery_record_format := None;
              hcfs_dirs := ["/data/a"; "/data/b"] |} ∧
  parse_args ["q.sql"; "--hcfs-dirs=-a,-b"]
  = Parsed {| sql_script := "q.sql"; bigquery_tables := [];
              bigquery_record_format := None;
              hcfs_dirs := ["-a"; "-b"] |}.
Proof.
  assert ((HcfsDirs, "--hcfs-dirs", "--hc") ∈ value_options) as Ha
    by (right; right; left).
  assert (plain "q.sql") as Hscript by (by split).
  destruct (option_spellings HcfsDirs "--hcfs-dirs" "--hc" "q.sql" Ha Hscript)
    as (Habbr & Heq).
  split.
  - apply (Habbr "--hcfs" "/data/a,/data/b"); [by split | done | done].
  - by apply (Heq "-a,-b").
Defined.

(** ** The outcomes of [register_views] *)

Lemma first_failure_unique {A} (P : A → Prop) pre s post pre' s' post' :
  pre ++ s :: post = pre' ++ s' :: post' →
  Forall P pre → ¬ P s → Forall P pre' → ¬ P s' →
  pre = pre' ∧ s = s' ∧ post = post'.
Proof.
  revert pre'. induction pre as [|x pre IH]; intros [|x' pre'] Heq Hpre Hs Hpre' Hs';
    simplify_eq/=.
  - done.
  - by apply Forall_cons in Hpre' as [? _].
  - by apply Forall_cons in Hpre as [? _].
  - apply Forall_cons in Hpre as [_ Hpre]. apply Forall_cons in Hpre' as [_ Hpre'].
    destruct (IH pre' H0 Hpre Hs Hpre' Hs') as (-> & -> & ->). done.
Qed.

(** The run of [register_views] that a load ends. *)
Lemma register_views_load_error w st spark tables dirs fmt e st' :
  register_views spark tables dirs fmt w st = (Raise e, st') →
  ¬ Forall (available w) (sources spark tables dirs fmt) →
  ∃ pre s post,
    sources spark tables dirs fmt = pre ++ s :: post ∧
    Forall (available w) pre ∧ ¬ available w s ∧
    e = LoadError s.1.2 s.2 ∧
    trace st' = trace st ++ (load_event <$> pre ++ [s]) ∧
    temp_views st' = temp_views st.
Proof.
  intros Hrun Hnot. apply register_views_spec in Hrun as (_ & Hr).
  destruct Hr as [(pre & s & post & Hs & Htr & Hpre & Hun & -> & Hv)
                 |(_ & _ & _ & _ & _ & Hall & _)]; [|done].
  by exists pre, s, post.
Qed.

(** The run of [register_views] that a registration ends. *)
Lemma register_views_bind_error w st spark tables dirs fmt e st' :
  register_views spark tables dirs fmt w st = (Raise e, st') →
  Forall (available w) (sources spark tables dirs fmt) →
  ∃ pre b post,
    staged (sources spark tables dirs fmt) = pre ++ b :: post ∧
    accepted w (temp_views st) pre ∧
    refused w (registered w pre (temp_views st)) b e ∧
    trace st' = trace st ++ (load_event <$> sources spark tables dirs fmt)
                  ++ (bind_event <$> pre ++ [b]) ∧
    temp_views st' = registered w pre (temp_views st).
Proof.
  intros Hrun Hall. apply register_views_spec in Hrun as (_ & Hr).
  destruct Hr as [(pre & s & post & Hs & _ & _ & Hun & _)
                 |(pre & b & post & Hd & Htr & _ & Hacc & Hv & Href)].
  - destruct Hun. rewrite Forall_forall in Hall. apply Hall.
    rewrite Hs. apply elem_of_app. right. left.
  - by exists pre, b, post.
Qed.

Lemma loads_app evs1 evs2 : loads (evs1 ++ evs2) = loads evs1 ++ loads evs2.
Proof. apply omap_app. Qed.

Lemma loads_loads (l : list Source) :
  loads (load_event <$> l) = (λ s, (s.1.2, s.2)) <$> l.
Proof. induction l as [|s l IH]; simpl; [done|]. by f_equal. Qed.

Lemma loads_binds (l : list (string * DataFrame)) : loads (bind_event <$> l) = [].
Proof. by induction l. Qed.

(** X10: what decides the outcome of [register_views]. It completes if and
    only if every source of the configuration can be loaded and the engine
    accepts the derived names: it refuses none of them, no view is bound
    under the stored name of any, and names that differ are stored under
    names that differ. It raises the error of a load if and only if some
    source cannot be loaded, whatever the names: the loads all come first.
    It raises an error of a name (a name refused, or a view that exists) if
    and only if every source can be loaded and the names are not accepted:
    for a name refused, it is a derived name that the engine refuses; for a
    view that exists, the stored name of a derived name is bound in the
    session or is the stored name of another derived name. *)
Theorem register_views_outcome w st spark tables dirs fmt :
  let srcs := sources spark tables dirs fmt in
  let names := source_name <$> srcs in
  let r := (register_views spark tables dirs fmt w st).1 in
  (r = Ok tt ↔
     Forall (available w) srcs ∧ names_accepted w (temp_views st) names) ∧
  ((∃ reader path, r = Raise (LoadError reader path)) ↔
     ¬ Forall (available w) srcs) ∧
  ((∃ name, r = Raise (InvalidViewName name) ∨
            r = Raise (TempViewAlreadyExists name)) ↔
     Forall (available w) srcs ∧ ¬ names_accepted w (temp_views st) names) ∧
  (∀ name, r = Raise (InvalidViewName name) →
     name ∈ names ∧ view_key w name = None) ∧
  (∀ name, r = Raise (TempViewAlreadyExists name) →
     name ∈ names ∧
     ∃ key, view_key w name = Some key ∧
            (is_Some (temp_views st !! key) ∨
             ∃ other, other ∈ names ∧ other ≠ name ∧
                      view_key w other = Some key)).
Proof.
  intros srcs names r. subst r.
  destruct (register_views spark tables dirs fmt w st) as [r st'] eqn:Hrun.
  cbn [fst].
  assert (r = Ok tt →
          Forall (available w) srcs ∧
          names_accepted w (temp_views st) names) as Hok.
  { intros ->. apply register_views_spec in Hrun as (_ & _ & Hall & Hacc & _).
    split; [done|]. by apply staged_accepted. }
  assert (∀ e, r = Raise e → ¬ Forall (available w) srcs →
               ∃ reader path, e = LoadError reader path) as Hload.
  { intros e -> Hnot.
    apply register_views_load_error in Hrun
      as (pre & s & post & _ & _ & _ & -> & _); [|done].
    by eexists _, _. }
  assert (∀ e, r = Raise e → Forall (available w) srcs →
               ∃ pre b post,
                 staged srcs = pre ++ b :: post ∧
                 refused w (registered w pre (temp_views st)) b e) as Hbind.
  { intros e -> Hall.
    apply register_views_bind_error in Hrun
      as (pre & b & post & Hd & _ & Href & _); [|done].
    by exists pre, b, post. }
  assert (∀ pre b post, staged srcs = pre ++ b :: post → b.1 ∈ names)
    as Hname.
  { intros pre b post Hd. apply staged_keys_elem, list_elem_of_fmap.
    exists b. split; [done|]. rewrite Hd. apply elem_of_app. right. left. }
  split_and!.
  - split; [done|]. intros [Hall Hacc]. apply staged_accepted in Hacc.
    destruct (register_views_completes w st spark tables dirs fmt Hall Hacc)
      as [st1 Hrun1].
    rewrite Hrun in Hrun1. by injection Hrun1.
  - split.
    + intros (reader & path & ->) Hall.
      destruct (Hbind _ eq_refl Hall) as (pre & b & post & _ & Href).
      by destruct Href as [[_ ?]|(? & _ & _ & ?)].
    + intros Hnot. destruct r as [[]|e].
      * by destruct (Hok eq_refl).
      * destruct (Hload e eq_refl Hnot) as (reader & path & ->).
        by eexists _, _.
  - split.
    + intros (name & Hr).
      destruct (decide (Forall (available w) srcs)) as [Hall|Hnot].
      * split; [done|]. intros Hacc. apply staged_accepted in Hacc.
        destruct (register_views_completes w st spark tables dirs fmt
                    Hall Hacc) as [st1 Hrun1].
        rewrite Hrun in Hrun1. injection Hrun1 as -> _. by destruct Hr.
      * destruct r as [[]|e]; [by destruct Hr|].
        destruct (Hload e eq_refl Hnot) as (reader & path & ->).
        by destruct Hr.
    + intros (Hall & Hnot). destruct r as [[]|e].
      * by destruct (Hok eq_refl).
      * destruct (Hbind e eq_refl Hall) as (pre & b & post & _ & Href).
        exists b.1. destruct Href as [[_ ->]|(? & _ & _ & ->)]; auto.
  - intros name ->.
    destruct (decide (Forall (available w) srcs)) as [Hall|Hnot].
    2: { by destruct (Hload _ eq_refl Hnot) as (? & ? & ?). }
    destruct (Hbind _ eq_refl Hall) as (pre & b & post & Hd & Href).
    destruct Href as [[Hnone [= ->]]|(? & _ & _ & ?)]; [|done].
    split; [by apply (Hname pre b post) | done].
  - intros name ->. by apply (view_exists_cause w st spark tables dirs fmt name st').
Qed.

(** A table Sales and a directory sales in a new session: the second view
    is refused, its name is stored as the name of the first is. *)
Lemma register_views_outcome_witness :
  ∃ key,
    view_key (world_with_rows "SELECT 1" []) "sales" = Some key ∧
    ∃ other, other ∈ ["Sales"; "sales"] ∧ other ≠ "sales" ∧
             view_key (world_with_rows "SELECT 1" []) other = Some key.
Proof.
  destruct (register_views_outcome (world_with_rows "SELECT 1" [])
              initial_state Session ["p.d.Sales"] ["/data/sales"] None)
    as (_ & _ & _ & _ & Hclash).
  destruct (Hclash "sales" eq_refl) as (_ & key & Hkey & [[? Hold]|Hother]).
  - cbn [temp_views initial_state] in Hold. by rewrite lookup_empty in Hold.
  - by exists key.
Defined.

(** X11: a load that fails leaves the session as it was. When some source
    cannot be loaded, [register_views] raises the error of the first such
    source, in the order of the remote tables followed by the directories:
    the sources before it have been loaded, no source after it is, no view
    is registered (not even those of the sources that were loaded), and the
    views of the session are those from before the call. *)
Theorem failed_load_registers_nothing w st spark tables dirs fmt r st' :
  register_views spark tables dirs fmt w st = (r, st') →
  ¬ Forall (available w) (sources spark tables dirs fmt) →
  ∃ pre s post,
    sources spark tables dirs fmt = pre ++ s :: post ∧
    Forall (available w) pre ∧ ¬ available w s ∧
    r = Raise (LoadError s.1.2 s.2) ∧
    trace st' = trace st ++ (load_event <$> pre) ++ [load_event s] ∧
    registrations (trace st') = registrations (trace st) ∧
    temp_views st' = temp_views st ∧
    shown st' = shown st.
Proof.
  intros Hrun Hnot. destruct r as [[]|e].
  - by apply register_views_spec in Hrun as (_ & _ & Hall & _).
  - pose proof Hrun as Hspec.
    apply register_views_spec in Hspec as (Hshown & _).
    apply register_views_load_error in Hrun
      as (pre & s & post & Hs & Hpre & Hun & -> & Htr & Hviews); [|done].
    exists pre, s, post. split_and!; try done.
    + by rewrite Htr, fmap_app.
    + rewrite Htr, registrations_app, registrations_loads. apply app_nil_r.
Qed.

Lemma failed_load_registers_nothing_witness :
  let run := register_views Session ["p.d.a"] ["/data/b"; "/data/c"] None
               (world_without_source "/data/b") initial_state in
  run.1 = Raise (LoadError {| source_format := "parquet";
                              reader_options := [] |} (Some "/data/b")) ∧
  temp_views run.2 = ∅.
Proof.
  intros run.
  destruct (register_views Session ["p.d.a"] ["/data/b"; "/data/c"] None
              (world_without_source "/data/b") initial_state)
    as [r st'] eqn:Hrun.
  subst run. cbn [fst snd].
  destruct (failed_load_registers_nothing _ _ _ _ _ _ _ _ Hrun)
    as (pre & s & post & Hs & Hpre & Hun & -> & _ & _ & -> & _).
  { intros Hall. rewrite Forall_forall in Hall.
    by specialize (Hall (dir_source Session "/data/b")
                     ltac:(right; left)). }
  split; [|done].
  destruct (first_failure_unique (available (world_without_source "/data/b"))
              pre s post [table_source Session None "p.d.a"]
              (dir_source Session "/data/b") [dir_source Session "/data/c"])
    as (_ & -> & _); try done.
  repeat constructor.
Defined.

(** X12: a view that exists stops the registrations where it stands, and
    nothing is undone. When [register_views] raises because a view exists
    for a name, every source has been loaded; the stored name of that name
    was taken, by a view of the session or by a view that this call
    registered before under a name stored alike; the views that stand
    before the name in the staging dictionary are registered and stay
    registered; the view bound under the stored name stays bound; and no
    other view of the session changes. *)
Theorem name_clash_keeps_earlier_views w st spark tables dirs fmt name st' :
  register_views spark tables dirs fmt w st
  = (Raise (TempViewAlreadyExists name), st') →
  let srcs := sources spark tables dirs fmt in
  ∃ pre df post key,
    staged srcs = pre ++ (name, df) :: post ∧
    Forall (available w) srcs ∧
    trace st' = trace st ++ (load_event <$> srcs)
                  ++ (bind_event <$> pre) ++ [CreateTempView name df] ∧
    view_key w name = Some key ∧
    (is_Some (temp_views st !! key) ∨
     ∃ n d, (n, d) ∈ pre ∧ n ≠ name ∧ view_key w n = Some key) ∧
    is_Some (temp_views st' !! key) ∧
    (∀ n d, (n, d) ∈ pre →
       ∃ k, view_key w n = Some k ∧ temp_views st !! k = None ∧
            temp_views st' !! k = Some d) ∧
    (∀ k, (∀ n d, (n, d) ∈ pre → view_key w n ≠ Some k) →
       temp_views st' !! k = temp_views st !! k).
Proof.
  intros Hrun srcs.
  destruct (decide (Forall (available w) srcs)) as [Hall|Hnot].
  2: { by apply register_views_load_error in Hrun
         as (? & ? & ? & _ & _ & _ & ? & _). }
  apply register_views_bind_error in Hrun
    as (pre & [name' df] & post & Hd & Hacc & Href & Htr & Hviews); [|done].
  fold srcs in Hd, Htr. cbn [fst] in Href.
  destruct Href as [[_ ?]|(key & Hkey & Hsome & [= <-])]; [done|].
  assert (∀ k, (∀ n d, (n, d) ∈ pre → view_key w n ≠ Some k) →
               temp_views st' !! k = temp_views st !! k) as Hout.
  { intros k Hk. rewrite Hviews. apply registered_other.
    intros [n0 d0] Hb. by apply (Hk n0 d0). }
  exists pre, df, post, key. split_and!; try done.
  - by rewrite Htr, fmap_app.
  - destruct (decide (Exists (λ b', view_key w b'.1 = Some key) pre))
      as [Hex|Hno].
    + right. apply Exists_exists in Hex as ([n0 d0] & Hb' & Hkey').
      exists n0, d0. split_and!; [done| |done].
      pose proof (staged_NoDup srcs) as Hnd. rewrite Hd in Hnd.
      rewrite fmap_app in Hnd. apply NoDup_app in Hnd as (_ & Hdisj & _).
      intros ->. apply (Hdisj name).
      * apply list_elem_of_fmap. by exists (name, d0).
      * left.
    + left. rewrite registered_other in Hsome; [done|].
      intros b' Hb' Hkey'. apply Hno. apply Exists_exists. by exists b'.
  - by rewrite Hviews.
  - intros n0 d0 Hin.
    destruct (accepted_fresh _ _ _ Hacc (n0, d0) Hin) as (k & Hk & Hfree).
    destruct (accepted_lookup _ _ _ Hacc (n0, d0) Hin) as (k' & Hk' & Hbound).
    cbn [fst snd] in *. rewrite Hk in Hk'. injection Hk' as <-.
    exists k. by rewrite Hviews.
Qed.

(** A table Sales and a directory sales in a new session: the view of the
    table is registered and stays, the view of the directory is refused. *)
Lemma name_clash_keeps_earlier_views_witness :
  let run := register_views Session ["p.d.Sales"] ["/data/sales"] None
               (world_with_rows "SELECT 1" []) initial_state in
  run.1 = Raise (TempViewAlreadyExists "sales") ∧
  temp_views run.2 !! "sales"
    = Some (source_frame (table_source Session None "p.d.Sales")).
Proof.
  intros run.
  destruct (register_views Session ["p.d.Sales"] ["/data/sales"] None
              (world_with_rows "SELECT 1" []) initial_state)
    as [r st'] eqn:Hrun.
  assert (r = Raise (TempViewAlreadyExists "sales")) as ->.
  { assert ((register_views Session ["p.d.Sales"] ["/data/sales"] None
               (world_with_rows "SELECT 1" []) initial_state).1
            = Raise (TempViewAlreadyExists "sales")) as H by reflexivity.
    by rewrite Hrun in H. }
  subst run. cbn [fst snd]. split; [done|].
  destruct (name_clash_keeps_earlier_views _ _ _ _ _ _ _ _ Hrun)
    as (pre & d & post & key & Hd & _ & _ & _ & _ & _ & Hpre & _).
  assert (pre = [entry (table_source Session None "p.d.Sales")]) as ->.
  { change (staged (sources Session ["p.d.Sales"] ["/data/sales"] None))
      with ([entry (table_source Session None "p.d.Sales")]
              ++ [entry (dir_source Session "/data/sales")]) in Hd.
    destruct pre as [|p0 [|p1 pre]]; simplify_eq/=; try done.
    destruct pre; simplify_eq/=. }
  destruct (Hpre "Sales" (source_frame (table_source Session None "p.d.Sales")))
    as (k & Hk & _ & Hview); [left|].
  by injection Hk as <-.
Defined.

(** X13: [register_views] cannot be run twice in a session. After a call
    that completed, for a configuration that is not empty, a second call
    with the same configuration loads every source again and raises at its
    first registration, for the first name of the staging dictionary; the
    views of the session stay those of the first call. *)
Theorem register_views_twice_raises w st spark tables dirs fmt st1 :
  register_views spark tables dirs fmt w st = (Ok tt, st1) →
  tables ≠ [] ∨ dirs ≠ [] →
  let srcs := sources spark tables dirs fmt in
  ∃ name df rest st2,
    staged srcs = (name, df) :: rest ∧
    register_views spark tables dirs fmt w st1
    = (Raise (TempViewAlreadyExists name), st2) ∧
    trace st2 = trace st1 ++ (load_event <$> srcs)
                  ++ [CreateTempView name df] ∧
    temp_views st2 = temp_views st1.
Proof.
  intros Hrun Hsome srcs.
  apply register_views_spec in Hrun as (_ & _ & Hall & Hacc & Hviews).
  fold srcs in Hall, Hacc, Hviews.
  destruct (staged srcs) as [|[name df] rest] eqn:Hd.
  { assert (srcs = []) as Hnil.
    { destruct srcs as [|s srcs'] eqn:E; [done|].
      assert (source_name s ∈ (staged (s :: srcs')).*1) as Hin
        by (apply staged_keys_elem; left).
      rewrite Hd in Hin. by apply elem_of_nil in Hin. }
    unfold srcs, sources in Hnil. apply app_eq_nil in Hnil as [Ht Hdirs].
    apply fmap_nil_inv in Ht, Hdirs. by destruct Hsome. }
  destruct (accepted_lookup _ _ _ Hacc (name, df)) as (key & Hkey & Hbound);
    [left|].
  rewrite <-Hviews in Hbound. cbn [fst snd] in Hkey, Hbound.
  assert (∀ views d, accepted w views ((name, df) :: d) →
                     views !! key = None) as Hhead.
  { intros views d (k & Hk & Hfree & _). cbn [fst] in Hk. congruence. }
  destruct (register_views spark tables dirs fmt w st1) as [r2 st2] eqn:Hrun2.
  destruct r2 as [[]|e].
  - apply register_views_spec in Hrun2 as (_ & _ & _ & Hacc2 & _).
    fold srcs in Hacc2. rewrite Hd in Hacc2.
    apply Hhead in Hacc2. congruence.
  - apply register_views_bind_error in Hrun2
      as (pre & b & post & Hd2 & Hacc2 & Href & Htr & Hv2); [|done].
    fold srcs in Hd2, Htr. rewrite Hd in Hd2.
    destruct pre as [|p pre].
    + injection Hd2 as <- <-.
      destruct Href as [[Hnone _]|(k & _ & _ & ->)];
        [cbn [fst] in Hnone; congruence|].
      by exists name, df, rest, st2.
    + injection Hd2 as <- _. apply Hhead in Hacc2. congruence.
Qed.

Lemma register_views_twice_raises_witness :
  let w := world_with_rows "SELECT 1" [] in
  let once := register_views Session [] ["/data/a"; "/data/b"] None w
                initial_state in
  (register_views Session [] ["/data/a"; "/data/b"] None w once.2).1
  = Raise (TempViewAlreadyExists "a").
Proof.
  intros w once.
  destruct (register_views Session [] ["/data/a"; "/data/b"] None w
              initial_state) as [r st1] eqn:Hrun.
  assert (r = Ok tt) as ->.
  { assert ((register_views Session [] ["/data/a"; "/data/b"] None w
               initial_state).1 = Ok tt) as H by reflexivity.
    by rewrite Hrun in H. }
  subst once. cbn [snd].
  destruct (register_views_twice_raises _ _ _ _ _ _ _ Hrun)
    as (name & df & rest & st2 & Hd & -> & _); [by right|].
  by injection Hd as <- _ _.
Defined.

(** X14: the loads of a run of [register_views] are of two kinds only. A
    load has the reader of a remote table and no path, or the reader of the
    format parquet, with no option at all, and the path of a directory of
    the configuration: the record format of the configuration never reaches
    the reader of a directory. In a run that completes there are as many
    loads as tables and directories, also when names repeat: a source whose
    view is replaced is loaded all the same. *)
Theorem directory_readers_are_plain_parquet w st spark tables dirs fmt r st' :
  register_views spark tables dirs fmt w st = (r, st') →
  ∃ evs,
    trace st' = trace st ++ evs ∧
    (∀ reader path, Load reader path ∈ evs →
       (source_format reader = "bigquery" ∧ path = None) ∨
       (reader = {| source_format := "parquet"; reader_options := [] |} ∧
        ∃ hcfs_dir, hcfs_dir ∈ dirs ∧ path = Some hcfs_dir)) ∧
    (r = Ok tt →
       length (loads evs) = length tables + length dirs).
Proof.
  intros Hrun.
  apply register_views_events in Hrun as (loaded & bound & Htr & Hpre & _ & Hok).
  exists ((load_event <$> loaded) ++ (bind_event <$> bound)).
  split; [done|]. split.
  - intros reader path [Hin|Hin]%elem_of_app.
    + apply list_elem_of_fmap in Hin as (s & Hs & Hin).
      destruct Hpre as [post Hpost].
      assert (s ∈ sources spark tables dirs fmt) as Hsrc
        by (rewrite Hpost; apply elem_of_app; by left).
      unfold sources in Hsrc. apply elem_of_app in Hsrc as [Ht|Hd].
      * apply list_elem_of_fmap in Ht as (table & -> & _).
        injection Hs as -> ->. left. split; [|done].
        unfold bigquery_reader. by destruct fmt as [[|c f]|].
      * apply list_elem_of_fmap in Hd as (hcfs_dir & -> & Hdir).
        injection Hs as -> ->. right. split; [done|]. by exists hcfs_dir.
    + apply list_elem_of_fmap in Hin as (b & Hb & _). done.
  - intros ->. destruct (Hok eq_refl) as [-> ->].
    rewrite loads_app, loads_loads, loads_binds, app_nil_r, length_fmap.
    unfold sources. by rewrite length_app, !length_fmap.
Qed.

Lemma directory_readers_are_plain_parquet_witness :
  let run := register_views Session ["a.x"; "b.x"] ["/data/x"] (Some "AVRO")
               (world_with_rows "SELECT 1" []) initial_state in
  length (loads (trace run.2)) = 3 ∧ length (registrations (trace run.2)) = 1.
Proof.
  intros run.
  destruct (register_views Session ["a.x"; "b.x"] ["/data/x"] (Some "AVRO")
              (world_with_rows "SELECT 1" []) initial_state)
    as [r st'] eqn:Hrun.
  assert (r = Ok tt) as ->.
  { assert ((register_views Session ["a.x"; "b.x"] ["/data/x"] (Some "AVRO")
               (world_with_rows "SELECT 1" []) initial_state).1 = Ok tt)
      as H by reflexivity.
    by rewrite Hrun in H. }
  assert (length (registrations (trace st')) = 1) as Hregs.
  { assert (length (registrations (trace
              (register_views Session ["a.x"; "b.x"] ["/data/x"] (Some "AVRO")
                 (world_with_rows "SELECT 1" []) initial_state).2)) = 1)
      as H by reflexivity.
    by rewrite Hrun in H. }
  subst run. cbn [snd].
  destruct (directory_readers_are_plain_parquet _ _ _ _ _ _ _ _ Hrun)
    as (evs & Htr & _ & Hlen).
  split; [|done]. rewrite Htr. apply (Hlen eq_refl).
Defined.

(** ** The run of [main] and of the script *)

Lemma prefix_through {A} (x : A) l tail rest k :
  x ∉ l → l ++ x :: tail = rest ++ k → x ∈ rest →
  ∃ rest', rest = l ++ x :: rest'.
Proof.
  revert rest. induction l as [|y l IH]; intros rest Hno Heq Hin.
  - destruct rest as [|e rest]; [by apply elem_of_nil in Hin|].
    injection Heq as <- _. by exists rest.
  - destruct rest as [|e rest]; [by apply elem_of_nil in Hin|].
    injection Heq as <- Heq. apply not_elem_of_cons in Hno as [Hne Hno].
    apply elem_of_cons in Hin as [?|Hin]; [done|].
    destruct (IH rest Hno Heq Hin) as [rest' ->]. by exists rest'.
Qed.

(** X15: the calls of [main] are an initial segment of one sequence. Every
    run of [main] makes, in this order and up to the call that raises: the
    call that creates the session, the loads of all the sources, the
    registrations of the staged views, the opening of the query file, the
    query with the whole text of the file, the display with the largest
    limit. The session is created in every run; the query file is opened
    only after every source is loaded and every view registered; a run that
    succeeds makes all the calls. *)
Theorem main_calls_in_order w args st r st' :
  main args w st = (r, st') →
  ∃ evs,
    trace st' = trace st ++ evs ∧
    evs `prefix_of` call_sequence w args ∧
    head evs = Some (GetOrCreate "Spark SQL Query") ∧
    (r = Ok tt → evs = call_sequence w args) ∧
    (OpenFile (sql_script args) ∈ evs →
       ∃ rest, evs = GetOrCreate "Spark SQL Query"
                 :: (loads_and_views args) ++ OpenFile (sql_script args) :: rest).
Proof.
  intros Hrun.
  destruct (main_events w args st r st' Hrun)
    as (evs & Htr & Hpre & Hok & [rest ->] & _).
  exists (GetOrCreate "Spark SQL Query" :: rest).
  split_and!; try done.
  intros Hin. destruct Hpre as [k Hk]. unfold call_sequence in Hk.
  fold (loads_and_views args) in Hk. rewrite app_assoc in Hk.
  fold (loads_and_views args) in Hk.
  injection Hk as Hk.
  apply elem_of_cons in Hin as [?|Hin]; [done|].
  assert (OpenFile (sql_script args) ∉ loads_and_views args) as Hno.
  { unfold loads_and_views. intros [H|H]%elem_of_app;
      apply list_elem_of_fmap in H as (? & ? & _); done. }
  destruct (prefix_through _ _ _ _ _ Hno Hk Hin) as [rest' ->].
  by exists rest'.
Qed.

Lemma main_calls_in_order_witness :
  let args := {| sql_script := "q.sql"; bigquery_tables := [];
                 bigquery_record_format := None;
                 hcfs_dirs := ["/data/sales"] |} in
  ∃ evs,
    trace (main args world_without_files initial_state).2 = evs ∧
    evs `prefix_of` call_sequence world_without_files args.
Proof.
  intros args.
  destruct (main args world_without_files initial_state) as [r st'] eqn:Hrun.
  destruct (main_calls_in_order _ _ _ _ _ Hrun) as (evs & Htr & Hpre & _).
  exists evs. split; [exact Htr | exact Hpre].
Defined.

(** X16: the run of the script that succeeds, as a whole. For a command
    line that the parser accepts, with every source available, derived names
    that the engine accepts in a new session (it refuses none, and stores
    under different names those that differ), a query file that can be
    read, and a query that the engine evaluates to rows over the staged
    views, each under its stored name (and no other view), the process ends
    with status 0 and no diagnostic, has made every call of the sequence,
    and has printed what [show] displays of the rows with the largest limit
    and the default width. A name derived twice does not stop it: each
    name is registered once. *)
Theorem script_run_succeeds w argv args text rs rows :
  parse_args argv = Parsed args →
  let srcs := sources Session (bigquery_tables args) (hcfs_dirs args)
                (bigquery_record_format args) in
  Forall (available w) srcs →
  names_accepted w ∅ (source_name <$> srcs) →
  file_contents w (sql_script args) = Some text →
  query_result w (registered w (staged srcs) ∅) text = Some rs →
  rs_rows rs = Some rows →
  script w argv
  = {| exit_status := 0; diagnostic := EmptyString;
       printed_rows := show_rows Integer_MAX_VALUE 20 rows;
       engine_calls := call_sequence w args |}.
Proof.
  intros Hparse srcs Hall Hnames Hfile Hquery Hrows.
  unfold script. rewrite Hparse.
  destruct (main args w initial_state) as [r st'] eqn:Hrun.
  destruct (main_events w args _ r st' Hrun) as (evs & Htr & _ & Hok & _).
  apply main_spec in Hrun as (r1 & st1 & Hreg & Hmain).
  destruct (register_views_completes w
              (log (GetOrCreate "Spark SQL Query") initial_state) Session
              (bigquery_tables args) (hcfs_dirs args)
              (bigquery_record_format args) Hall) as [st1' Hreg'].
  { by apply staged_accepted. }
  rewrite Hreg in Hreg'. injection Hreg' as -> <-.
  apply register_views_spec in Hreg as (Hsh1 & _ & _ & _ & Hviews).
  fold srcs in Hviews. cbn [temp_views log initial_state] in Hviews.
  destruct Hmain as (_ & Hmain).
  rewrite Hfile, Hviews, Hquery, Hrows in Hmain.
  destruct Hmain as (_ & -> & Hshown).
  rewrite (Hok eq_refl) in Htr. rewrite Htr, Hshown, Hsh1. reflexivity.
Qed.

(** Two tables of the name x and the query over x: the fifty rows of the
    second table are printed. *)
Lemma script_run_succeeds_witness :
  script (world_with_table "x" fifty_rows)
    ["q.sql"; "--bigquery-tables"; "a.x,b.x"]
  = {| exit_status := 0; diagnostic := EmptyString;
       printed_rows := show_rows Integer_MAX_VALUE 20 fifty_rows;
       engine_calls :=
         call_sequence (world_with_table "x" fifty_rows)
           {| sql_script := "q.sql"; bigquery_tables := ["a.x"; "b.x"];
              bigquery_record_format := None; hcfs_dirs := [] |} |}.
Proof.
  apply (script_run_succeeds (world_with_table "x" fifty_rows)
           ["q.sql"; "--bigquery-tables"; "a.x,b.x"]
           {| sql_script := "q.sql"; bigquery_tables := ["a.x"; "b.x"];
              bigquery_record_format := None; hcfs_dirs := [] |}
           "SELECT * FROM x"
           {| rs_sql := "SELECT * FROM x"; rs_rows := Some fifty_rows |}
           fifty_rows eq_refl); [repeat constructor | | done | done | done].
  split.
  - intros n Hn. exists "x". split; [|apply lookup_empty].
    repeat (apply elem_of_cons in Hn as [->|Hn]; [done|]).
    by apply elem_of_nil in Hn.
  - intros n1 n2 H1 H2 _.
    repeat (apply elem_of_cons in H1 as [->|H1]; [|]);
      repeat (apply elem_of_cons in H2 as [->|H2]; [|]);
      try done; try (by apply elem_of_nil in H1);
      by apply elem_of_nil in H2.
Defined.

(** X17: the exit status of the process tells the three ends of a run
    apart. The status is 0, 1 or 2. The process makes no call on the engine
    exactly when the parser exits, which it does with status 0 or 2; the
    status is 1 exactly when the parser returns a configuration and [main]
    raises; and rows are printed only in a run that ends with status 0 and
    no diagnostic. *)
Theorem process_exit_status w argv :
  let p := script w argv in
  (exit_status p = 0%Z ∨ exit_status p = 1%Z ∨ exit_status p = 2%Z) ∧
  (engine_calls p = [] ↔
     ∃ status msg, parse_args argv = SystemExit status msg) ∧
  (exit_status p = 1%Z ↔
     ∃ args e st', parse_args argv = Parsed args ∧
                   main args w initial_state = (Raise e, st')) ∧
  (exit_status p = 2%Z → ∃ msg, parse_args argv = SystemExit 2 msg) ∧
  (printed_rows p ≠ [] →
     exit_status p = 0%Z ∧ diagnostic p = EmptyString ∧
     ∃ args st', parse_args argv = Parsed args ∧
                 main args w initial_state = (Ok tt, st')).
Proof.
  intros p. subst p. unfold script.
  pose proof (parse_args_cases argv) as Hcases.
  destruct (parse_args argv) as [args|status msg] eqn:Hparse.
  - clear Hcases.
    destruct (main args w initial_state) as [r st'] eqn:Hrun.
    destruct (main_events w args _ r st' Hrun)
      as (evs & Htr & _ & _ & [rest ->] & Hshown).
    cbn [trace initial_state app] in Htr.
    destruct r as [[]|e];
      cbn [exit_status engine_calls printed_rows diagnostic].
    + split_and!; [by left | | | done | ].
      * rewrite Htr. split; [done|]. by intros (? & ? & ?).
      * split; [done|]. intros (? & ? & ? & [= <-] & ?). congruence.
      * intros _. split_and!; [done | done |]. by exists args, st'.
    + split_and!; [by right; left | | | done | ].
      * rewrite Htr. split; [done|]. by intros (? & ? & ?).
      * split; [|done]. intros _. by exists args, e, st'.
      * by rewrite (Hshown e eq_refl).
  - cbn [exit_status engine_calls printed_rows diagnostic]. split_and!.
    + destruct Hcases as [->|(-> & _)]; auto.
    + split; [|done]. intros _. by exists status, msg.
    + split.
      * intros ->. by destruct Hcases as [?|(? & _)].
      * by intros (? & ? & ? & ? & _).
    + intros ->. by exists msg.
    + done.
Qed.

Lemma process_exit_status_witness :
  exit_status (script world_without_files ["q.sql"]) = 1%Z.
Proof.
  destruct (process_exit_status world_without_files ["q.sql"])
    as (_ & _ & Hraise & _).
  apply Hraise. by eexists query_only, _, _.
Defined.
